(** * The in-memory collection engine of the Symulate SDK

  A shallow embedding of the stateful collection store ([DataStore]),
  of the Faker-based seed generator ([generateWithFaker]), of the
  response shaper of [defineCollection], of the schema builder and of
  the quota and endpoint helpers, followed by the properties the
  specification states about them and by further properties of the
  code.

  JavaScript values are modelled with exact rationals in place of
  IEEE doubles (there is no NaN value: a conversion that yields NaN
  returns [None]; infinities are not represented).  Compound values
  carry the address of the object they denote, so that [===] on them
  is reference identity. *)

From Stdlib Require Import ZArith QArith Qcanon Ascii String List Bool Lia Sorted.
From stdpp Require Import base gmap strings list option numbers pretty.

Open Scope string_scope.
Set Warnings "-register-all".

(** ** A fragment of JavaScript *)

Module JS.

Definition addr := positive.

(** The values.  [VFun] is a function object: of a function only the
    identity is kept. *)
Inductive value : Type :=
| VUndef
| VNull
| VBool (b : bool)
| VNum (q : Qc)
| VStr (s : string)
| VArr (a : addr) (elems : list value)
| VObj (a : addr) (props : list (string * value))
| VFun (a : addr).

(** An object as a bag of own properties.  Stored items are objects
    of this kind; the order of their keys plays no role below. *)
Abbreviation record := (gmap string value).

(** Language built-ins that are used by the code but not spelled out
    here: [StringToNumber], the [ToPrimitive] conversion of a
    compound value, [String.prototype.includes] and [JSON.parse]. *)
Class Builtins := {
  string_to_number : string → option Qc;
  compound_to_primitive : value → value;
  string_includes : string → value → bool;
  json_parse : string → option value;
}.

Inductive error : Type :=
| TypeError (msg : string)
| Error (msg : string).

Inductive outcome (A : Type) : Type :=
| Ok (a : A)
| Throw (e : error).
Arguments Ok {A} a.
Arguments Throw {A} e.

(** [typeof v === 'object'] *)
Definition typeof_object (v : value) : bool :=
  match v with
  | VNull | VArr _ _ | VObj _ _ => true
  | _ => false
  end.

(** Truthiness, as used by [||], [&&], [!] and [if]. *)
Definition truthy (v : value) : bool :=
  match v with
  | VUndef | VNull => false
  | VBool b => b
  | VNum q => negb (bool_decide (q = 0%Qc))
  | VStr s => negb (String.eqb s EmptyString)
  | VArr _ _ | VObj _ _ | VFun _ => true
  end.

(** [a || b] *)
Definition or_else (a b : value) : value := if truthy a then a else b.

(** [a === b]; on the values of this model it coincides with the
    SameValueZero comparison of [Map] keys and of [includes]. *)
Definition strict_eq (a b : value) : bool :=
  match a, b with
  | VUndef, VUndef => true
  | VNull, VNull => true
  | VBool x, VBool y => Bool.eqb x y
  | VNum x, VNum y => bool_decide (x = y)
  | VStr x, VStr y => String.eqb x y
  | VArr x _, VArr y _ => Pos.eqb x y
  | VObj x _, VObj y _ => Pos.eqb x y
  | VFun x, VFun y => Pos.eqb x y
  | _, _ => false
  end.

(** [arr.includes(v)] *)
Definition includes (l : list value) (v : value) : bool :=
  existsb (fun x => strict_eq x v) l.

(** [obj[key]] on a bag of properties: [undefined] when absent. *)
Definition get (r : record) (k : string) : value := default VUndef (r !! k).

(** [{...r, k: v}] *)
Definition set (k : string) (v : value) (r : record) : record := <[k := v]> r.

(** [{...a, ...b}]: the properties of [b] win. *)
Definition spread2 (a b : record) : record := b ∪ a.

(** Own properties of an object literal given as a list of
    assignments, the later ones overriding the earlier. *)
Definition props_record (props : list (string * value)) : record :=
  foldl (fun r kv => <[kv.1 := kv.2]> r) ∅ props.

(** The properties that every plain object inherits from
    [Object.prototype]: eleven functions, and the accessor
    [__proto__]. *)
Definition objectPrototype : list (string * value) :=
  [("constructor", VFun 1%positive); ("__defineGetter__", VFun 2%positive);
   ("__defineSetter__", VFun 3%positive); ("hasOwnProperty", VFun 4%positive);
   ("__lookupGetter__", VFun 5%positive); ("__lookupSetter__", VFun 6%positive);
   ("isPrototypeOf", VFun 7%positive); ("propertyIsEnumerable", VFun 8%positive);
   ("toString", VFun 9%positive); ("valueOf", VFun 10%positive);
   ("toLocaleString", VFun 11%positive)].

Definition inherited (k : string) : option value :=
  snd <$> List.find (fun e => String.eqb e.1 k) objectPrototype.

(** [k in r] for a plain object [r]: the own properties and the
    inherited ones. *)
Definition has_property (r : record) (k : string) : bool :=
  bool_decide (is_Some (r !! k)) || bool_decide (is_Some (inherited k))
  || String.eqb k "__proto__".

(** [r[k]] where [k in r] holds and [k] is not [__proto__]. *)
Definition read_property (r : record) (k : string) : value :=
  match r !! k with
  | Some v => v
  | None => default VUndef (inherited k)
  end.

(** [v.k] for an arbitrary value: a [TypeError] on [null] and
    [undefined]; prototype properties are not modelled. *)
Definition get_prop (v : value) (k : string) : outcome value :=
  match v with
  | VUndef | VNull => Throw (TypeError "cannot read properties of null or undefined")
  | VObj _ props => Ok (get (props_record props) k)
  | _ => Ok VUndef
  end.

Section Conversions.
Context `{Builtins}.

Definition to_primitive (v : value) : value :=
  match v with
  | VArr _ _ | VObj _ _ | VFun _ => compound_to_primitive v
  | _ => v
  end.

(** [Number(v)]; [None] stands for NaN. *)
Definition to_number (v : value) : option Qc :=
  match to_primitive v with
  | VUndef => None
  | VNull => Some 0%Qc
  | VBool b => Some (if b then 1%Qc else 0%Qc)
  | VNum q => Some q
  | VStr s => string_to_number s
  | VArr _ _ | VObj _ _ | VFun _ => None
  end.

(** The abstract relational comparison [a < b]; [None] is the
    "undefined" answer given when an operand converts to NaN. *)
Definition abstract_lt (a b : value) : option bool :=
  match to_primitive a, to_primitive b with
  | VStr s, VStr t => Some (String.ltb s t)
  | pa, pb =>
      match to_number pa, to_number pb with
      | Some x, Some y => Some (bool_decide (x < y)%Qc)
      | _, _ => None
      end
  end.

Definition lt (a b : value) : bool := default false (abstract_lt a b).
Definition gt (a b : value) : bool := default false (abstract_lt b a).
Definition le (a b : value) : bool := default false (negb <$> abstract_lt b a).
Definition ge (a b : value) : bool := default false (negb <$> abstract_lt a b).

(** [Number(v) || 0] *)
Definition number_or_zero (v : value) : Qc := default 0%Qc (to_number v).
End Conversions.

(** [Array.prototype.slice(start, end)] with its relative indices. *)
Definition slice {A} (l : list A) (start stop : Z) : list A :=
  let len := Z.of_nat (length l) in
  let k := if (start <? 0)%Z then Z.max (len + start) 0 else Z.min start len in
  let final := if (stop <? 0)%Z then Z.max (len + stop) 0 else Z.min stop len in
  take (Z.to_nat (final - k)) (drop (Z.to_nat k) l).

(** [Array.prototype.sort(cmp)]: a stable insertion sort driven by
    the sign of the comparator. *)
Fixpoint sort_insert {A} (cmp : A → A → Z) (x : A) (l : list A) : list A :=
  match l with
  | [] => [x]
  | y :: l' => if (cmp x y <=? 0)%Z then x :: y :: l' else y :: sort_insert cmp x l'
  end.

Definition sort {A} (cmp : A → A → Z) (l : list A) : list A :=
  foldr (sort_insert cmp) [] l.

(** [Math.min(...l)] and [Math.max(...l)] on a non-empty list. *)
Definition list_min (x : Qc) (l : list Qc) : Qc :=
  foldl (fun m y => if bool_decide (y < m)%Qc then y else m) x l.
Definition list_max (x : Qc) (l : list Qc) : Qc :=
  foldl (fun m y => if bool_decide (m < y)%Qc then y else m) x l.

(** *** The built-in [Map]: insertion-ordered, keyed by SameValueZero *)

Definition map (V : Type) := list (value * V).

Definition map_get {V} (m : map V) (k : value) : option V :=
  snd <$> List.find (fun kv => strict_eq kv.1 k) m.

Definition map_has {V} (m : map V) (k : value) : bool :=
  bool_decide (is_Some (map_get m k)).

Fixpoint map_set {V} (k : value) (v : V) (m : map V) : map V :=
  match m with
  | [] => [(k, v)]
  | (k', v') :: m' =>
      if strict_eq k' k then (k', v) :: m' else (k', v') :: map_set k v m'
  end.

Definition map_delete {V} (k : value) (m : map V) : map V :=
  List.filter (fun kv => negb (strict_eq kv.1 k)) m.

Definition map_keys {V} (m : map V) : list value := fst <$> m.
Definition map_values {V} (m : map V) : list V := snd <$> m.

End JS.

(** ** Exceptions over mutable state

    A computation runs on a state and either returns or throws; the
    state survives a throw, as the heap of a JavaScript program does. *)

Module Eff.
Import JS.

Definition M (S A : Type) : Type := S → outcome A * S.

Definition ret {S A} (a : A) : M S A := fun s => (Ok a, s).

Definition bind {S A B} (m : M S A) (k : A → M S B) : M S B :=
  fun s =>
    match m s with
    | (Ok a, s') => k a s'
    | (Throw e, s') => (Throw e, s')
    end.

Definition throw {S A} (e : error) : M S A := fun s => (Throw e, s).

(** [try { m } catch (e) { h e }] *)
Definition try_catch {S A} (m : M S A) (h : error → M S A) : M S A :=
  fun s =>
    match m s with
    | (Ok a, s') => (Ok a, s')
    | (Throw e, s') => h e s'
    end.

(** [try { m } finally { f }] for a [finally] block that only assigns. *)
Definition try_finally {S A} (m : M S A) (f : S → S) : M S A :=
  fun s => let '(r, s') := m s in (r, f s').

Definition gets {S A} (f : S → A) : M S A := fun s => (Ok (f s), s).
Definition modify {S} (f : S → S) : M S unit := fun s => (Ok tt, f s).

(** The result of a call to an external collaborator. *)
Definition call {S A} (o : outcome A) : M S A := fun s => (o, s).

(** [l.map(f)] or [l.forEach(f)] for an effectful [f]. *)
Fixpoint mapM {S A B} (f : A → M S B) (l : list A) : M S (list B) :=
  match l with
  | [] => ret []
  | x :: l' => bind (f x) (fun y => bind (mapM f l') (fun ys => ret (y :: ys)))
  end.

(** [Array.from({ length: n }, f)] *)
Fixpoint replicateM {S A} (n : nat) (f : M S A) : M S (list A) :=
  match n with
  | O => ret []
  | S n' => bind f (fun y => bind (replicateM n' f) (fun ys => ret (y :: ys)))
  end.

End Eff.

Notation "'let*' x ':=' m 'in' k" := (Eff.bind m (fun x => k))
  (at level 10, x pattern, m at level 100, k at level 200).
Notation "m ';;' k" := (Eff.bind m (fun _ => k))
  (at level 100, k at level 200, right associativity).

(** ** Schemas, as the schema builder produces them *)

Module Schema.

(** A node carries its [_meta.schemaType] and [_meta.optional]; an
    object node its [_shape], an array node its [_element]. *)
Inductive schema : Type :=
| SPrim (ty : string) (opt : bool)
| SObject (opt : bool) (shape : list (string * schema))
| SArray (opt : bool) (element : schema).

Definition schemaType (s : schema) : string :=
  match s with
  | SPrim ty _ => ty
  | SObject _ _ => "object"
  | SArray _ _ => "array"
  end.

Definition optional (s : schema) : bool :=
  match s with
  | SPrim _ o | SObject o _ | SArray o _ => o
  end.

End Schema.

(** ** The collection store *)

Module DataStore.
Import JS Eff Schema.

(** One entry of a collection's [relations] option. *)
Record RelationConfig := {
  relType : string;       (* type: 'belongsTo' | 'hasMany' | 'hasOne' *)
  collection : string;
  foreignKey : string;
}.

(** The fields of the global configuration that the store reads. *)
Record GlobalConfig := {
  environment : string;
  generateMode : option string;
  fakerSeed : option Z;
  persistenceMode : option string;   (* collections?.persistence?.mode *)
  openaiApiKey : option string;
  symulateApiKey : option string;
  demoApiKey : option string;
}.

(** The instance fields of [DataStore]. *)
Record Store := {
  collectionName : string;
  schema : Schema.schema;
  seedCount : nat;
  seedInstruction : option string;
  data : JS.map record;
  initialized : bool;
}.

(** What the collection registry keeps for a name: the collection's
    [config.relations] and its store. *)
Record Metadata := {
  relations : option (list (string * RelationConfig));
  store : option positive;
}.

(** The sources of non-determinism of the run-time: the readings of
    the clock, the identifiers [generateId] builds from clock and
    [Math.random], the outcomes of [Math.random() < 0.25], the raw
    draws of Faker's generator, and the next free object address. *)
Record Entropy := {
  clock : nat → string;
  ticks : nat;
  idSource : nat → string;
  idsDrawn : nat;
  coins : nat → bool;
  coinsDrawn : nat;
  fakerDraws : nat → nat;
  fakerPos : nat;
  nextAddr : addr;
}.

(** The program state: the heap of stores (every reference denotes a
    store), the global registry and configuration, the static flag
    [DataStore.isInitializingAll], the host environment. *)
Record World := {
  stores : positive → Store;
  registry : gmap string Metadata;
  config : GlobalConfig;
  isInitializingAll : bool;
  browser : bool;
  entropy : Entropy;
}.

Abbreviation W := (M World).

Definition with_stores (f : positive → Store) (w : World) : World :=
  {| stores := f; registry := registry w; config := config w;
     isInitializingAll := isInitializingAll w; browser := browser w;
     entropy := entropy w |}.

Definition with_flag (b : bool) (w : World) : World :=
  {| stores := stores w; registry := registry w; config := config w;
     isInitializingAll := b; browser := browser w; entropy := entropy w |}.

Definition with_entropy (e : Entropy) (w : World) : World :=
  {| stores := stores w; registry := registry w; config := config w;
     isInitializingAll := isInitializingAll w; browser := browser w;
     entropy := e |}.

Definition with_data (d : JS.map record) (s : Store) : Store :=
  {| collectionName := collectionName s; schema := schema s;
     seedCount := seedCount s; seedInstruction := seedInstruction s;
     data := d; initialized := initialized s |}.

Definition with_initialized (b : bool) (s : Store) : Store :=
  {| collectionName := collectionName s; schema := schema s;
     seedCount := seedCount s; seedInstruction := seedInstruction s;
     data := data s; initialized := b |}.

Definition update_store (this : positive) (f : Store → Store) (w : World) : World :=
  with_stores (fun p => if decide (p = this) then f (stores w p) else stores w p) w.

(** Reading and assigning the fields of [this]. *)
Definition self (this : positive) : W Store := gets (fun w => stores w this).
Definition set_data (this : positive) (d : JS.map record) : W unit :=
  modify (update_store this (with_data d)).
Definition set_initialized (this : positive) (b : bool) : W unit :=
  modify (update_store this (with_initialized b)).

Definition getConfig : W GlobalConfig := gets config.

(** Computations that only consult the environment. *)
Abbreviation G := (M Entropy).

Definition lift {A} (g : G A) : W A :=
  fun w => let '(r, e) := g (entropy w) in (r, with_entropy e w).

(** [new Date().toISOString()] *)
Definition clockReading : G string :=
  fun e =>
    (Ok (clock e (ticks e)),
     {| clock := clock e; ticks := S (ticks e);
        idSource := idSource e; idsDrawn := idsDrawn e;
        coins := coins e; coinsDrawn := coinsDrawn e;
        fakerDraws := fakerDraws e; fakerPos := fakerPos e;
        nextAddr := nextAddr e |}).

(** [generateId()]: the clock reading in milliseconds followed by a
    random suffix. *)
Definition newId : G value :=
  fun e =>
    (Ok (VStr (idSource e (idsDrawn e))),
     {| clock := clock e; ticks := ticks e;
        idSource := idSource e; idsDrawn := S (idsDrawn e);
        coins := coins e; coinsDrawn := coinsDrawn e;
        fakerDraws := fakerDraws e; fakerPos := fakerPos e;
        nextAddr := nextAddr e |}).

(** [Math.random() < 0.25] *)
Definition random_below_quarter : G bool :=
  fun e =>
    (Ok (coins e (coinsDrawn e)),
     {| clock := clock e; ticks := ticks e;
        idSource := idSource e; idsDrawn := idsDrawn e;
        coins := coins e; coinsDrawn := S (coinsDrawn e);
        fakerDraws := fakerDraws e; fakerPos := fakerPos e;
        nextAddr := nextAddr e |}).

(** One raw draw of Faker's generator. *)
Definition faker_draw : G nat :=
  fun e =>
    (Ok (fakerDraws e (fakerPos e)),
     {| clock := clock e; ticks := ticks e;
        idSource := idSource e; idsDrawn := idsDrawn e;
        coins := coins e; coinsDrawn := coinsDrawn e;
        fakerDraws := fakerDraws e; fakerPos := S (fakerPos e);
        nextAddr := nextAddr e |}).

(** The address of a newly allocated object or array. *)
Definition fresh_addr : G addr :=
  fun e =>
    (Ok (nextAddr e),
     {| clock := clock e; ticks := ticks e;
        idSource := idSource e; idsDrawn := idsDrawn e;
        coins := coins e; coinsDrawn := coinsDrawn e;
        fakerDraws := fakerDraws e; fakerPos := fakerPos e;
        nextAddr := Pos.succ (nextAddr e) |}).

Definition now : W string := lift clockReading.
Definition generateId : W value := lift newId.

(** The Faker library: how a seed restarts the generator and how the
    generators of identifiers and of the primitive kinds turn a raw
    draw into a value. *)
Class Faker := {
  seeded : Z → nat → nat;
  uuid_of : nat → string;
  primitive_of : string → nat → value;
}.

(** The persistence back ends (local storage, files, edge function). *)
Class Persistence := {
  loadFromLocalStorage : string → outcome (option (list record));
  loadFromFile : string → outcome (option (list record));
  loadFromEdgeFunction :
    string → Schema.schema → option string → outcome (option (list record));
  saveToLocalStorage : string → list record → outcome unit;
  saveToFile : string → list record → outcome unit;
  createInEdgeFunction : string → record → outcome unit;
  updateInEdgeFunction : string → value → record → outcome unit;
  deleteFromEdgeFunction : string → value → outcome unit;
}.

(** The AI provider: [generateWithAI] for the seed items of a store. *)
Class AIProvider := {
  generateWithAI : Store → outcome value;
}.

(** Code of the repository that is not part of the sources at hand:
    [getCollectionSeedOrder] of the relations module (the order in
    which the registered collections are seeded). *)
Class Relations := {
  getCollectionSeedOrder : gmap string Metadata → list string;
}.

Section Methods.
Context `{Builtins} `{Faker} `{Persistence} `{AIProvider} `{Relations}.

(** [!persistenceMode || persistenceMode === 'memory'] *)
Definition no_persistence (mode : option string) : bool :=
  match mode with
  | None => true
  | Some m => String.eqb m EmptyString || String.eqb m "memory"
  end.

Definition mode_is (mode : option string) (m : string) : bool :=
  match mode with
  | Some m' => String.eqb m' m
  | None => false
  end.

(** *** Persistence *)

Definition loadFromPersistence (this : positive) : W (option (list record)) :=
  let* config := getConfig in
  let persistenceMode := persistenceMode config in
  if no_persistence persistenceMode then ret None
  else
    let* st := self this in
    let* isBrowser := gets browser in
    let* loaded :=
      try_catch
        (if mode_is persistenceMode "local" then
           if isBrowser then
             let* r := call (loadFromLocalStorage (collectionName st)) in
             ret (Some r)
           else
             try_catch
               (let* r := call (loadFromFile (collectionName st)) in
                ret (Some r))
               (fun _ => ret (Some None))
         else if mode_is persistenceMode "cloud" then
           let* r := call (loadFromEdgeFunction
                             (collectionName st) (schema st) (seedInstruction st)) in
           ret (Some r)
         else ret None)
        (fun _ => ret None) in
    match loaded with
    | Some r => ret r
    | None => ret None
    end.

Definition persist (this : positive) : W unit :=
  let* config := getConfig in
  let persistenceMode := persistenceMode config in
  if no_persistence persistenceMode then ret tt
  else
    let* st := self this in
    let items := map_values (data st) in
    let* isBrowser := gets browser in
    try_catch
      (if mode_is persistenceMode "local" then
         if isBrowser then call (saveToLocalStorage (collectionName st) items)
         else
           try_catch
             (call (saveToFile (collectionName st) items))
             (fun _ => ret tt)
       else ret tt)
      (fun _ => ret tt).

Definition persistCreate (this : positive) (item : record) : W unit :=
  let* config := getConfig in
  let persistenceMode := persistenceMode config in
  if no_persistence persistenceMode then ret tt
  else
    let* st := self this in
    try_catch
      (if mode_is persistenceMode "cloud" then
         call (createInEdgeFunction (collectionName st) item)
       else if mode_is persistenceMode "local" then persist this
       else ret tt)
      (fun _ => ret tt).

Definition persistUpdate (this : positive) (id : value) (updates : record) : W unit :=
  let* config := getConfig in
  let persistenceMode := persistenceMode config in
  if no_persistence persistenceMode then ret tt
  else
    let* st := self this in
    try_catch
      (if mode_is persistenceMode "cloud" then
         call (updateInEdgeFunction (collectionName st) id updates)
       else if mode_is persistenceMode "local" then persist this
       else ret tt)
      (fun _ => ret tt).

Definition persistDelete (this : positive) (id : value) : W unit :=
  let* config := getConfig in
  let persistenceMode := persistenceMode config in
  if no_persistence persistenceMode then ret tt
  else
    let* st := self this in
    try_catch
      (if mode_is persistenceMode "cloud" then
         call (deleteFromEdgeFunction (collectionName st) id)
       else if mode_is persistenceMode "local" then persist this
       else ret tt)
      (fun _ => ret tt).

(** *** The Faker generator ([generateWithFaker], [generateSingleValue]) *)

(** [faker.seed(k)] *)
Definition faker_seed (k : Z) : G unit :=
  modify (fun e =>
    {| clock := clock e; ticks := ticks e;
       idSource := idSource e; idsDrawn := idsDrawn e;
       coins := coins e; coinsDrawn := coinsDrawn e;
       fakerDraws := seeded k; fakerPos := 0;
       nextAddr := nextAddr e |}).

(** [faker.number.int({ min, max })], for [min <= max] *)
Definition faker_number_int (min max : Z) : G Z :=
  let* d := faker_draw in
  ret (min + Z.of_nat d `mod` (max - min + 1))%Z.

(** [faker.string.uuid()] *)
Definition faker_string_uuid : G value :=
  let* d := faker_draw in ret (VStr (uuid_of d)).

(** The Faker call that the [switch] selects for a primitive type. *)
Definition faker_primitive (ty : string) : G value :=
  let* d := faker_draw in ret (primitive_of ty d).

(** [fieldName && fkValuePools && fkValuePools.has(fieldName)], giving
    [fkValuePools.get(fieldName)] *)
Definition fk_pool (fieldName : option string)
    (fkValuePools : option (gmap string (list value))) : option (list value) :=
  match fieldName, fkValuePools with
  | Some f, Some pools => if String.eqb f EmptyString then None else pools !! f
  | _, _ => None
  end.

(** The loop over the keys of an object schema: a field whose value is
    [undefined] is left out. *)
Definition generateFields (generate : Schema.schema → option string → G value)
    : list (string * Schema.schema) → G (list (string * value)) :=
  fix fields l :=
    match l with
    | [] => ret []
    | (key, s) :: l' =>
        let* v := generate s (Some key) in
        let* rest := fields l' in
        ret (match v with VUndef => rest | _ => (key, v) :: rest end)
    end.

Fixpoint generateSingleValue (schema : Schema.schema)
    (fkValuePools : option (gmap string (list value)))
    (fieldName : option string) {struct schema} : G value :=
  let* skip := (if optional schema then random_below_quarter else ret false) in
  if skip : bool then ret VUndef
  else
    match schema with
    | SPrim ty _ =>
        if String.eqb ty "join" then ret VNull
        else if String.eqb ty "object" then
          let* a := fresh_addr in ret (VObj a [])
        else if String.eqb ty "array" then
          let* _ := faker_number_int 3 5 in
          throw (TypeError "cannot read properties of undefined")
        else if String.eqb ty "uuid" then
          match fk_pool fieldName fkValuePools with
          | Some availableIds =>
              if (0 <? length availableIds)%nat then
                let* randomIndex :=
                  faker_number_int 0 (Z.of_nat (length availableIds) - 1) in
                ret (nth (Z.to_nat randomIndex) availableIds VUndef)
              else faker_string_uuid
          | None => faker_string_uuid
          end
        else faker_primitive ty
    | SObject _ shape =>
        let* a := fresh_addr in
        let* result :=
          generateFields
            (fun s key => generateSingleValue s fkValuePools key) shape in
        ret (VObj a result)
    | SArray _ element =>
        let* arrayLength := faker_number_int 3 5 in
        let* a := fresh_addr in
        let* elems :=
          replicateM (Z.to_nat arrayLength)
                     (generateSingleValue element fkValuePools None) in
        ret (VArr a elems)
    end.

Definition generateWithFaker (schema : Schema.schema) (count : nat)
    (fkValuePools : option (gmap string (list value))) : W value :=
  let* config := getConfig in
  lift
    (let* _ := match fakerSeed config with
               | Some k => faker_seed k
               | None => ret tt
               end in
     if (1 <? count)%nat then
       let* a := fresh_addr in
       let* elems :=
         replicateM count
           (generateSingleValue
              (match schema with SArray _ element => element | _ => schema end)
              fkValuePools None) in
       ret (VArr a elems)
     else generateSingleValue schema fkValuePools None).

(** *** Seeding *)

(** [{ ...item }] for an arbitrary value. *)
Definition spread (item : value) : record :=
  match item with
  | VObj _ props => props_record props
  | VArr _ elems => props_record (imap (fun i v => (pretty i, v)) elems)
  | VStr s =>
      props_record
        (imap (fun i c => (pretty i, VStr (String c EmptyString))) (list_ascii_of_string s))
  | _ => ∅
  end.

(** [{ ...item, id: item.id || this.generateId(),
         createdAt: item.createdAt || now, updatedAt: now }] *)
Definition withDefaults (item : value) (now : string) : G record :=
  let base := spread item in
  let* id0 := call (get_prop item "id") in
  let* id := (if truthy id0 then ret id0 else newId) in
  let* createdAt0 := call (get_prop item "createdAt") in
  ret (set "updatedAt" (VStr now)
         (set "createdAt" (or_else createdAt0 (VStr now))
            (set "id" id base))).

Definition is_array (v : value) : bool :=
  match v with VArr _ _ => true | _ => false end.

Definition generateSeedDataWithAI (this : positive) : W (list record) :=
  let* st := self this in
  let* generatedData := call (generateWithAI st) in
  let dataArray :=
    match generatedData with
    | VArr _ elems => elems
    | VObj _ props =>
        let obj := props_record props in
        match get obj (collectionName st) with
        | VArr _ elems => elems
        | _ =>
            match List.find (fun key => is_array (get obj key)) (fst <$> props) with
            | Some arrayKey =>
                match get obj arrayKey with
                | VArr _ elems => elems
                | _ => [generatedData]
                end
            | None => [generatedData]
            end
        end
    | _ => [generatedData]
    end in
  let* now := now in
  mapM (fun item => lift (withDefaults item now)) dataArray.

(** [config.generateMode || 'faker'] *)
Definition generate_mode (config : GlobalConfig) : string :=
  match generateMode config with
  | Some m => if String.eqb m EmptyString then "faker" else m
  | None => "faker"
  end.

(** The last statement of [generateSeedData]: Faker as the default or
    the fallback. *)
Definition fakerSeedData (this : positive)
    (availableRelationIds : option (gmap string (list value))) : W (list record) :=
  let* st := self this in
  replicateM (seedCount st)
    (let* item := generateWithFaker (schema st) 1 availableRelationIds in
     let* now := now in
     lift (withDefaults item now)).

Definition generateSeedData (this : positive)
    (availableRelationIds : option (gmap string (list value))) : W (list record) :=
  let* config := getConfig in
  let generateMode := generate_mode config in
  let shouldUseAI := String.eqb generateMode "ai" || String.eqb generateMode "auto" in
  let* fromAI :=
    (if shouldUseAI then
       try_catch
         (let* aiData := generateSeedDataWithAI this in
          ret (if (0 <? length aiData)%nat then Some aiData else None))
         (fun error =>
            if String.eqb generateMode "ai" then throw error else ret None)
     else ret None) in
  match fromAI with
  | Some aiData => ret aiData
  | None => fakerSeedData this availableRelationIds
  end.

(** [items.forEach(item => this.data.set(item.id, item))] *)
Definition store_items (this : positive) (items : list record) : W unit :=
  modify (update_store this (fun st =>
    with_data (foldl (fun d item => map_set (get item "id") item d) (data st) items) st)).

Definition initializeWithFKIntegrity (this : positive)
    (fkValuePools : gmap string (list value)) : W unit :=
  let* st := self this in
  if initialized st then ret tt
  else
    let* seedData := generateSeedData this (Some fkValuePools) in
    let* _ := store_items this seedData in
    let* _ := persist this in
    set_initialized this true.

(** The FK value pools of a collection: for each [belongsTo] relation
    whose target already has ids, the foreign-key field is mapped to
    those ids. *)
Definition buildPools (relations : option (list (string * RelationConfig)))
    (availableIds : gmap string (list value)) : gmap string (list value) :=
  match relations with
  | None => ∅
  | Some rels =>
      foldl (fun fkValuePools entry =>
               let relationConfig := entry.2 in
               if String.eqb (relType relationConfig) "belongsTo" then
                 match availableIds !! collection relationConfig with
                 | Some relatedIds =>
                     if (0 <? length relatedIds)%nat
                     then <[foreignKey relationConfig := relatedIds]> fkValuePools
                     else fkValuePools
                 | None => fkValuePools
                 end
               else fkValuePools)
            ∅ rels
  end.

(** One iteration of the loop of [initializeAllCollections]; the
    result is the updated [availableIds]. *)
Definition seedCollection (registry : gmap string Metadata)
    (availableIds : gmap string (list value)) (collectionName : string)
    : W (gmap string (list value)) :=
  match registry !! collectionName with
  | None => ret availableIds
  | Some metadata =>
      match store metadata with
      | None => ret availableIds
      | Some s =>
          let* st := self s in
          if initialized st then ret availableIds
          else
            let* persistedData := loadFromPersistence s in
            match persistedData with
            | Some ((_ :: _) as items) =>
                let* _ := store_items s items in
                let* _ := set_initialized s true in
                let* st' := self s in
                ret (<[collectionName := map_keys (data st')]> availableIds)
            | _ =>
                let fkValuePools := buildPools (relations metadata) availableIds in
                let* _ := initializeWithFKIntegrity s fkValuePools in
                let* st' := self s in
                ret (<[collectionName := map_keys (data st')]> availableIds)
            end
      end
  end.

Fixpoint seedLoop (registry : gmap string Metadata) (seedOrder : list string)
    (availableIds : gmap string (list value)) : W unit :=
  match seedOrder with
  | [] => ret tt
  | collectionName :: rest =>
      let* availableIds' := seedCollection registry availableIds collectionName in
      seedLoop registry rest availableIds'
  end.

Definition initializeAllCollections : W unit :=
  let* busy := gets isInitializingAll in
  if busy : bool then ret tt
  else
    let* _ := modify (with_flag true) in
    try_finally
      (let* registry := gets registry in
       let seedOrder := getCollectionSeedOrder registry in
       seedLoop registry seedOrder ∅)
      (with_flag false).

Definition initialize (this : positive) : W unit :=
  let* st := self this in
  if initialized st then ret tt
  else
    let* _ := initializeAllCollections in
    let* st' := self this in
    if negb (initialized st') then initializeWithFKIntegrity this ∅
    else ret tt.

(** *** The pass among other callers

    [initializeAllCollections] is asynchronous: at each of its
    [await]s it is suspended, and whatever else is ready runs before
    it resumes.  Above, every awaited call is run to its end and
    nothing comes in between.  Below is the same pass with the
    [await]s of its own body kept: [others] is what the rest of the
    program does to the state while the pass is suspended. *)

(** [await m] *)
Definition await {A} (others : World → World) (m : W A) : W A :=
  fun w => let '(r, w') := m w in (r, others w').

Definition seedCollectionAmid (others : World → World)
    (registry : gmap string Metadata)
    (availableIds : gmap string (list value)) (collectionName : string)
    : W (gmap string (list value)) :=
  match registry !! collectionName with
  | None => ret availableIds
  | Some metadata =>
      match store metadata with
      | None => ret availableIds
      | Some s =>
          let* st := self s in
          if initialized st then ret availableIds
          else
            let* persistedData := await others (loadFromPersistence s) in
            match persistedData with
            | Some ((_ :: _) as items) =>
                let* _ := store_items s items in
                let* _ := set_initialized s true in
                let* st' := self s in
                ret (<[collectionName := map_keys (data st')]> availableIds)
            | _ =>
                let fkValuePools := buildPools (relations metadata) availableIds in
                let* _ := await others (initializeWithFKIntegrity s fkValuePools) in
                let* st' := self s in
                ret (<[collectionName := map_keys (data st')]> availableIds)
            end
      end
  end.

Fixpoint seedLoopAmid (others : World → World) (registry : gmap string Metadata)
    (seedOrder : list string) (availableIds : gmap string (list value)) : W unit :=
  match seedOrder with
  | [] => ret tt
  | collectionName :: rest =>
      let* availableIds' :=
        seedCollectionAmid others registry availableIds collectionName in
      seedLoopAmid others registry rest availableIds'
  end.

(** The two leading [await]s are those of the dynamic [import]s. *)
Definition initializeAllCollectionsAmid (others : World → World) : W unit :=
  let* busy := gets isInitializingAll in
  if busy : bool then ret tt
  else
    let* _ := modify (with_flag true) in
    try_finally
      (let* _ := await others (ret tt) in
       let* _ := await others (ret tt) in
       let* registry := gets registry in
       let seedOrder := getCollectionSeedOrder registry in
       seedLoopAmid others registry seedOrder ∅)
      (with_flag false).

(** *** Filtering, sorting, pagination *)

Record QueryOptions := {
  page : option Z;
  limit : option Z;
  sortBy : option string;
  sortOrder : option string;
  filter : option (list (string * value));
}.

Record Pagination := {
  pg_page : Z;
  pg_limit : Z;
  pg_total : Z;
  pg_totalPages : Z;
}.

(** What [query] returns: the default response, or the object that
    the collection-meta module builds for a response schema. *)
Inductive Built : Type :=
| BNull
| BNum (q : Qc)
| BItems (items : list record)
| BObject (fields : list (string * Built)).

Inductive Response : Type :=
| Paginated (items : list record) (pagination : Pagination)
| Shaped (b : Built).

(** Code of the repository that is not part of the sources at hand:
    [buildResponseFromSchema] of the collection-meta module, which
    [query] calls when it is given a response schema. *)
Class CollectionMeta := {
  metaBuildResponseFromSchema :
    Schema.schema → list record → list record → Pagination → outcome Built;
}.
Context `{CollectionMeta}.

Definition is_undefined (v : value) : bool :=
  match v with VUndef => true | _ => false end.

(** [operand.includes(itemValue)] *)
Definition includes_in (operand itemValue : value) : outcome bool :=
  match operand with
  | VArr _ elems => Ok (includes elems itemValue)
  | VStr s => Ok (string_includes s itemValue)
  | _ => Throw (TypeError "includes is not a function")
  end.

(** The predicate that [applyFilters] gives to [every], for one entry
    [[key, value]] of the filter. *)
Definition matchesEntry (item : record) (entry : string * value) : outcome bool :=
  let '(key, value) := entry in
  if is_undefined value then Ok true
  else
    let itemValue := get item key in
    if negb (typeof_object value) then Ok (strict_eq itemValue value)
    else
      match get_prop value "$eq" with
      | Throw e => Throw e
      | Ok op_eq =>
      if negb (is_undefined op_eq) then Ok (strict_eq itemValue op_eq) else
      match get_prop value "$ne" with
      | Throw e => Throw e
      | Ok op_ne =>
      if negb (is_undefined op_ne) then Ok (negb (strict_eq itemValue op_ne)) else
      match get_prop value "$gt" with
      | Throw e => Throw e
      | Ok op_gt =>
      if negb (is_undefined op_gt) then Ok (gt itemValue op_gt) else
      match get_prop value "$gte" with
      | Throw e => Throw e
      | Ok op_gte =>
      if negb (is_undefined op_gte) then Ok (ge itemValue op_gte) else
      match get_prop value "$lt" with
      | Throw e => Throw e
      | Ok op_lt =>
      if negb (is_undefined op_lt) then Ok (lt itemValue op_lt) else
      match get_prop value "$lte" with
      | Throw e => Throw e
      | Ok op_lte =>
      if negb (is_undefined op_lte) then Ok (le itemValue op_lte) else
      match get_prop value "$in" with
      | Throw e => Throw e
      | Ok op_in =>
      if negb (is_undefined op_in) then includes_in op_in itemValue else
      match get_prop value "$nin" with
      | Throw e => Throw e
      | Ok op_nin =>
      if negb (is_undefined op_nin) then
        match includes_in op_nin itemValue with
        | Ok b => Ok (negb b)
        | Throw e => Throw e
        end
      else Ok true
      end end end end end end end end.

(** [entries.every(p)]: stops at the first entry that fails. *)
Fixpoint every {A} (p : A → outcome bool) (l : list A) : outcome bool :=
  match l with
  | [] => Ok true
  | x :: l' =>
      match p x with
      | Ok true => every p l'
      | Ok false => Ok false
      | Throw e => Throw e
      end
  end.

(** [items.filter(p)] *)
Fixpoint filterItems {A} (p : A → outcome bool) (l : list A) : outcome (list A) :=
  match l with
  | [] => Ok []
  | x :: l' =>
      match p x with
      | Throw e => Throw e
      | Ok b =>
          match filterItems p l' with
          | Throw e => Throw e
          | Ok r => Ok (if b then x :: r else r)
          end
      end
  end.

Definition applyFilters (items : list record) (filter : list (string * value))
    : outcome (list record) :=
  filterItems (fun item => every (matchesEntry item) filter) items.

(** The comparator that [applySorting] gives to [sort]. *)
Definition compareBy (sortBy sortOrder : string) (a b : record) : Z :=
  let aValue := get a sortBy in
  let bValue := get b sortBy in
  if strict_eq aValue bValue then 0%Z
  else
    let comparison := if gt aValue bValue then 1%Z else (-1)%Z in
    if String.eqb sortOrder "asc" then comparison else (- comparison)%Z.

Definition applySorting (items : list record) (sortBy sortOrder : string)
    : list record :=
  JS.sort (compareBy sortBy sortOrder) items.

(** [n || d] for a number that may be absent *)
Definition number_or (n : option Z) (d : Z) : Z :=
  match n with
  | Some k => if (k =? 0)%Z then d else k
  | None => d
  end.

(** [s || d] for a string that may be absent *)
Definition string_or (s : option string) (d : string) : string :=
  match s with
  | Some x => if String.eqb x EmptyString then d else x
  | None => d
  end.

(** [Math.ceil(a / b)] for integers, [b] not zero *)
Definition ceil_div (a b : Z) : Z := (- ((- a) / b))%Z.

Definition query (this : positive) (options : QueryOptions)
    (responseSchema : option Schema.schema) : W Response :=
  let* _ := initialize this in
  let* st := self this in
  let items := map_values (data st) in
  let* items :=
    match filter options with
    | Some f => call (applyFilters items f)
    | None => ret items
    end in
  let items :=
    match sortBy options with
    | Some s =>
        if String.eqb s EmptyString then items
        else applySorting items s (string_or (sortOrder options) "asc")
    | None => items
    end in
  let page := number_or (page options) 1 in
  let limit := number_or (limit options) 20 in
  let total := Z.of_nat (length items) in
  let totalPages := ceil_div total limit in
  let startIndex := ((page - 1) * limit)%Z in
  let endIndex := (startIndex + limit)%Z in
  let paginatedItems := slice items startIndex endIndex in
  let pagination :=
    {| pg_page := page; pg_limit := limit;
       pg_total := total; pg_totalPages := totalPages |} in
  match responseSchema with
  | Some rs =>
      let* b := call (metaBuildResponseFromSchema rs paginatedItems items pagination) in
      ret (Shaped b)
  | None => ret (Paginated paginatedItems pagination)
  end.

(** *** CRUD *)

Definition findById (this : positive) (id : value) : W (option record) :=
  let* _ := initialize this in
  let* st := self this in
  ret (map_get (data st) id).

Definition insert (this : positive) (item : record) : W record :=
  let* _ := initialize this in
  let* now := now in
  let* id := (if truthy (get item "id") then ret (get item "id") else generateId) in
  let newItem :=
    set "updatedAt" (VStr now)
      (set "createdAt" (or_else (get item "createdAt") (VStr now))
         (set "id" id item)) in
  let* st := self this in
  let* _ := set_data this (map_set (get newItem "id") newItem (data st)) in
  let* _ := persistCreate this newItem in
  ret newItem.

Definition update (this : positive) (id : value) (updates : record)
    : W (option record) :=
  let* _ := initialize this in
  let* st := self this in
  match map_get (data st) id with
  | None => ret None
  | Some existing =>
      let* now := now in
      let updated :=
        set "updatedAt" (VStr now)
          (set "createdAt" (get existing "createdAt")
             (set "id" id (spread2 existing updates))) in
      let* _ := set_data this (map_set id updated (data st)) in
      let* _ := persistUpdate this id updates in
      ret (Some updated)
  end.

Definition replace (this : positive) (id : value) (item : record)
    : W (option record) :=
  let* _ := initialize this in
  let* st := self this in
  match map_get (data st) id with
  | None => ret None
  | Some existing =>
      let* now := now in
      let replaced :=
        set "updatedAt" (VStr now)
          (set "createdAt" (get existing "createdAt")
             (set "id" id item)) in
      let* _ := set_data this (map_set id replaced (data st)) in
      let* _ := persistUpdate this id replaced in
      ret (Some replaced)
  end.

Definition delete (this : positive) (id : value) : W bool :=
  let* _ := initialize this in
  let* st := self this in
  let existed := map_has (data st) id in
  let* _ := set_data this (map_delete id (data st)) in
  let* _ := (if existed then persistDelete this id else ret tt) in
  ret existed.

Definition exists_ (this : positive) (id : value) : W bool :=
  let* _ := initialize this in
  let* st := self this in
  ret (map_has (data st) id).

Definition count (this : positive) (filter : option (list (string * value)))
    : W Z :=
  let* _ := initialize this in
  let* st := self this in
  match filter with
  | None => ret (Z.of_nat (length (data st)))
  | Some f =>
      let* filtered := call (applyFilters (map_values (data st)) f) in
      ret (Z.of_nat (length filtered))
  end.

Definition clear (this : positive) : W unit :=
  let* _ := set_data this [] in
  persist this.

Definition toArray (this : positive) : W (list record) :=
  let* _ := initialize this in
  let* st := self this in
  ret (map_values (data st)).

End Methods.

End DataStore.

(** ** The collection facade: [list] and the response shaper *)

Module Collection.
Import JS Eff Schema DataStore.

(** An entry of an operation's [errors] option. *)
Record ErrorConfig := {
  failNow : bool;
  failIf : option (option QueryOptions → bool);
  description : string;
}.

(** The [list] entry of the normalized [operations] option, when it is
    an object. *)
Record OperationConfig := {
  errors : option (list ErrorConfig);
  opResponseSchema : option Schema.schema;
}.

(** The normalized configuration of a collection. *)
Record CollectionConfig := {
  name : string;
  responseSchema : option Schema.schema;
  listOperation : option OperationConfig;
  collectionRelations : option (list (string * RelationConfig));
}.

(** The collaborators of the facade: the real back end, the edge
    function, and [resolveJoins] of the relations module (code of the
    repository that is not part of the sources at hand). *)
Class Backend := {
  callBackendList : CollectionConfig → option QueryOptions → outcome Response;
  callStatefulList :
    CollectionConfig → option QueryOptions → outcome (list record * Pagination);
  resolveJoins :
    list record → Schema.schema → list (string * RelationConfig) → string →
    W (list record);
}.

Section Facade.
Context `{Builtins} `{Faker} `{Persistence} `{AIProvider} `{Relations}
        `{CollectionMeta} `{Backend}.

Definition throwGeneratedError {A} (errorConfig : ErrorConfig) : W A :=
  throw (Error (description errorConfig)).

Fixpoint checkErrors (errors : list ErrorConfig) (input : option QueryOptions)
    : W unit :=
  match errors with
  | [] => ret tt
  | errorConfig :: rest =>
      let* _ := (if failNow errorConfig then throwGeneratedError errorConfig
                 else ret tt) in
      let* _ := match failIf errorConfig with
                | Some cond =>
                    if cond input then throwGeneratedError errorConfig else ret tt
                | None => ret tt
                end in
      checkErrors rest input
  end.

Definition checkAndThrowError (errors : option (list ErrorConfig))
    (input : option QueryOptions) : W unit :=
  match errors with
  | None => ret tt
  | Some l => checkErrors l input
  end.

Definition truthy_string (s : option string) : bool :=
  match s with
  | Some x => negb (String.eqb x EmptyString)
  | None => false
  end.

Definition getDefaultPersistenceMode (config : GlobalConfig) : string :=
  if truthy_string (openaiApiKey config)
     && negb (truthy_string (symulateApiKey config))
     && negb (truthy_string (demoApiKey config))
  then "local" else "cloud".

Definition isDevelopment : W bool :=
  let* config := getConfig in
  ret (String.eqb (environment config) "development").

(** [Object.keys(shape)] *)
Definition shape_keys (shape : list (string * Schema.schema)) : list string :=
  fst <$> shape.

(** [projectItem]: [if (field in item) projected[field] = item[field]]
    for each field.  The assignment defines an own property, except
    under the name [__proto__]: there it goes to the setter that
    [projected] inherits from [Object.prototype] and defines none. *)
Definition projectItem (fields : list string) (item : record) : record :=
  foldl (fun projected field =>
           if has_property item field then
             if String.eqb field "__proto__" then projected
             else <[field := read_property item field]> projected
           else projected) ∅ fields.

(** [projectResponse] on an array of items *)
Definition projectResponse (items : list record) (responseSchema : Schema.schema)
    : list record :=
  match responseSchema with
  | SObject _ shape =>
      match shape_keys shape with
      | [] => items
      | fields => projectItem fields <$> items
      end
  | _ => items
  end.

(** [s.split(':')] *)
Fixpoint split_colon (s : string) : list string :=
  match s with
  | EmptyString => [EmptyString]
  | String a s' =>
      if Ascii.eqb a ":"%char then EmptyString :: split_colon s'
      else
        match split_colon s' with
        | h :: t => String a h :: t
        | [] => [String a EmptyString]
        end
  end.

(** [parts[i]] as a property key: a missing part reads as the key
    ["undefined"]. *)
Definition part (parts : list string) (i : nat) : string :=
  nth i parts "undefined".

Definition of_Z (z : Z) : Qc := Q2Qc (inject_Z z).

(** [pagination?.field || d] *)
Definition meta_or (pagination : option Pagination) (field : Pagination → Z)
    (d : Z) : Z :=
  match pagination with
  | Some p => if (field p =? 0)%Z then d else field p
  | None => d
  end.

Definition sum_field (fieldName : string) (data : list record) : Qc :=
  foldl (fun acc item => (acc + number_or_zero (get item fieldName))%Qc) 0%Qc data.

(** [data.map(item => Number(item[fieldName])).filter(v => !isNaN(v))] *)
Definition numeric_values (fieldName : string) (data : list record) : list Qc :=
  omap (fun item => to_number (get item fieldName)) data.

Definition calculateMetaField (schemaType : string) (data : list record)
    (pagination : option Pagination) : outcome Built :=
  let len := Z.of_nat (length data) in
  if String.eqb schemaType "collectionsMeta.total" then
    Ok (BNum (of_Z (meta_or pagination pg_total len)))
  else if String.eqb schemaType "collectionsMeta.page" then
    Ok (BNum (of_Z (meta_or pagination pg_page 1)))
  else if String.eqb schemaType "collectionsMeta.limit" then
    Ok (BNum (of_Z (meta_or pagination pg_limit len)))
  else if String.eqb schemaType "collectionsMeta.totalPages" then
    Ok (BNum (of_Z (meta_or pagination pg_totalPages 1)))
  else if String.prefix "collectionsMeta.avg:" schemaType then
    let fieldName := part (split_colon schemaType) 1 in
    let sum := sum_field fieldName data in
    Ok (BNum (if (0 <? length data)%nat then (sum / of_Z len)%Qc else 0%Qc))
  else if String.prefix "collectionsMeta.sum:" schemaType then
    let fieldName := part (split_colon schemaType) 1 in
    Ok (BNum (sum_field fieldName data))
  else if String.prefix "collectionsMeta.min:" schemaType then
    let fieldName := part (split_colon schemaType) 1 in
    match numeric_values fieldName data with
    | [] => Ok (BNum 0%Qc)
    | v :: values => Ok (BNum (list_min v values))
    end
  else if String.prefix "collectionsMeta.max:" schemaType then
    let fieldName := part (split_colon schemaType) 1 in
    match numeric_values fieldName data with
    | [] => Ok (BNum 0%Qc)
    | v :: values => Ok (BNum (list_max v values))
    end
  else if String.prefix "collectionsMeta.count:" schemaType then
    let parts := split_colon schemaType in
    let fieldName := part parts 1 in
    match (if truthy_string (parts !! 2%nat)
           then json_parse (part parts 2) else Some VNull) with
    | None => Throw (Error "JSON.parse: unexpected token")
    | Some targetValue =>
        let matching :=
          List.filter (fun item => strict_eq (get item fieldName) targetValue) data in
        Ok (BNum (of_Z (Z.of_nat (length matching))))
    end
  else Ok BNull.

(** [buildField]; the object case is [buildNestedObject]. *)
Fixpoint buildField (fieldSchema : Schema.schema) (sourceData : list record)
    (pagination : option Pagination) (collectionConfig : CollectionConfig)
    {struct fieldSchema} : W Built :=
  match fieldSchema with
  | SArray _ elementSchema =>
      let* processedData :=
        match collectionRelations collectionConfig with
        | Some rels =>
            resolveJoins sourceData elementSchema rels (name collectionConfig)
        | None => ret sourceData
        end in
      ret (BItems (projectResponse processedData elementSchema))
  | SObject _ shape =>
      let* obj :=
        (fix fields (l : list (string * Schema.schema)) : W (list (string * Built)) :=
           match l with
           | [] => ret []
           | (key, s) :: l' =>
               let* v := buildField s sourceData pagination collectionConfig in
               let* rest := fields l' in
               ret ((key, v) :: rest)
           end) shape in
      ret (BObject obj)
  | SPrim ty _ =>
      if String.prefix "collectionsMeta." ty
      then call (calculateMetaField ty sourceData pagination)
      else ret BNull
  end.

(** [buildResponseFromSchema] for the result of [query]: its source
    data is [result.data], its pagination [result.pagination]. *)
Definition buildResponseFromSchema (result : list record * Pagination)
    (schema : Schema.schema) (collectionConfig : CollectionConfig) : W Response :=
  match schema with
  | SObject _ _ =>
      let sourceData := result.1 in
      let pagination := Some result.2 in
      let* response := buildField schema sourceData pagination collectionConfig in
      ret (Shaped response)
  | _ => ret (Paginated result.1 result.2)
  end.

Definition emptyOptions : QueryOptions :=
  {| page := None; limit := None; sortBy := None; sortOrder := None;
     filter := None |}.

(** [operationConfig?.responseSchema || normalizedConfig.responseSchema] *)
Definition listResponseSchema (config : CollectionConfig) : option Schema.schema :=
  match listOperation config with
  | Some op =>
      match opResponseSchema op with
      | Some s => Some s
      | None => responseSchema config
      end
  | None => responseSchema config
  end.

Definition isResponseEnvelope (shape : list (string * Schema.schema)) : bool :=
  existsb (fun s => String.prefix "collectionsMeta." (schemaType s)
                    || String.eqb (schemaType s) "array")
          (snd <$> shape).

(** [collection.list(options)] *)
Definition list_ (normalizedConfig : CollectionConfig) (store : positive)
    (options : option QueryOptions) : W Response :=
  let* dev := isDevelopment in
  if negb dev then call (callBackendList normalizedConfig options)
  else
    let operationConfig := listOperation normalizedConfig in
    let* _ := checkAndThrowError (operationConfig ≫= errors) options in
    let responseSchema := listResponseSchema normalizedConfig in
    let* globalConfig := getConfig in
    let persistenceMode :=
      string_or (persistenceMode globalConfig)
                (getDefaultPersistenceMode globalConfig) in
    let* result :=
      (if String.eqb persistenceMode "memory" || String.eqb persistenceMode "local"
       then
         let* r := query store (default emptyOptions options) None in
         match r with
         | Paginated items pagination => ret (items, pagination)
         | Shaped _ => throw (TypeError "unreachable: query was given no schema")
         end
       else call (callStatefulList normalizedConfig options)) in
    match responseSchema with
    | Some (SObject _ shape as schema) =>
        if isResponseEnvelope shape then
          buildResponseFromSchema result schema normalizedConfig
        else
          let* items :=
            match collectionRelations normalizedConfig with
            | Some rels => resolveJoins result.1 schema rels (name normalizedConfig)
            | None => ret result.1
            end in
          ret (Paginated (projectResponse items schema) result.2)
    | _ => ret (Paginated result.1 result.2)
    end.

End Facade.

End Collection.

(** ** A concrete host, for evaluating the code on examples *)

Module Demo.
Import JS Eff Schema DataStore Collection.

(** [n] strokes: a numeral that is easy to compute with. *)
Fixpoint tally (n : nat) : string :=
  match n with
  | O => EmptyString
  | S n' => String "i" (tally n')
  end.

Fixpoint digits (s : string) (acc : N) : option N :=
  match s with
  | EmptyString => Some acc
  | String c s' =>
      let n := N_of_ascii c in
      if ((48 <=? n) && (n <=? 57))%N then digits s' (10 * acc + (n - 48))%N
      else None
  end.

(** A host whose [StringToNumber] is only asked for plain decimal
    literals, and whose compound values are plain objects. *)
#[export] Instance builtins : Builtins := {|
  string_to_number s := (fun n => of_Z (Z.of_N n)) <$> digits s 0%N;
  compound_to_primitive _ := VStr "[object Object]";
  string_includes _ _ := false;
  json_parse _ := None;
|}.

#[export] Instance faker : Faker := {|
  seeded k := fun n => (Z.to_nat k + n)%nat;
  uuid_of n := "uuid-" +:+ tally n;
  primitive_of ty n :=
    if String.eqb ty "number" then VNum (of_Z (Z.of_nat n))
    else VStr ("word-" +:+ tally n);
|}.

(** A persistence layer whose every call fails. *)
#[export] Instance offline : Persistence := {|
  loadFromLocalStorage _ := Throw (Error "storage unavailable");
  loadFromFile _ := Throw (Error "storage unavailable");
  loadFromEdgeFunction _ _ _ := Throw (Error "network unreachable");
  saveToLocalStorage _ _ := Throw (Error "storage unavailable");
  saveToFile _ _ := Throw (Error "storage unavailable");
  createInEdgeFunction _ _ := Throw (Error "network unreachable");
  updateInEdgeFunction _ _ _ := Throw (Error "network unreachable");
  deleteFromEdgeFunction _ _ := Throw (Error "network unreachable");
|}.

(** An AI provider that is down. *)
#[export] Instance aiDown : AIProvider := {|
  generateWithAI _ := Throw (Error "AI generation failed");
|}.

(** Seeding parents first. *)
#[export] Instance usersThenOrders : Relations := {|
  getCollectionSeedOrder _ := ["users"; "orders"];
|}.

#[export] Instance noCollectionMeta : CollectionMeta := {|
  metaBuildResponseFromSchema _ _ _ _ := Throw (Error "not available");
|}.

#[export] Instance noBackend : Backend := {|
  callBackendList _ _ := Throw (Error "no back end");
  callStatefulList _ _ := Throw (Error "no edge function");
  resolveJoins items _ _ _ := ret items;
|}.

Definition num (z : Z) : value := VNum (of_Z z).

Definition obj (props : list (string * value)) : record := props_record props.

Definition devConfig (mode : string) : GlobalConfig := {|
  environment := "development";
  generateMode := Some mode;
  fakerSeed := None;
  persistenceMode := Some "memory";
  openaiApiKey := None;
  symulateApiKey := None;
  demoApiKey := None;
|}.

Definition entropy0 (time : string) : Entropy := {|
  clock := fun _ => time;
  ticks := 0;
  idSource := fun n => "id-" +:+ tally n;
  idsDrawn := 0;
  coins := fun _ => false;
  coinsDrawn := 0;
  fakerDraws := fun n => n;
  fakerPos := 0;
  nextAddr := 1%positive;
|}.

Definition emptyStore (name : string) (s : Schema.schema) (n : nat) : Store := {|
  collectionName := name;
  schema := s;
  seedCount := n;
  seedInstruction := None;
  data := [];
  initialized := false;
|}.

(** A store that is initialized and holds the given items under
    their ids. *)
Definition storeOf (name : string) (items : list record) : Store := {|
  collectionName := name;
  schema := SObject false [];
  seedCount := 0;
  seedInstruction := None;
  data := (fun item => (get item "id", item)) <$> items;
  initialized := true;
|}.

Definition world (st : positive → Store) (reg : gmap string Metadata)
    (mode time : string) : World := {|
  stores := st;
  registry := reg;
  config := devConfig mode;
  isInitializingAll := false;
  browser := false;
  entropy := entropy0 time;
|}.

End Demo.

(** ** Vocabulary of the statements *)

Module Spec.
Import JS Eff Schema DataStore Collection.

(** Every item of a store's map sits under its own [id]. *)
Definition keyedById (m : JS.map record) : bool :=
  forallb (fun kr => strict_eq (get kr.2 "id") kr.1) m.

(** What the next [new Date().toISOString()] returns. *)
Definition reading (w : World) : string :=
  clock (entropy w) (ticks (entropy w)).

(** What the next [generateId()] returns. *)
Definition nextId (w : World) : value :=
  VStr (idSource (entropy w) (idsDrawn (entropy w))).

(** The item that [insert] builds from its argument. *)
Definition inserted (w : World) (item : record) : record :=
  set "updatedAt" (VStr (reading w))
    (set "createdAt" (or_else (get item "createdAt") (VStr (reading w)))
       (set "id" (or_else (get item "id") (nextId w)) item)).

(** The three steps of a query, one by one. *)
Section Steps.
Context `{Builtins}.

Definition filterStep (options : QueryOptions) (items : list record)
    : outcome (list record) :=
  match filter options with
  | Some f => applyFilters items f
  | None => Ok items
  end.

Definition sortStep (options : QueryOptions) (items : list record) : list record :=
  match sortBy options with
  | Some s =>
      if String.eqb s EmptyString then items
      else applySorting items s (string_or (sortOrder options) "asc")
  | None => items
  end.

(** A page as the specification describes it: skip [(page - 1) * limit]
    items, keep at most [limit]. *)
Definition pageOf (page limit : Z) (items : list record) : list record :=
  take (Z.to_nat limit) (drop (Z.to_nat ((page - 1) * limit)) items).




End Steps.

(** A computation all of whose results satisfy [Q]. *)
Definition returns {S A} (m : M S A) (Q : A → Prop) : Prop :=
  ∀ s a s', m s = (Ok a, s') → Q a.

(** Two worlds that differ in the entropy at most. *)
Definition entropic (w w' : World) : Prop := ∃ e, w' = with_entropy e w.

(** A computation that changes the entropy at most. *)
Definition Entropic {A} (m : W A) : Prop := ∀ w, entropic w (m w).2.

(** Two worlds with the same registry, configuration and host, and
    whose stores have the same constructor arguments. *)
Definition sameSetting (w w' : World) : Prop :=
  registry w' = registry w ∧ config w' = config w ∧ browser w' = browser w
  ∧ ∀ p, collectionName (stores w' p) = collectionName (stores w p)
         ∧ schema (stores w' p) = schema (stores w p)
         ∧ seedCount (stores w' p) = seedCount (stores w p)
         ∧ seedInstruction (stores w' p) = seedInstruction (stores w p).

(** A world that differs from another in one store at most. *)
Definition changesOnly (this : positive) (w w' : World) : Prop :=
  sameSetting w w' ∧ isInitializingAll w' = isInitializingAll w
  ∧ ∀ p, p ≠ this → stores w' p = stores w p.









(** The persistence layer has nothing for a store. *)
Definition loadsNothing (loaded : outcome (option (list record))) : bool :=
  match loaded with
  | Ok None | Ok (Some []) => true
  | _ => false
  end.

(** The map after [items.forEach(item => data.set(item.id, item))]. *)
Definition withItems (items : list record) (d : JS.map record) : JS.map record :=
  foldl (fun d item => map_set (get item "id") item d) d items.

End Spec.

(** ** Sample data *)

Module Samples.
Import JS Eff Schema DataStore Collection Demo.

Definition t0 : string := "2024-01-01T00:00:00.000Z".
Definition t1 : string := "2024-06-01T12:00:00.000Z".

Definition product (id name : string) (price : Z) : record :=
  obj [("id", VStr id); ("name", VStr name); ("price", num price);
       ("createdAt", VStr t0); ("updatedAt", VStr t0)].

(** Three products, priced 10, 20 and 30. *)
Definition products : list record :=
  [product "p1" "lamp" 10; product "p2" "desk" 20; product "p3" "sofa" 30].

(** A world whose stores all hold the three products, with a clock
    that reads [time]. *)
Definition shop (time : string) : World :=
  world (fun _ => storeOf "products" products) ∅ "faker" time.

(** A caller that reads no flag: it marks the first store as
    initialized while the pass is suspended. *)
Definition heedless : World → World := update_store 1%positive (with_initialized true).

(** A payload that tries to take over [id] and [createdAt]. *)
Definition hijack : record :=
  obj [("id", VStr "zzz"); ("createdAt", VStr t1); ("price", num 99)].

(** An item that brings its own [updatedAt]. *)
Definition dated : record :=
  obj [("id", VStr "p9"); ("name", VStr "rug"); ("updatedAt", VStr t0)].

(** The operator object [{ $gt: z }]. *)
Definition above (z : Z) : value := VObj 1%positive [("$gt", num z)].



(** Page 3 of two items each, dearest first, of the products above 5. *)
Definition thirdPage : QueryOptions := {|
  page := Some 3%Z;
  limit := Some 2%Z;
  sortBy := Some "price";
  sortOrder := Some "desc";
  filter := Some [("price", above 5)];
|}.

(** Two related collections: orders belong to users through
    [userId]. *)
Definition userSchema : Schema.schema :=
  SObject false [("id", SPrim "uuid" false); ("name", SPrim "string" false)].

Definition orderSchema : Schema.schema :=
  SObject false [("id", SPrim "uuid" false); ("userId", SPrim "uuid" false);
                 ("total", SPrim "number" false)].

Definition ordersRelations : list (string * RelationConfig) :=
  [("user", {| relType := "belongsTo"; collection := "users";
               foreignKey := "userId" |})].

Definition usersAndOrders : gmap string Metadata :=
  <["orders" := {| relations := Some ordersRelations; store := Some 2%positive |}]>
    (<["users" := {| relations := Some []; store := Some 1%positive |}]> ∅).

(** A world in which store 1 is the users' and store 2 the orders',
    both still empty, with the given seed counts. *)
Definition marketplace (mode : string) (users orders : nat) : World :=
  world (fun p => if decide (p = 1%positive)
                  then emptyStore "users" userSchema users
                  else emptyStore "orders" orderSchema orders)
        usersAndOrders mode t1.

(** The same, when the users were seeded earlier: store 1 holds one
    user and is initialized. *)
Definition lateOrders (orders : nat) : World :=
  world (fun p => if decide (p = 1%positive)
                  then storeOf "users" [obj [("id", VStr "u1"); ("name", VStr "ann")]]
                  else emptyStore "orders" orderSchema orders)
        usersAndOrders "faker" t1.

(** A response envelope with the page's items and four aggregates of
    [price]. *)
Definition priceEnvelope : Schema.schema :=
  SObject false
    [("items", SArray false (SObject false [("id", SPrim "uuid" false);
                                            ("price", SPrim "number" false)]));
     ("avgPrice", SPrim "collectionsMeta.avg:price" false);
     ("sumPrice", SPrim "collectionsMeta.sum:price" false);
     ("minPrice", SPrim "collectionsMeta.min:price" false);
     ("maxPrice", SPrim "collectionsMeta.max:price" false)].

Definition productsConfig : CollectionConfig := {|
  name := "products";
  responseSchema := Some priceEnvelope;
  listOperation := None;
  collectionRelations := Some [];
|}.

Definition pageOfSize (p n : Z) : QueryOptions := {|
  page := Some p; limit := Some n; sortBy := None; sortOrder := None;
  filter := None;
|}.

(** The numbers of a built response, as fractions in lowest terms. *)
Definition numbers (r : outcome Response) : list (string * (Z * positive)) :=
  match r with
  | Ok (Shaped (BObject fields)) =>
      omap (fun kv => match kv.2 with
                      | BNum q => Some (kv.1, (Qnum q, Qden q))
                      | _ => None
                      end) fields
  | _ => []
  end.

End Samples.

(** ** The schema builder [m] *)

Module Builder.
Import JS Schema.

(** [m.object(shape)] and [m.array(element)] *)
Definition object (shape : list (string * schema)) : schema := SObject false shape.
Definition array (element : schema) : schema := SArray false element.

(** [m.optional(schema)] *)
Definition optional (s : schema) : schema :=
  match s with
  | SPrim ty _ => SPrim ty true
  | SObject _ shape => SObject true shape
  | SArray _ element => SArray true element
  end.

(** The aggregates of [m.collectionsMeta] *)
Definition avg (fieldName : string) : schema :=
  SPrim ("collectionsMeta.avg:" +:+ fieldName) false.
Definition sum (fieldName : string) : schema :=
  SPrim ("collectionsMeta.sum:" +:+ fieldName) false.
Definition min (fieldName : string) : schema :=
  SPrim ("collectionsMeta.min:" +:+ fieldName) false.
Definition max (fieldName : string) : schema :=
  SPrim ("collectionsMeta.max:" +:+ fieldName) false.

(** [shape[k]] and [shape[k] = s] on the own fields of a shape. *)
Definition field (shape : list (string * schema)) (k : string) : option schema :=
  snd <$> List.find (fun e => String.eqb e.1 k) shape.

Fixpoint assign (k : string) (s : schema) (shape : list (string * schema))
    : list (string * schema) :=
  match shape with
  | [] => [(k, s)]
  | (k', s') :: shape' =>
      if String.eqb k' k then (k', s) :: shape' else (k', s') :: assign k s shape'
  end.

(** [k in shape]: the shape is a plain object, and has the properties
    of [Object.prototype] besides its fields. *)
Definition has (shape : list (string * schema)) (k : string) : bool :=
  bool_decide (is_Some (field shape k)) || bool_decide (is_Some (inherited k))
  || String.eqb k "__proto__".

Definition quote : string := String (ascii_of_nat 34) EmptyString.

(** The loop of [m.pick] over the fields to pick, with
    [pickedShape[field] = schema._shape[field]] as its body.  Under
    the name [__proto__] the assignment goes to the setter that
    [pickedShape] inherits and adds no field.  Where the shape has
    [field] by inheritance only, the value assigned is a function of
    [Object.prototype]: from then on [pickedShape] is no shape of
    schemas, which is [None] here. *)
Fixpoint pickFields (shape : list (string * schema)) (fields : list string)
    (pickedShape : option (list (string * schema)))
    : outcome (option (list (string * schema))) :=
  match fields with
  | [] => Ok pickedShape
  | f :: fields' =>
      if negb (has shape f) then
        Throw (Error ("Field " +:+ quote +:+ f +:+ quote
                      +:+ " does not exist in the source schema"))
      else if String.eqb f "__proto__" then pickFields shape fields' pickedShape
      else
        match field shape f with
        | Some s => pickFields shape fields' (assign f s <$> pickedShape)
        | None => pickFields shape fields' None
        end
  end.

(** [m.pick(schema, fields)]; [Ok None] is an object schema whose
    shape holds a function of [Object.prototype]. *)
Definition pick (s : schema) (fields : list string) : outcome (option schema) :=
  if negb (String.eqb (schemaType s) "object") then
    Throw (Error "m.pick() can only be used with object schemas")
  else
    match s with
    | SObject _ shape =>
        match pickFields shape fields (Some []) with
        | Ok pickedShape => Ok (SObject false <$> pickedShape)
        | Throw e => Throw e
        end
    | _ =>
        match fields with
        | [] => Ok (Some (SObject false []))
        | _ :: _ => Throw (TypeError "cannot use 'in' on undefined")
        end
    end.

End Builder.

(** ** The operations of a collection *)

Module Operations.
Import JS DataStore.

(** An entry of the normalized [operations]: a boolean, or the
    configuration object of the operation. *)
Inductive Setting : Type :=
| Flag (b : bool)
| Settings (c : record).

Definition operationNames : list string :=
  ["list"; "get"; "create"; "update"; "replace"; "delete"].

(** [normalizeOperations(ops)], for [ops] an object or absent. *)
Definition normalizeOperations (ops : option record) : list (string * Setting) :=
  match ops with
  | None => (fun key => (key, Flag true)) <$> operationNames
  | Some ops =>
      (fun key =>
         (key,
          match get ops key with
          | VUndef => Flag true
          | VBool b => Flag b
          | value =>
              Settings (spread2 (props_record [("enabled", VBool true)])
                                (spread value))
          end)) <$> operationNames
  end.

(** [opsConfig[key]] *)
Definition operation (opsConfig : list (string * Setting)) (key : string)
    : option Setting :=
  snd <$> List.find (fun e => String.eqb e.1 key) opsConfig.

Definition isOperationEnabled (config : option Setting) : bool :=
  match config with
  | None => true
  | Some (Flag b) => b
  | Some (Settings c) => negb (strict_eq (get c "enabled") (VBool false))
  end.

(** [getOperationConfig]; [None] stands for [null] and [undefined]. *)
Definition getOperationConfig (operations : list (string * Setting))
    (name : string) : option record :=
  match operation operations name with
  | Some (Settings c) => Some c
  | _ => None
  end.

End Operations.

(** ** The quota bookkeeping of the configuration module *)

Module Quota.

Record QuotaState := {
  quotaExceeded : bool;
  lastChecked : Z;
  tokensRemaining : option Z;
  tokensLimit : option Z;
}.

Definition QUOTA_CHECK_INTERVAL : Z := 60000.

(** The functions take the reading of [Date.now()] and the map
    [quotaState] as arguments; what they print is left out. *)
Definition isQuotaExceeded (now : Z) (apiKey : string)
    (quotaState : gmap string QuotaState) : bool :=
  match quotaState !! apiKey with
  | None => false
  | Some state =>
      quotaExceeded state && (now - lastChecked state <? QUOTA_CHECK_INTERVAL)%Z
  end.

Definition markQuotaExceeded (now : Z) (apiKey : string) (tokensLimit : option Z)
    (quotaState : gmap string QuotaState) : gmap string QuotaState :=
  <[apiKey := {| quotaExceeded := true; lastChecked := now;
                 tokensRemaining := Some 0%Z; tokensLimit := tokensLimit |}]>
    quotaState.

Definition updateQuotaStatus (now : Z) (apiKey : string)
    (tokensRemaining tokensLimit : Z)
    (quotaState : gmap string QuotaState) : gmap string QuotaState :=
  <[apiKey := {| quotaExceeded := false; lastChecked := now;
                 tokensRemaining := Some tokensRemaining;
                 tokensLimit := Some tokensLimit |}]>
    quotaState.

Definition clearQuotaState (apiKey : option string)
    (quotaState : gmap string QuotaState) : gmap string QuotaState :=
  match apiKey with
  | Some k => if String.eqb k EmptyString then ∅ else base.delete k quotaState
  | None => ∅
  end.

End Quota.

(** ** Endpoints: the current file and the validation of parameters *)

Module Endpoint.
Import JS.

Definition backslash : ascii := ascii_of_nat 92.

Fixpoint forwardSlashes (s : string) : string :=
  match s with
  | EmptyString => EmptyString
  | String c s' =>
      String (if Ascii.eqb c backslash then "/"%char else c) (forwardSlashes s')
  end.

(** [normalizePath]: [filepath.replace(/\\/g, '/')] *)
Definition normalizePath (filepath : option string) : option string :=
  match filepath with
  | None => None
  | Some s => if String.eqb s EmptyString then Some s else Some (forwardSlashes s)
  end.

(** The global [currentFile] as the state. *)
Definition setCurrentFile (filename : option string) : option string :=
  normalizePath filename.

Definition getCurrentFile (currentFile : option string) : string :=
  match currentFile with
  | Some s => if String.eqb s EmptyString then "unknown" else s
  | None => "unknown"
  end.

Record ParameterConfig := {
  paramName : string;
  location : string;
  required : option bool;
}.

Definition isMissing (providedParams : record) (param : ParameterConfig) : bool :=
  negb (String.eqb (location param) "path")
  && negb (bool_decide (required param = Some false))
  && negb (has_property providedParams (paramName param)).

Definition describe (param : ParameterConfig) : string :=
  paramName param +:+ " (" +:+ location param +:+ ")".

(** [validateParameters(config, params)], given [config.params],
    [config.method] and [config.path]. *)
Definition validateParameters (params : option (list ParameterConfig))
    (method path : string) (provided : option record) : outcome unit :=
  match params with
  | None | Some [] => Ok tt
  | Some params =>
      let providedParams := default ∅ provided in
      let missingParams := describe <$> List.filter (isMissing providedParams) params in
      if (0 <? length missingParams)%nat then
        Throw (Error ("[Symulate] Missing required parameters for " +:+ method
                      +:+ " " +:+ path +:+ ": "
                      +:+ String.concat ", " missingParams))
      else Ok tt
  end.

(** What the endpoint function validates: a copy of the parameters
    without [metadata]. *)
Definition cleanParams (params : option record) : option record :=
  base.delete "metadata" <$> params.

End Endpoint.

(** ** Further vocabulary *)

Module Notions.
Import JS Eff Schema DataStore.

(** No two entries of a map have the same key, as in a [Map]. *)
Fixpoint distinctKeys {V} (m : JS.map V) : bool :=
  match m with
  | [] => true
  | (k, _) :: m' => negb (map_has m' k) && distinctKeys m'
  end.

(** The items of a paginated response. *)
Definition itemsOf (r : outcome Response) : list record :=
  match r with
  | Ok (Paginated items _) => items
  | _ => []
  end.

(** The same query, for page [p]. *)
Definition onPage (p : Z) (options : QueryOptions) : QueryOptions :=
  {| page := Some p; limit := limit options; sortBy := sortBy options;
     sortOrder := sortOrder options; filter := filter options |}.

(** The number that an item has under a key, for items that have one. *)
Definition numberAt (k : string) (r : record) : Qc :=
  match get r k with
  | VNum q => q
  | _ => 0%Qc
  end.

Definition hasNumberAt (k : string) (r : record) : bool :=
  match get r k with
  | VNum _ => true
  | _ => false
  end.

(** A string without a colon. *)
Fixpoint noColon (s : string) : bool :=
  match s with
  | EmptyString => true
  | String c s' => negb (Ascii.eqb c ":"%char) && noColon s'
  end.

(** The environment after one more [Math.random()] has been drawn. *)
Definition tossed (e : Entropy) : Entropy := (random_below_quarter e).2.

End Notions.

(** ** Further sample data *)

Module Cases.
Import JS Eff Schema DataStore Collection Demo Samples.

(** A configuration for Faker with the seed 7. *)
Definition seededConfig : GlobalConfig := {|
  environment := "development";
  generateMode := Some "faker";
  fakerSeed := Some 7%Z;
  persistenceMode := Some "memory";
  openaiApiKey := None;
  symulateApiKey := None;
  demoApiKey := None;
|}.

(** A world whose stores are all the users' store, still empty and
    to be seeded with five users, under the seeded configuration. *)
Definition seededUsers : World := {|
  stores := fun _ => emptyStore "users" userSchema 5;
  registry := ∅;
  config := seededConfig;
  isInitializingAll := false;
  browser := false;
  entropy := entropy0 t1;
|}.

(** The item schema [{ id, price }] and a collection that answers
    with it. *)
Definition priceOnly : Schema.schema :=
  SObject false [("id", SPrim "uuid" false); ("price", SPrim "number" false)].

Definition pricesConfig : CollectionConfig := {|
  name := "products";
  responseSchema := Some priceOnly;
  listOperation := None;
  collectionRelations := Some [];
|}.

(** Two items of each page, cheapest first. *)
Definition byPrice : QueryOptions := {|
  page := None; limit := Some 2%Z; sortBy := Some "price";
  sortOrder := Some "asc"; filter := None;
|}.

(** The payload [{ price: 12 }]. *)
Definition repriced : record := obj [("price", num 12)].

(** What an AI provider may answer for the users: two users, the
    first with an id of its own. *)
Definition aiUsers : list value :=
  [VObj 51%positive [("id", VStr "a1"); ("name", VStr "ann")];
   VObj 52%positive [("name", VStr "bob")]].

Definition twoUsersFromAI : AIProvider := {|
  generateWithAI _ := Ok (VArr 50%positive aiUsers);
|}.

(** [{ delete: false, list: { enabled: false } }] *)
Definition readOnly : record :=
  obj [("delete", VBool false);
       ("list", VObj 9%positive [("enabled", VBool false)])].

End Cases.

(** ** Properties *)

Import JS Eff Schema DataStore Collection Spec.

Ltac fin := repeat match goal with u : unit |- _ => destruct u end; reflexivity.

Ltac run :=
  cbv beta iota zeta delta
    [bind ret throw try_catch try_finally gets modify call self getConfig
     set_data set_initialized].

(** *** Strict equality and the built-in map *)

Lemma strict_eq_refl v : strict_eq v v = true.
Proof.
  destruct v; simpl; auto.
  - by destruct b.
  - by apply bool_decide_eq_true.
  - by apply String.eqb_refl.
  - by apply Pos.eqb_refl.
  - by apply Pos.eqb_refl.
  - by apply Pos.eqb_refl.
Qed.

Lemma strict_eq_sym v w : strict_eq v w = strict_eq w v.
Proof.
  destruct v, w; simpl; auto.
  - by destruct b, b0.
  - apply bool_decide_ext. split; congruence.
  - apply String.eqb_sym.
  - apply Pos.eqb_sym.
  - apply Pos.eqb_sym.
  - apply Pos.eqb_sym.
Qed.

Lemma strict_eq_trans u v w :
  strict_eq u v = true → strict_eq v w = true → strict_eq u w = true.
Proof.
  destruct u, v; simpl; try discriminate; destruct w; simpl; try discriminate; auto.
  - destruct b, b0, b1; simpl; congruence.
  - rewrite !bool_decide_eq_true. congruence.
  - rewrite !String.eqb_eq. congruence.
  - rewrite !Pos.eqb_eq. congruence.
  - rewrite !Pos.eqb_eq. congruence.
  - rewrite !Pos.eqb_eq. congruence.
Qed.

Lemma strict_eq_str s v : strict_eq v (VStr s) = true ↔ v = VStr s.
Proof.
  destruct v; simpl; split; try discriminate; try congruence.
  - intros ?%String.eqb_eq. congruence.
  - intros [= ->]. apply String.eqb_refl.
Qed.

Section MapFacts.
Context {V : Type}.
Implicit Types (m : JS.map V) (k : value) (v : V).

Lemma map_get_set_eq m k v : map_get (map_set k v m) k = Some v.
Proof.
  unfold map_get. induction m as [|[k' v'] m IH]; simpl.
  - by rewrite strict_eq_refl.
  - destruct (strict_eq k' k) eqn:E; simpl; rewrite E; auto.
Qed.

Lemma map_get_set_ne m k k' v :
  strict_eq k k' = false → map_get (map_set k v m) k' = map_get m k'.
Proof.
  intros Hne. unfold map_get. induction m as [|[k0 v0] m IH]; simpl.
  - by rewrite Hne.
  - destruct (strict_eq k0 k) eqn:E; simpl.
    + destruct (strict_eq k0 k') eqn:E'; auto.
      rewrite strict_eq_sym in E.
      by rewrite (strict_eq_trans _ _ _ E E') in Hne.
    + destruct (strict_eq k0 k'); auto.
Qed.

Lemma map_get_elem m k v :
  map_get m k = Some v → ∃ k', (k', v) ∈ m ∧ strict_eq k' k = true.
Proof.
  unfold map_get. destruct (List.find _ m) as [[k' v']|] eqn:E; [|done].
  intros [= <-]. apply find_some in E as [Hin Hk].
  exists k'. split; [by apply list_elem_of_In|done].
Qed.

Lemma map_set_elem m k v k' v' :
  (k', v') ∈ map_set k v m →
  (v' = v ∧ strict_eq k' k = true) ∨ (k', v') ∈ m.
Proof.
  induction m as [|[k0 v0] m IH]; simpl.
  - intros [= -> ->]%list_elem_of_singleton. left. by rewrite strict_eq_refl.
  - destruct (strict_eq k0 k) eqn:E; rewrite !elem_of_cons.
    + intros [[= -> ->]|?]; [by left|by right; right].
    + intros [[= -> ->]|[?|?]%IH]; [by right; left|by left|by right; right].
Qed.

End MapFacts.

Lemma get_set_eq k v r : get (JS.set k v r) k = v.
Proof. unfold get, JS.set. by rewrite lookup_insert_eq. Qed.

Lemma get_set_ne k k' v r : k ≠ k' → get (JS.set k v r) k' = get r k'.
Proof. intros. unfold get, JS.set. by rewrite lookup_insert_ne. Qed.

Lemma get_spread2_empty r k : get (spread2 r ∅) k = get r k.
Proof. unfold get, spread2. by rewrite (left_id_L ∅ (∪)). Qed.

Lemma keyedById_elem m k r :
  keyedById m = true → (k, r) ∈ m → strict_eq (get r "id") k = true.
Proof.
  unfold keyedById. rewrite forallb_forall. intros Hk Hin.
  by apply (Hk (k, r)), list_elem_of_In.
Qed.

Lemma keyedById_lookup m (id : string) r :
  keyedById m = true → map_get m (VStr id) = Some r → get r "id" = VStr id.
Proof.
  intros Hk (k & Hin & Hkid)%map_get_elem.
  apply strict_eq_str in Hkid as ->. apply strict_eq_str.
  by eapply keyedById_elem.
Qed.

(** Storing an item under its own [id] keeps the map keyed by id. *)
Lemma keyedById_set m k r :
  keyedById m = true → strict_eq (get r "id") k = true →
  keyedById (map_set k r m) = true.
Proof.
  intros Hm Hr. unfold keyedById. apply forallb_forall.
  intros [k' r'] Hin%list_elem_of_In. simpl.
  apply map_set_elem in Hin as [[-> Hk]|Hin].
  - rewrite strict_eq_sym in Hk. by eapply strict_eq_trans.
  - by eapply keyedById_elem.
Qed.

Lemma keyedById_delete m k : keyedById m = true → keyedById (map_delete k m) = true.
Proof.
  unfold keyedById, map_delete. rewrite !forallb_forall.
  intros Hm kr [Hin _]%filter_In. by apply Hm.
Qed.

(** Seeding, which stores every item under its [id], keeps the map
    keyed by id as well. *)
Lemma keyedById_withItems items m :
  keyedById m = true → keyedById (withItems items m) = true.
Proof.
  unfold withItems. revert m. induction items as [|item items IH]; intros m Hm.
  - done.
  - simpl. apply IH, keyedById_set; [done|apply strict_eq_refl].
Qed.

(** *** Monadic steps *)

Lemma bind_ok {S A B} (m : M S A) (k : A → M S B) s a s' :
  m s = (Ok a, s') → bind m k s = k a s'.
Proof. unfold bind. by intros ->. Qed.

Lemma bind_throw {S A B} (m : M S A) (k : A → M S B) s e s' :
  m s = (Throw e, s') → bind m k s = (Throw e, s').
Proof. unfold bind. by intros ->. Qed.

(** *** Persistence never fails the caller *)

Section PersistenceFacts.
Context `{Builtins} `{Faker} `{Persistence} `{AIProvider} `{Relations}.

Lemma persist_absorbs this w : persist this w = (Ok tt, w).
Proof.
  unfold persist. run.
  destruct (no_persistence _); [reflexivity|].
  destruct (mode_is _ "local"); [|reflexivity].
  destruct (browser w).
  - destruct (saveToLocalStorage _ _); fin.
  - destruct (saveToFile _ _); fin.
Qed.

Lemma persistCreate_absorbs this item w : persistCreate this item w = (Ok tt, w).
Proof.
  unfold persistCreate. run.
  destruct (no_persistence _); [reflexivity|].
  destruct (mode_is _ "cloud").
  - destruct (createInEdgeFunction _ _); fin.
  - destruct (mode_is _ "local"); [|reflexivity]. rewrite persist_absorbs; reflexivity.
Qed.

Lemma persistUpdate_absorbs this id updates w :
  persistUpdate this id updates w = (Ok tt, w).
Proof.
  unfold persistUpdate. run.
  destruct (no_persistence _); [reflexivity|].
  destruct (mode_is _ "cloud").
  - destruct (updateInEdgeFunction _ _ _); fin.
  - destruct (mode_is _ "local"); [|reflexivity]. rewrite persist_absorbs; reflexivity.
Qed.

Lemma persistDelete_absorbs this id w : persistDelete this id w = (Ok tt, w).
Proof.
  unfold persistDelete. run.
  destruct (no_persistence _); [reflexivity|].
  destruct (mode_is _ "cloud").
  - destruct (deleteFromEdgeFunction _ _); fin.
  - destruct (mode_is _ "local"); [|reflexivity]. rewrite persist_absorbs; reflexivity.
Qed.

Lemma loadFromPersistence_absorbs this w :
  ∃ r, loadFromPersistence this w = (Ok r, w).
Proof.
  unfold loadFromPersistence. run.
  destruct (no_persistence _); [eexists; reflexivity|].
  destruct (mode_is _ "local").
  - destruct (browser w).
    + destruct (loadFromLocalStorage _); eexists; reflexivity.
    + destruct (loadFromFile _); eexists; reflexivity.
  - destruct (mode_is _ "cloud"); [|eexists; reflexivity].
    destruct (loadFromEdgeFunction _ _ _); eexists; reflexivity.
Qed.

Lemma initialize_initialized this w :
  initialized (stores w this) = true → initialize this w = (Ok tt, w).
Proof. intros Hi. unfold initialize. run. rewrite Hi; reflexivity. Qed.

End PersistenceFacts.

(** *** Create, update, replace on an initialized store *)

Section CrudFacts.
Context `{Builtins} `{Faker} `{Persistence} `{AIProvider} `{Relations}.

Lemma update_spec this id existing updates w :
  initialized (stores w this) = true →
  map_get (data (stores w this)) id = Some existing →
  ∃ w',
    update this id updates w =
      (Ok (Some (JS.set "updatedAt" (VStr (reading w))
                   (JS.set "createdAt" (get existing "createdAt")
                      (JS.set "id" id (spread2 existing updates))))), w')
    ∧ data (stores w' this) =
        map_set id (JS.set "updatedAt" (VStr (reading w))
                      (JS.set "createdAt" (get existing "createdAt")
                         (JS.set "id" id (spread2 existing updates))))
                (data (stores w this))
    ∧ initialized (stores w' this) = true.
Proof.
  intros Hi Hg. unfold update.
  erewrite bind_ok by (by apply initialize_initialized).
  run. rewrite Hg. unfold now, lift, clockReading. run.
  rewrite persistUpdate_absorbs.
  eexists. split; [reflexivity|]. simpl.
  rewrite decide_True by done. done.
Qed.

Lemma replace_spec this id existing item w :
  initialized (stores w this) = true →
  map_get (data (stores w this)) id = Some existing →
  ∃ w',
    replace this id item w =
      (Ok (Some (JS.set "updatedAt" (VStr (reading w))
                   (JS.set "createdAt" (get existing "createdAt")
                      (JS.set "id" id item)))), w')
    ∧ data (stores w' this) =
        map_set id (JS.set "updatedAt" (VStr (reading w))
                      (JS.set "createdAt" (get existing "createdAt")
                         (JS.set "id" id item)))
                (data (stores w this))
    ∧ initialized (stores w' this) = true.
Proof.
  intros Hi Hg. unfold replace.
  erewrite bind_ok by (by apply initialize_initialized).
  run. rewrite Hg. unfold now, lift, clockReading. run.
  rewrite persistUpdate_absorbs.
  eexists. split; [reflexivity|]. simpl.
  rewrite decide_True by done. done.
Qed.

Lemma inserted_id w item : get (inserted w item) "id" = or_else (get item "id") (nextId w).
Proof. unfold inserted. rewrite !get_set_ne by done. by rewrite get_set_eq. Qed.

Lemma insert_spec this item w :
  initialized (stores w this) = true →
  ∃ w',
    insert this item w = (Ok (inserted w item), w')
    ∧ data (stores w' this) =
        map_set (get (inserted w item) "id") (inserted w item) (data (stores w this))
    ∧ initialized (stores w' this) = true.
Proof.
  intros Hi. unfold insert.
  erewrite bind_ok by (by apply initialize_initialized).
  unfold now, lift, clockReading. run. unfold inserted, or_else, nextId, reading.
  destruct (truthy (get item "id")) eqn:Ht.
  - run. rewrite persistCreate_absorbs.
    eexists. split; [reflexivity|]. simpl.
    rewrite decide_True by done. done.
  - unfold generateId, lift, newId. run. rewrite persistCreate_absorbs.
    eexists. split; [reflexivity|]. simpl.
    rewrite decide_True by done. done.
Qed.

Lemma findById_spec this id w :
  initialized (stores w this) = true →
  findById this id w = (Ok (map_get (data (stores w this)) id), w).
Proof.
  intros Hi. unfold findById.
  erewrite bind_ok by (by apply initialize_initialized). reflexivity.
Qed.

(** The three mutations keep a store keyed by id. *)
Lemma update_keeps_keyed this id existing updates w :
  initialized (stores w this) = true →
  keyedById (data (stores w this)) = true →
  map_get (data (stores w this)) id = Some existing →
  keyedById (data (stores (update this id updates w).2 this)) = true.
Proof.
  intros Hi Hk Hg.
  destruct (update_spec this id existing updates w Hi Hg) as (w' & Hu & Hd & _).
  rewrite Hu. simpl. rewrite Hd.
  apply keyedById_set; [done|].
  rewrite !get_set_ne, get_set_eq by done. apply strict_eq_refl.
Qed.

Lemma replace_keeps_keyed this id existing item w :
  initialized (stores w this) = true →
  keyedById (data (stores w this)) = true →
  map_get (data (stores w this)) id = Some existing →
  keyedById (data (stores (replace this id item w).2 this)) = true.
Proof.
  intros Hi Hk Hg.
  destruct (replace_spec this id existing item w Hi Hg) as (w' & Hu & Hd & _).
  rewrite Hu. simpl. rewrite Hd.
  apply keyedById_set; [done|].
  rewrite !get_set_ne, get_set_eq by done. apply strict_eq_refl.
Qed.

Lemma insert_keeps_keyed this item w :
  initialized (stores w this) = true →
  keyedById (data (stores w this)) = true →
  keyedById (data (stores (insert this item w).2 this)) = true.
Proof.
  intros Hi Hk.
  destruct (insert_spec this item w Hi) as (w' & Hu & Hd & _).
  rewrite Hu. simpl. rewrite Hd.
  apply keyedById_set; [done|]. apply strict_eq_refl.
Qed.

(** C5.  For a record stored under [id], [update] and [replace] return
    and store a record whose [id] and [createdAt] are those of the
    stored record, whatever the payload says, and whose [updatedAt]
    is the clock's reading at the call. *)
Theorem update_replace_keep_id_createdAt this (id : string) existing payload w :
  initialized (stores w this) = true →
  keyedById (data (stores w this)) = true →
  map_get (data (stores w this)) (VStr id) = Some existing →
  (∃ r w', update this (VStr id) payload w = (Ok (Some r), w')
     ∧ map_get (data (stores w' this)) (VStr id) = Some r
     ∧ get r "id" = get existing "id"
     ∧ get r "createdAt" = get existing "createdAt"
     ∧ get r "updatedAt" = VStr (reading w))
  ∧ (∃ r w', replace this (VStr id) payload w = (Ok (Some r), w')
     ∧ map_get (data (stores w' this)) (VStr id) = Some r
     ∧ get r "id" = get existing "id"
     ∧ get r "createdAt" = get existing "createdAt"
     ∧ get r "updatedAt" = VStr (reading w)).
Proof.
  intros Hi Hk Hg. pose proof (keyedById_lookup _ _ _ Hk Hg) as Hid. split.
  - destruct (update_spec this (VStr id) existing payload w Hi Hg) as (w' & Hu & Hs & _).
    eexists _, w'. split; [exact Hu|]. split; [by rewrite Hs, map_get_set_eq|].
    rewrite Hid, get_set_eq, !get_set_ne, !get_set_eq by done.
    rewrite get_set_ne, get_set_eq by done. done.
  - destruct (replace_spec this (VStr id) existing payload w Hi Hg) as (w' & Hu & Hs & _).
    eexists _, w'. split; [exact Hu|]. split; [by rewrite Hs, map_get_set_eq|].
    rewrite Hid, get_set_eq, !get_set_ne, !get_set_eq by done.
    rewrite get_set_ne, get_set_eq by done. done.
Qed.

(** On an initialized store [insert] gives the item an [id] and a
    [createdAt] only where the input has no truthy one, stamps
    [updatedAt] with the clock's reading, leaves every other field as
    given, and a [findById] on the returned id then returns the
    returned item. *)
Theorem insert_then_findById this item w :
  initialized (stores w this) = true →
  ∃ r w', insert this item w = (Ok r, w')
    ∧ findById this (get r "id") w' = (Ok (Some r), w')
    ∧ get r "id" = (if truthy (get item "id") then get item "id" else nextId w)
    ∧ get r "createdAt" =
        (if truthy (get item "createdAt") then get item "createdAt"
         else VStr (reading w))
    ∧ get r "updatedAt" = VStr (reading w)
    ∧ ∀ k, k ≠ "id" → k ≠ "createdAt" → k ≠ "updatedAt" → r !! k = item !! k.
Proof.
  intros Hi. destruct (insert_spec this item w Hi) as (w' & Hins & Hs & Hi').
  exists (inserted w item), w'. split; [exact Hins|].
  split; [by rewrite findById_spec, Hs, map_get_set_eq|].
  split; [apply inserted_id|]. unfold inserted.
  split; [rewrite get_set_ne by done; by rewrite get_set_eq|].
  split; [by rewrite get_set_eq|].
  intros k ? ? ?. unfold JS.set. by rewrite !lookup_insert_ne.
Qed.

(** C7, amended.  [update(id, {})] changes no field but [updatedAt],
    which becomes the clock's reading; the new stamp is greater than
    the old one exactly when that reading is. *)
Theorem update_empty_restamps this (id : string) existing w :
  initialized (stores w this) = true →
  keyedById (data (stores w this)) = true →
  map_get (data (stores w this)) (VStr id) = Some existing →
  ∃ r w', update this (VStr id) ∅ w = (Ok (Some r), w')
    ∧ map_get (data (stores w' this)) (VStr id) = Some r
    ∧ (∀ k, k ≠ "updatedAt" → get r k = get existing k)
    ∧ get r "updatedAt" = VStr (reading w)
    ∧ (∀ old, get existing "updatedAt" = VStr old →
         JS.lt (get existing "updatedAt") (get r "updatedAt")
         = String.ltb old (reading w)).
Proof.
  intros Hi Hk Hg. pose proof (keyedById_lookup _ _ _ Hk Hg) as Hid.
  destruct (update_spec this (VStr id) existing ∅ w Hi Hg) as (w' & Hu & Hs & _).
  eexists _, w'. split; [exact Hu|]. split; [by rewrite Hs, map_get_set_eq|].
  split; [|split].
  - intros k Hne. rewrite get_set_ne by done.
    destruct (decide (k = "createdAt")) as [->|].
    { by rewrite get_set_eq. }
    rewrite get_set_ne by done.
    destruct (decide (k = "id")) as [->|].
    { by rewrite get_set_eq. }
    rewrite get_set_ne by done. apply get_spread2_empty.
  - by rewrite get_set_eq.
  - intros old Ho. rewrite get_set_eq, Ho. reflexivity.
Qed.

End CrudFacts.

Section CrudExamples.
Import Demo Samples.

Lemma update_replace_keep_id_createdAt_witness :
  initialized (stores (shop t1) 1%positive) = true
  ∧ keyedById (data (stores (shop t1) 1%positive)) = true
  ∧ map_get (data (stores (shop t1) 1%positive)) (VStr "p1")
    = Some (product "p1" "lamp" 10)
  ∧ (∃ r w', update 1%positive (VStr "p1") hijack (shop t1) = (Ok (Some r), w')
       ∧ get r "id" = VStr "p1" ∧ get r "createdAt" = VStr t0
       ∧ get r "updatedAt" = VStr t1)
  ∧ (∃ r w', replace 1%positive (VStr "p1") hijack (shop t1) = (Ok (Some r), w')
       ∧ get r "id" = VStr "p1" ∧ get r "createdAt" = VStr t0
       ∧ get r "updatedAt" = VStr t1).
Proof.
  assert (initialized (stores (shop t1) 1%positive) = true) as Hi by reflexivity.
  assert (keyedById (data (stores (shop t1) 1%positive)) = true) as Hk
    by (vm_compute; reflexivity).
  assert (map_get (data (stores (shop t1) 1%positive)) (VStr "p1")
          = Some (product "p1" "lamp" 10)) as Hg by (vm_compute; reflexivity).
  destruct (update_replace_keep_id_createdAt 1%positive "p1" _ hijack _ Hi Hk Hg)
    as [(r & w' & Hu & _ & Hid & Hc & Hup) (r2 & w2 & Hu2 & _ & Hid2 & Hc2 & Hup2)].
  repeat split; try assumption.
  - exists r, w'. by rewrite Hid, Hc, Hup.
  - exists r2, w2. by rewrite Hid2, Hc2, Hup2.
Defined.

Lemma insert_then_findById_witness :
  initialized (stores (shop t1) 1%positive) = true
  ∧ ∃ r w', insert 1%positive dated (shop t1) = (Ok r, w')
      ∧ findById 1%positive (get r "id") w' = (Ok (Some r), w')
      ∧ get r "id" = VStr "p9"
      ∧ get r "createdAt" = VStr t1
      ∧ get r "updatedAt" = VStr t1
      ∧ get r "name" = VStr "rug".
Proof.
  assert (initialized (stores (shop t1) 1%positive) = true) as Hi by reflexivity.
  split; [exact Hi|].
  destruct (insert_then_findById 1%positive dated (shop t1) Hi)
    as (r & w' & Hins & Hf & Hid & Hc & Hu & Hother).
  exists r, w'. repeat split; try assumption.
  unfold get. by rewrite Hother.
Defined.

(** C6.  The comment on [insert] reads "Add timestamps if not
    present", and [createdAt] is treated so; [updatedAt] is not.  An
    item that comes with an [updatedAt] of its own is stored and found
    with the clock's reading in its place. *)
Lemma insert_overwrites_updatedAt :
  get dated "updatedAt" = VStr t0
  ∧ ∃ r w', insert 1%positive dated (shop t1) = (Ok r, w')
      ∧ findById 1%positive (get r "id") w' = (Ok (Some r), w')
      ∧ get r "updatedAt" = VStr t1.
Proof.
  split; [vm_compute; reflexivity|].
  destruct (insert_spec 1%positive dated (shop t1) eq_refl) as (w' & Hins & Hd & Hi').
  exists (inserted (shop t1) dated), w'. split; [exact Hins|]. split.
  - rewrite findById_spec, Hd by done. by rewrite map_get_set_eq.
  - vm_compute; reflexivity.
Qed.

Lemma update_empty_restamps_witness :
  initialized (stores (shop t1) 1%positive) = true
  ∧ keyedById (data (stores (shop t1) 1%positive)) = true
  ∧ map_get (data (stores (shop t1) 1%positive)) (VStr "p1")
    = Some (product "p1" "lamp" 10)
  ∧ ∃ r w', update 1%positive (VStr "p1") ∅ (shop t1) = (Ok (Some r), w')
      ∧ get r "name" = VStr "lamp" ∧ get r "price" = num 10
      ∧ get r "updatedAt" = VStr t1
      ∧ JS.lt (VStr t0) (get r "updatedAt") = true.
Proof.
  assert (initialized (stores (shop t1) 1%positive) = true) as Hi by reflexivity.
  assert (keyedById (data (stores (shop t1) 1%positive)) = true) as Hk
    by (vm_compute; reflexivity).
  assert (map_get (data (stores (shop t1) 1%positive)) (VStr "p1")
          = Some (product "p1" "lamp" 10)) as Hg by (vm_compute; reflexivity).
  destruct (update_empty_restamps 1%positive "p1" _ _ Hi Hk Hg)
    as (r & w' & Hu & _ & Hsame & Hup & Hlt).
  repeat split; try assumption.
  exists r, w'. split; [exact Hu|].
  rewrite !Hsame by done. rewrite Hup. repeat split; vm_compute; reflexivity.
Defined.

(** Two calls within one reading of the clock: the stamp of the second
    is not greater than the stamp it replaces. *)
Lemma update_within_one_clock_reading :
  get (product "p1" "lamp" 10) "updatedAt" = VStr t0
  ∧ ∃ r w', update 1%positive (VStr "p1") ∅ (shop t0) = (Ok (Some r), w')
      ∧ get r "updatedAt" = VStr t0
      ∧ JS.lt (get (product "p1" "lamp" 10) "updatedAt") (get r "updatedAt") = false.
Proof.
  split; [vm_compute; reflexivity|].
  assert (map_get (data (stores (shop t0) 1%positive)) (VStr "p1")
          = Some (product "p1" "lamp" 10)) as Hg by (vm_compute; reflexivity).
  destruct (update_spec 1%positive (VStr "p1") _ ∅ (shop t0) eq_refl Hg)
    as (w' & Hu & _).
  eexists _, w'. split; [exact Hu|]. split; vm_compute; reflexivity.
Qed.

End CrudExamples.

(** *** Filtering *)



Section FilterFacts.
Context `{Builtins}.







End FilterFacts.

(** *** Pagination *)

Lemma slice_page {A} (l : list A) (page limit : Z) :
  (1 ≤ page)%Z → (1 ≤ limit)%Z →
  slice l ((page - 1) * limit) ((page - 1) * limit + limit)
  = take (Z.to_nat limit) (drop (Z.to_nat ((page - 1) * limit)) l).
Proof.
  intros Hp Hl. unfold slice.
  assert (0 ≤ (page - 1) * limit)%Z as Hs by nia.
  generalize dependent ((page - 1) * limit)%Z. intros start Hs.
  destruct (Z.ltb_spec start 0); [lia|].
  destruct (Z.ltb_spec (start + limit) 0); [lia|].
  destruct (decide (Z.of_nat (length l) ≤ start)%Z) as [Hge|Hlt].
  - rewrite !drop_ge by lia. by rewrite !take_nil.
  - rewrite (Z.min_l start) by lia.
    destruct (decide (start + limit ≤ Z.of_nat (length l))%Z).
    + rewrite Z.min_l by lia. do 2 f_equal. lia.
    + rewrite Z.min_r by lia.
      rewrite !take_ge; [done| |]; rewrite length_drop; lia.
Qed.

Lemma ceil_div_bounds (a b : Z) :
  (0 < b)%Z → ((ceil_div a b - 1) * b < a ≤ ceil_div a b * b)%Z.
Proof.
  intros Hb. unfold ceil_div.
  pose proof (Z.mul_div_le (- a) b Hb).
  pose proof (Z.mul_succ_div_gt (- a) b Hb). lia.
Qed.

Section QueryFacts.
Context `{Builtins} `{Faker} `{Persistence} `{AIProvider} `{Relations}
        `{CollectionMeta}.

(** C3.  On an initialized store, [query] filters, then sorts, then
    cuts the page out: [total] counts the filtered items, [totalPages]
    is [ceil(total / limit)], the page starts at [(page - 1) * limit],
    [page] defaults to 1 and [limit] to 20, and a page beyond the last
    one is empty. *)
Theorem query_filters_sorts_paginates this options w filtered :
  initialized (stores w this) = true →
  filterStep options (map_values (data (stores w this))) = Ok filtered →
  let sorted := sortStep options filtered in
  let page := number_or (page options) 1 in
  let limit := number_or (limit options) 20 in
  let total := Z.of_nat (length sorted) in
  let totalPages := ceil_div total limit in
  query this options None w
  = (Ok (Paginated
           (slice sorted ((page - 1) * limit) ((page - 1) * limit + limit))
           {| pg_page := page; pg_limit := limit;
              pg_total := total; pg_totalPages := totalPages |}), w)
  ∧ (DataStore.page options = None → page = 1%Z)
  ∧ (DataStore.limit options = None → limit = 20%Z)
  ∧ ((1 ≤ page)%Z → (1 ≤ limit)%Z →
       slice sorted ((page - 1) * limit) ((page - 1) * limit + limit)
       = pageOf page limit sorted
       ∧ ((totalPages - 1) * limit < total ≤ totalPages * limit)%Z
       ∧ ((totalPages < page)%Z → pageOf page limit sorted = [])).
Proof.
  intros Hi Hf sorted page limit total totalPages.
  split; [|split; [|split]].
  - unfold query. erewrite bind_ok by (by apply initialize_initialized).
    unfold filterStep in Hf. run.
    destruct (filter options) as [f|].
    + rewrite Hf. reflexivity.
    + injection Hf as <-. reflexivity.
  - subst page. by intros ->.
  - subst limit. by intros ->.
  - intros Hp Hl.
    pose proof (ceil_div_bounds total limit ltac:(lia)) as Hc.
    split; [by apply slice_page|]. split; [exact Hc|].
    intros Hout. unfold pageOf. rewrite drop_ge; [by rewrite take_nil|].
    fold total. nia.
Qed.

End QueryFacts.

Section QueryExamples.
Import Demo Samples.

Lemma query_filters_sorts_paginates_witness :
  initialized (stores (shop t1) 1%positive) = true
  ∧ filterStep thirdPage (map_values (data (stores (shop t1) 1%positive)))
    = Ok products
  ∧ sortStep thirdPage products
    = [product "p3" "sofa" 30; product "p2" "desk" 20; product "p1" "lamp" 10]
  ∧ query 1%positive thirdPage None (shop t1)
    = (Ok (Paginated [] {| pg_page := 3; pg_limit := 2;
                           pg_total := 3; pg_totalPages := 2 |}), shop t1).
Proof.
  assert (initialized (stores (shop t1) 1%positive) = true) as Hi by reflexivity.
  assert (filterStep thirdPage (map_values (data (stores (shop t1) 1%positive)))
          = Ok products) as Hf by (vm_compute; reflexivity).
  split; [exact Hi|]. split; [exact Hf|]. split; [vm_compute; reflexivity|].
  destruct (query_filters_sorts_paginates 1%positive thirdPage (shop t1) products Hi Hf)
    as (Hq & _ & _ & Hpage).
  destruct Hpage as (Hslice & _ & Hout); [by vm_compute..|].
  rewrite Hq, Hslice, Hout by (by vm_compute). reflexivity.
Defined.




End QueryExamples.

(** *** Which failures reach the caller *)

Section FailureFacts.
Context `{Builtins} `{Faker} `{Persistence} `{AIProvider} `{Relations}.

Lemma update_returns this id updates w :
  initialized (stores w this) = true →
  ∃ r w', update this id updates w = (Ok r, w').
Proof.
  intros Hi. destruct (map_get (data (stores w this)) id) as [existing|] eqn:Hg.
  - destruct (update_spec this id existing updates w Hi Hg) as (w' & Hu & _). eauto.
  - unfold update. erewrite bind_ok by (by apply initialize_initialized).
    run. rewrite Hg. eauto.
Qed.

Lemma replace_returns this id item w :
  initialized (stores w this) = true →
  ∃ r w', replace this id item w = (Ok r, w').
Proof.
  intros Hi. destruct (map_get (data (stores w this)) id) as [existing|] eqn:Hg.
  - destruct (replace_spec this id existing item w Hi Hg) as (w' & Hu & _). eauto.
  - unfold replace. erewrite bind_ok by (by apply initialize_initialized).
    run. rewrite Hg. eauto.
Qed.

Lemma delete_returns this id w :
  initialized (stores w this) = true →
  ∃ w', delete this id w = (Ok (map_has (data (stores w this)) id), w').
Proof.
  intros Hi. unfold delete. erewrite bind_ok by (by apply initialize_initialized).
  run. destruct (map_has _ _).
  - rewrite persistDelete_absorbs. eauto.
  - eauto.
Qed.

Lemma generateSeedDataWithAI_throws this w e :
  generateWithAI (stores w this) = Throw e →
  generateSeedDataWithAI this w = (Throw e, w).
Proof. intros He. unfold generateSeedDataWithAI. run. by rewrite He. Qed.

Lemma generateSeedData_ai_rethrows this pools w e :
  generateWithAI (stores w this) = Throw e →
  generate_mode (config w) = "ai" →
  generateSeedData this pools w = (Throw e, w).
Proof.
  intros He Hmode. unfold generateSeedData. run. rewrite Hmode.
  cbn [String.eqb Ascii.eqb Bool.eqb orb].
  by rewrite (generateSeedDataWithAI_throws this w e He).
Qed.

Lemma generateSeedData_auto_falls_back this pools w e :
  generateWithAI (stores w this) = Throw e →
  generate_mode (config w) = "auto" →
  generateSeedData this pools w = fakerSeedData this pools w.
Proof.
  intros He Hmode. unfold generateSeedData. run. rewrite Hmode.
  cbn [String.eqb Ascii.eqb Bool.eqb orb].
  by rewrite (generateSeedDataWithAI_throws this w e He).
Qed.

(** C8, amended.  A failing persistence call never reaches the
    caller: the persistence methods return normally and leave the
    state as it is, and on an initialized store every CRUD call
    returns its in-memory result.  A failure of the AI generator is
    absorbed in mode ['auto'], where the Faker generator takes over,
    and is thrown on to the caller in the strict mode ['ai']. *)
Theorem persistence_absorbed_generation_rethrown this w :
  (persist this w = (Ok tt, w)
   ∧ (∀ item, persistCreate this item w = (Ok tt, w))
   ∧ (∀ id updates, persistUpdate this id updates w = (Ok tt, w))
   ∧ (∀ id, persistDelete this id w = (Ok tt, w))
   ∧ (∃ loaded, loadFromPersistence this w = (Ok loaded, w)))
  ∧ (initialized (stores w this) = true →
       (∀ item, ∃ r w', insert this item w = (Ok r, w'))
       ∧ (∀ id updates, ∃ r w', update this id updates w = (Ok r, w'))
       ∧ (∀ id item, ∃ r w', replace this id item w = (Ok r, w'))
       ∧ (∀ id, ∃ r w', delete this id w = (Ok r, w'))
       ∧ (∀ id, ∃ r w', findById this id w = (Ok r, w')))
  ∧ (∀ e pools, generateWithAI (stores w this) = Throw e →
       (generate_mode (config w) = "auto" →
          generateSeedData this pools w = fakerSeedData this pools w)
       ∧ (generate_mode (config w) = "ai" →
            generateSeedData this pools w = (Throw e, w)
            ∧ (initialized (stores w this) = false →
                 ∀ fkValuePools,
                   initializeWithFKIntegrity this fkValuePools w = (Throw e, w)))).
Proof.
  split; [|split].
  - split; [apply persist_absorbs|].
    split; [intros; apply persistCreate_absorbs|].
    split; [intros; apply persistUpdate_absorbs|].
    split; [intros; apply persistDelete_absorbs|].
    apply loadFromPersistence_absorbs.
  - intros Hi.
    split; [intros item; destruct (insert_spec this item w Hi) as (w' & ? & _); eauto|].
    split; [intros; by apply update_returns|].
    split; [intros; by apply replace_returns|].
    split; [intros id; destruct (delete_returns this id w Hi) as (w' & ?); eauto|].
    intros id. rewrite findById_spec by done. eauto.
  - intros e pools He. split; intros Hmode.
    + by apply generateSeedData_auto_falls_back with e.
    + split; [by apply generateSeedData_ai_rethrows|].
      intros Hu fk. unfold initializeWithFKIntegrity. run. rewrite Hu.
      by rewrite (generateSeedData_ai_rethrows this (Some fk) w e He Hmode).
Qed.

End FailureFacts.

Section InitializationExamples.
Import Demo Samples.

Lemma persistence_absorbed_generation_rethrown_witness :
  persistCreate 1%positive dated (shop t1) = (Ok tt, shop t1)
  ∧ initialized (stores (shop t1) 1%positive) = true
  ∧ (∃ r w', insert 1%positive dated (shop t1) = (Ok r, w'))
  ∧ generateWithAI (stores (marketplace "ai" 1 1) 2%positive)
    = Throw (Error "AI generation failed")
  ∧ generate_mode (config (marketplace "ai" 1 1)) = "ai"
  ∧ initialized (stores (marketplace "ai" 1 1) 2%positive) = false
  ∧ initializeWithFKIntegrity 2%positive ∅ (marketplace "ai" 1 1)
    = (Throw (Error "AI generation failed"), marketplace "ai" 1 1)
  ∧ generate_mode (config (marketplace "auto" 1 1)) = "auto"
  ∧ generateSeedData 2%positive None (marketplace "auto" 1 1)
    = fakerSeedData 2%positive None (marketplace "auto" 1 1).
Proof.
  destruct (persistence_absorbed_generation_rethrown 1%positive (shop t1))
    as ((_ & Hcreate & _) & Hcrud & _).
  destruct (persistence_absorbed_generation_rethrown 2%positive (marketplace "ai" 1 1))
    as (_ & _ & Hai).
  destruct (persistence_absorbed_generation_rethrown 2%positive (marketplace "auto" 1 1))
    as (_ & _ & Hauto).
  split; [apply Hcreate|]. split; [reflexivity|].
  split; [by apply Hcrud|]. split; [reflexivity|]. split; [reflexivity|].
  split; [reflexivity|].
  split; [by apply (Hai (Error "AI generation failed") None)|].
  split; [reflexivity|].
  by apply (Hauto (Error "AI generation failed") None).
Defined.

(** In the strict mode an outage of the AI provider fails the first
    [insert] on a store that is still to be seeded. *)
Lemma ai_outage_fails_insert :
  (insert 2%positive dated (marketplace "ai" 1 1)).1
  = Throw (Error "AI generation failed").
Proof. vm_compute. reflexivity. Qed.

(** C2, as the code has it.  The aggregates that [list] builds for an
    envelope schema are those of the page it returns: of the products
    priced 10, 20 and 30, page 1 of size 2 has avg 15, sum 30, min 10
    and max 20, page 2 of size 2 has 30 four times, and only a page
    that holds all three has avg 20, sum 60, min 10 and max 30. *)
Theorem list_aggregates_follow_the_page :
  numbers (list_ productsConfig 1%positive (Some (pageOfSize 1 2)) (shop t1)).1
  = [("avgPrice", (15%Z, 1%positive)); ("sumPrice", (30%Z, 1%positive));
     ("minPrice", (10%Z, 1%positive)); ("maxPrice", (20%Z, 1%positive))]
  ∧ numbers (list_ productsConfig 1%positive (Some (pageOfSize 2 2)) (shop t1)).1
  = [("avgPrice", (30%Z, 1%positive)); ("sumPrice", (30%Z, 1%positive));
     ("minPrice", (30%Z, 1%positive)); ("maxPrice", (30%Z, 1%positive))]
  ∧ numbers (list_ productsConfig 1%positive (Some (pageOfSize 1 20)) (shop t1)).1
  = [("avgPrice", (20%Z, 1%positive)); ("sumPrice", (60%Z, 1%positive));
     ("minPrice", (10%Z, 1%positive)); ("maxPrice", (30%Z, 1%positive))].
Proof. repeat split; vm_compute; reflexivity. Qed.

End InitializationExamples.

(** *** Seeding with foreign keys *)
(** *** Results of computations *)

Section Returns.
Context {S : Type}.

Lemma returns_ret {A} (a : A) (Q : A → Prop) : Q a → returns (S:=S) (ret a) Q.
Proof. intros HQ s a' s' [= <- _]. exact HQ. Qed.

Lemma returns_bind {A B} (m : M S A) (k : A → M S B) (P : A → Prop) (Q : B → Prop) :
  returns m P → (∀ a, P a → returns (k a) Q) → returns (bind m k) Q.
Proof.
  intros Hm Hk s b s'. unfold bind.
  destruct (m s) as [[a|e] s1] eqn:E; [|done].
  intros Hb. eapply Hk; [|exact Hb]. by eapply Hm.
Qed.

Lemma returns_weaken {A} (m : M S A) (P Q : A → Prop) :
  returns m P → (∀ a, P a → Q a) → returns m Q.
Proof. intros Hm HPQ s a s' E. eapply HPQ, Hm, E. Qed.

Lemma returns_any {A} (m : M S A) : returns m (fun _ => True).
Proof. by intros s a s' _. Qed.

Lemma returns_throw {A} e (Q : A → Prop) : returns (S:=S) (throw e) Q.
Proof. by intros s a s'. Qed.

Lemma returns_replicateM {A} n (f : M S A) (Q : A → Prop) :
  returns f Q → returns (replicateM n f) (Forall Q).
Proof.
  intros Hf. induction n as [|n IH]; simpl.
  - by apply returns_ret.
  - eapply returns_bind; [exact Hf|]. intros a Ha.
    eapply returns_bind; [exact IH|]. intros l Hl.
    apply returns_ret. by constructor.
Qed.

End Returns.

Lemma returns_lift {A} (g : G A) (Q : A → Prop) : returns g Q → returns (lift g) Q.
Proof.
  intros Hg w a w'. unfold lift.
  destruct (g (entropy w)) as [r e] eqn:E. intros [= -> _]. by eapply Hg.
Qed.

(** *** Computations that only consume entropy *)

Lemma entropic_refl w : entropic w w.
Proof. exists (entropy w). by destruct w. Qed.

Lemma entropic_trans w1 w2 w3 : entropic w1 w2 → entropic w2 w3 → entropic w1 w3.
Proof. intros [e1 ->] [e2 ->]. by exists e2. Qed.

Lemma entropic_stores w w' : entropic w w' → stores w' = stores w.
Proof. by intros [e ->]. Qed.

Lemma entropic_setting w w' : entropic w w' → sameSetting w w'.
Proof. by intros [e ->]. Qed.

Lemma entropic_flag w w' : entropic w w' → isInitializingAll w' = isInitializingAll w.
Proof. by intros [e ->]. Qed.

Lemma Entropic_ret {A} (a : A) : Entropic (ret a).
Proof. intros w. apply entropic_refl. Qed.

Lemma Entropic_throw {A} e : Entropic (throw (A:=A) e).
Proof. intros w. apply entropic_refl. Qed.

Lemma Entropic_gets {A} (f : World → A) : Entropic (gets f).
Proof. intros w. apply entropic_refl. Qed.

Lemma Entropic_call {A} (o : outcome A) : Entropic (call o).
Proof. intros w. apply entropic_refl. Qed.

Lemma Entropic_lift {A} (g : G A) : Entropic (lift g).
Proof. intros w. unfold lift. destruct (g (entropy w)) as [r e]. by exists e. Qed.

Lemma Entropic_bind {A B} (m : W A) (k : A → W B) :
  Entropic m → (∀ a, Entropic (k a)) → Entropic (bind m k).
Proof.
  intros Hm Hk w. unfold bind. specialize (Hm w).
  destruct (m w) as [[a|e] w1]; [|exact Hm].
  eapply entropic_trans; [exact Hm|apply Hk].
Qed.

Lemma Entropic_try_catch {A} (m : W A) (h : error → W A) :
  Entropic m → (∀ e, Entropic (h e)) → Entropic (try_catch m h).
Proof.
  intros Hm Hh w. unfold try_catch. specialize (Hm w).
  destruct (m w) as [[a|e] w1]; [exact Hm|].
  eapply entropic_trans; [exact Hm|apply Hh].
Qed.

Lemma Entropic_replicateM {A} n (f : W A) : Entropic f → Entropic (replicateM n f).
Proof.
  intros Hf. induction n as [|n IH]; simpl; [apply Entropic_ret|].
  apply Entropic_bind; [exact Hf|]. intros a.
  apply Entropic_bind; [exact IH|]. intros l. apply Entropic_ret.
Qed.

Lemma Entropic_mapM {A B} (f : A → W B) l : (∀ a, Entropic (f a)) → Entropic (mapM f l).
Proof.
  intros Hf. induction l as [|x l IH]; simpl; [apply Entropic_ret|].
  apply Entropic_bind; [apply Hf|]. intros a.
  apply Entropic_bind; [exact IH|]. intros ys. apply Entropic_ret.
Qed.

Section Generation.
Context `{Builtins} `{Faker} `{Persistence} `{AIProvider} `{Relations}.

Lemma Entropic_generateSeedData this pools : Entropic (generateSeedData this pools).
Proof.
  unfold generateSeedData.
  apply Entropic_bind; [apply Entropic_gets|]. intros config.
  apply Entropic_bind.
  - destruct (_ || _); [|apply Entropic_ret].
    apply Entropic_try_catch.
    + apply Entropic_bind; [|intros; apply Entropic_ret].
      unfold generateSeedDataWithAI.
      apply Entropic_bind; [apply Entropic_gets|]. intros st.
      apply Entropic_bind; [apply Entropic_call|]. intros v.
      apply Entropic_bind; [apply Entropic_lift|]. intros t.
      apply Entropic_mapM. intros; apply Entropic_lift.
    + intros e. destruct (String.eqb _ _); [apply Entropic_throw|apply Entropic_ret].
  - intros [aiData|]; [apply Entropic_ret|].
    unfold fakerSeedData.
    apply Entropic_bind; [apply Entropic_gets|]. intros st.
    apply Entropic_replicateM.
    apply Entropic_bind.
    { unfold generateWithFaker. apply Entropic_bind; [apply Entropic_gets|].
      intros; apply Entropic_lift. }
    intros item. apply Entropic_bind; [apply Entropic_lift|].
    intros; apply Entropic_lift.
Qed.

End Generation.
Lemma props_record_lookup props k :
  match props_record props !! k with
  | Some v => (k, v) ∈ props
  | None => ∀ v, (k, v) ∉ props
  end.
Proof.
  unfold props_record.
  assert (∀ acc : record,
            match foldl (fun r kv => <[kv.1 := kv.2]> r) acc props !! k with
            | Some v => (k, v) ∈ props ∨ acc !! k = Some v
            | None => (∀ v, (k, v) ∉ props) ∧ acc !! k = None
            end) as Hgen.
  { induction props as [|[k' v'] props IH]; intros acc; simpl.
    - destruct (acc !! k) eqn:E; [by right|]. split; [|done].
      intros v Hv. by apply not_elem_of_nil in Hv.
    - specialize (IH (<[k' := v']> acc)).
      destruct (foldl _ _ props !! k) as [v|].
      + destruct IH as [Hin|Hacc]; [left; by right|].
        destruct (decide (k' = k)) as [->|Hne].
        * rewrite lookup_insert_eq in Hacc. injection Hacc as ->. left. by left.
        * rewrite lookup_insert_ne in Hacc by done. by right.
      + destruct IH as [Hnot Hacc].
        destruct (decide (k' = k)) as [->|Hne].
        * by rewrite lookup_insert_eq in Hacc.
        * rewrite lookup_insert_ne in Hacc by done. split; [|done].
          intros v [[= -> ->]|Hin]%elem_of_cons; [done|]. by eapply Hnot. }
  specialize (Hgen ∅). destruct (foldl _ _ _ !! k) as [v|].
  - destruct Hgen as [?|Hemp]; [done|]. by rewrite lookup_empty in Hemp.
  - by destruct Hgen.
Qed.

Section Generation2.
Context `{Builtins} `{Faker} `{Persistence} `{AIProvider} `{Relations}.

Lemma faker_number_int_range lo hi :
  (lo ≤ hi)%Z → returns (faker_number_int lo hi) (fun z => (lo ≤ z ≤ hi)%Z).
Proof.
  intros Hle e z e'. unfold faker_number_int, faker_draw. run.
  intros [= <- _].
  pose proof (Z.mod_pos_bound (Z.of_nat (fakerDraws e (fakerPos e))) (hi - lo + 1)
                ltac:(lia)). lia.
Qed.









Lemma generateSeedData_faker this pools w :
  generate_mode (config w) = "faker" →
  generateSeedData this pools w = fakerSeedData this pools w.
Proof.
  intros Hmode. unfold generateSeedData. run. rewrite Hmode. reflexivity.
Qed.

End Generation2.


Lemma sameSetting_refl w : sameSetting w w.
Proof. by repeat split. Qed.


Lemma withItems_values items d x :
  x ∈ map_values (withItems items d) → x ∈ items ∨ x ∈ map_values d.
Proof.
  unfold withItems. revert d. induction items as [|item items IH]; intros d; simpl.
  - by right.
  - intros [Hin|Hin]%IH; [left; by right|].
    unfold map_values in Hin. apply list_elem_of_fmap in Hin as [[k v] [-> Hin]].
    apply map_set_elem in Hin as [[-> _]|Hin]; [left; by left|].
    right. apply list_elem_of_fmap. by exists (k, v).
Qed.

Section Seeding.
Context `{Builtins} `{Faker} `{Persistence} `{AIProvider} `{Relations}.


Lemma loadFromPersistence_result this w :
  loadFromPersistence this w = ((loadFromPersistence this w).1, w).
Proof. destruct (loadFromPersistence_absorbs this w) as [r ->]. reflexivity. Qed.

(** What a run of [initializeWithFKIntegrity] on a store that is not
    initialized does. *)
Lemma initializeWithFKIntegrity_run this pools w r w' :
  initialized (stores w this) = false →
  initializeWithFKIntegrity this pools w = (r, w') →
  changesOnly this w w'
  ∧ match r with
    | Ok _ =>
        ∃ seedData w1,
          generateSeedData this (Some pools) w = (Ok seedData, w1)
          ∧ data (stores w' this) = withItems seedData (data (stores w this))
          ∧ initialized (stores w' this) = true
    | Throw _ => stores w' this = stores w this
    end.
Proof.
  intros Hi. unfold initializeWithFKIntegrity. unfold bind at 1. unfold self, gets.
  rewrite Hi. unfold bind at 1.
  pose proof (Entropic_generateSeedData this (Some pools) w) as [e He].
  destruct (generateSeedData this (Some pools) w) as [[seedData|err] w1] eqn:Hgen;
    simpl in He; subst w1.
  - unfold store_items. run. rewrite persist_absorbs. intros [= <- <-].
    split.
    + split; [|split]; [| reflexivity |].
      * repeat split; simpl; try reflexivity; by case_decide.
      * intros p Hp. simpl. by rewrite !decide_False.
    + exists seedData, (with_entropy e w). split; [done|]. simpl.
      rewrite !decide_True by done. done.
  - intros [= <- <-]. split; [|done].
    split; [by apply entropic_setting; exists e|]. split; [done|]. done.
Qed.

End Seeding.

Section SeedingLoop.
Context `{Builtins} `{Faker} `{Persistence} `{AIProvider} `{Relations}.

Lemma changesOnly_refl p w : changesOnly p w w.
Proof. split; [apply sameSetting_refl|]. by split. Qed.

Lemma seedCollection_skip reg avail n w :
  (∀ m p, reg !! n = Some m → store m = Some p → initialized (stores w p) = true) →
  seedCollection reg avail n w = (Ok avail, w).
Proof.
  intros Hskip. unfold seedCollection.
  destruct (reg !! n) as [m|]; [|reflexivity].
  destruct (store m) as [p|] eqn:Hp; [|reflexivity].
  run. by rewrite (Hskip m p eq_refl Hp).
Qed.

Lemma seedCollection_seeds reg avail n w m p r w' :
  reg !! n = Some m → store m = Some p → initialized (stores w p) = false →
  seedCollection reg avail n w = (r, w') →
  changesOnly p w w'
  ∧ match r with
    | Ok avail' =>
        avail' = <[n := map_keys (data (stores w' p))]> avail
        ∧ initialized (stores w' p) = true
        ∧ (loadsNothing (loadFromPersistence p w).1 = true →
           ∃ seedData w1,
             generateSeedData p (Some (buildPools (relations m) avail)) w
             = (Ok seedData, w1)
             ∧ data (stores w' p) = withItems seedData (data (stores w p)))
    | Throw _ => True
    end.
Proof.
  intros Hreg Hstore Hi. unfold seedCollection. rewrite Hreg, Hstore.
  unfold bind at 1. unfold self, gets. rewrite Hi. unfold bind at 1.
  destruct (loadFromPersistence_absorbs p w) as [loaded Hl]. rewrite Hl.
  assert (∀ r w',
    (let* _ := initializeWithFKIntegrity p (buildPools (relations m) avail) in
     let* st' := gets (fun w => stores w p) in
     ret (<[n := map_keys (data st')]> avail)) w = (r, w') →
    changesOnly p w w'
    ∧ match r with
      | Ok avail' =>
          avail' = <[n := map_keys (data (stores w' p))]> avail
          ∧ initialized (stores w' p) = true
          ∧ ∃ seedData w1,
              generateSeedData p (Some (buildPools (relations m) avail)) w
              = (Ok seedData, w1)
              ∧ data (stores w' p) = withItems seedData (data (stores w p))
      | Throw _ => True
      end) as Hgen.
  { clear r w'. intros r w'. unfold bind at 1.
    destruct (initializeWithFKIntegrity p _ w) as [[[]|err] w2] eqn:Hrun.
    - apply initializeWithFKIntegrity_run in Hrun as [Hch Hrun]; [|done].
      run. intros [= <- <-]. split; [done|].
      destruct Hrun as (seedData & w1 & Hg & Hd & Hi'). eauto 10.
    - apply initializeWithFKIntegrity_run in Hrun as [Hch Hrun]; [|done].
      intros [= <- <-]. done. }
  destruct loaded as [[|item items]|].
  - intros [Hch Hr]%Hgen. split; [done|]. destruct r; [|done].
    destruct Hr as (? & ? & ?). eauto.
  - unfold store_items. run. intros [= <- <-]. split.
    + split; [|split]; [| reflexivity |].
      * repeat split; simpl; try reflexivity; by repeat case_decide.
      * intros q Hq. simpl. by rewrite !decide_False.
    + split; [|split].
      * simpl. by rewrite !decide_True.
      * simpl. by rewrite !decide_True.
      * done.
  - intros [Hch Hr]%Hgen. split; [done|]. destruct r; [|done].
    destruct Hr as (? & ? & ?). eauto.
Qed.

End SeedingLoop.

Section SeedingOrder.
Context `{Builtins} `{Faker} `{Persistence} `{AIProvider} `{Relations}.

Lemma seedCollection_dichotomy reg avail n w :
  seedCollection reg avail n w = (Ok avail, w)
  ∨ ∃ m p, reg !! n = Some m ∧ store m = Some p ∧ initialized (stores w p) = false.
Proof.
  destruct (reg !! n) as [m|] eqn:Hreg.
  - destruct (store m) as [p|] eqn:Hstore.
    + destruct (initialized (stores w p)) eqn:Hi; [|right; eauto].
      left. apply seedCollection_skip. intros m' p'. rewrite Hreg.
      intros [= <-]. rewrite Hstore. by intros [= <-].
    + left. apply seedCollection_skip. intros m' p'. rewrite Hreg.
      intros [= <-]. by rewrite Hstore.
  - left. apply seedCollection_skip. intros m' p'. by rewrite Hreg.
Qed.

Lemma seedLoop_cons reg n rest avail w :
  seedLoop reg (n :: rest) avail w
  = match seedCollection reg avail n w with
    | (Ok avail', w1) => seedLoop reg rest avail' w1
    | (Throw e, w1) => (Throw e, w1)
    end.
Proof. reflexivity. Qed.




End SeedingOrder.



Section ForeignKeys.
Context `{Builtins} `{Faker} `{Persistence} `{AIProvider} `{Relations}.


End ForeignKeys.

Section ForeignKeyExamples.
Import Demo Samples.



(** When the users were initialized before the pass, the pass skips
    them without recording their ids, and the orders get made-up
    [userId]s although a user exists. *)
Example initialized_parent_is_skipped :
  map_keys (data (stores (initializeAllCollections (lateOrders 2)).2 1%positive))
  = [VStr "u1"]
  ∧ (fun r => get r "userId")
      <$> map_values (data (stores (initializeAllCollections (lateOrders 2)).2
                                   2%positive))
    = [VStr "uuid-i"; VStr "uuid-iiii"].
Proof. split; vm_compute; reflexivity. Qed.

End ForeignKeyExamples.

(** *** The initialization pass among other callers *)

Lemma bind_run {S A B} (m m' : M S A) (k k' : A → M S B) s :
  m s = m' s →
  (∀ a s', m' s = (Ok a, s') → k a s' = k' a s') →
  bind m k s = bind m' k' s.
Proof.
  intros Hm Hk. unfold bind. rewrite Hm.
  destruct (m' s) as [[a|e] s']; [by apply Hk|done].
Qed.

Section PassAmongCallers.
Context `{Builtins} `{Faker} `{Persistence} `{AIProvider} `{Relations}.
Variable others : World → World.
Hypothesis others_wait : ∀ s, isInitializingAll s = true → others s = s.

Lemma await_held {A} (m : W A) s :
  isInitializingAll (m s).2 = true → await others m s = m s.
Proof.
  unfold await. destruct (m s) as [r s']. simpl. intros Hf. by rewrite others_wait.
Qed.

Lemma seedCollection_flag reg avail n s :
  isInitializingAll (seedCollection reg avail n s).2 = isInitializingAll s.
Proof.
  destruct (seedCollection_dichotomy reg avail n s) as [->|(m & p & Hreg & Hp & Hi)];
    [done|].
  destruct (seedCollection reg avail n s) as [r s'] eqn:Hrun.
  by destruct (seedCollection_seeds _ _ _ _ _ _ _ _ Hreg Hp Hi Hrun) as [(_ & Hf & _) _].
Qed.

Lemma seedCollectionAmid_held reg avail n s :
  isInitializingAll s = true →
  seedCollectionAmid others reg avail n s = seedCollection reg avail n s.
Proof.
  intros Hf. unfold seedCollectionAmid, seedCollection.
  destruct (reg !! n) as [m|]; [|done].
  destruct (store m) as [p|]; [|done].
  apply bind_run; [done|]. intros st s' [= <- <-].
  destruct (initialized (stores s p)) eqn:Hi; [done|].
  assert (await others (initializeWithFKIntegrity p (buildPools (relations m) avail)) s
          = initializeWithFKIntegrity p (buildPools (relations m) avail) s) as Hinit.
  { apply await_held.
    destruct (initializeWithFKIntegrity p _ s) as [r s'] eqn:Hrun.
    destruct (initializeWithFKIntegrity_run _ _ _ _ _ Hi Hrun) as [(_ & Hf' & _) _].
    simpl. congruence. }
  apply bind_run.
  { apply await_held. by rewrite loadFromPersistence_result. }
  intros loaded s'. rewrite loadFromPersistence_result. intros [= _ <-].
  destruct loaded as [[|item items]|]; [|done|]; by apply bind_run.
Qed.

Lemma seedLoopAmid_held reg names :
  ∀ avail s, isInitializingAll s = true →
             seedLoopAmid others reg names avail s = seedLoop reg names avail s.
Proof.
  induction names as [|n names IH]; intros avail s Hf; [done|].
  cbn [seedLoopAmid seedLoop].
  apply bind_run; [by apply seedCollectionAmid_held|].
  intros avail' s' Hrun. apply IH.
  pose proof (seedCollection_flag reg avail n s) as Hkept.
  rewrite Hrun in Hkept. simpl in Hkept. congruence.
Qed.

Lemma initializeAllCollectionsAmid_held w :
  isInitializingAll w = false →
  initializeAllCollectionsAmid others w = initializeAllCollections w.
Proof.
  intros Hf. unfold initializeAllCollectionsAmid, initializeAllCollections.
  apply bind_run; [done|]. intros busy s' Hb. injection Hb as <- <-. rewrite Hf.
  apply bind_run; [done|]. intros u s' Hb.
  assert (s' = with_flag true w) as -> by (by injection Hb).
  unfold try_finally.
  match goal with |- (let '(_, _) := ?a in _) = (let '(_, _) := ?b in _) =>
    assert (a = b) as ->; [|done] end.
  unfold bind at 1. rewrite await_held by done.
  unfold ret at 1. unfold bind at 1. rewrite await_held by done.
  unfold ret at 1. apply bind_run; [done|]. intros reg s' Hreg. injection Hreg as <- <-.
  by apply seedLoopAmid_held.
Qed.

End PassAmongCallers.

Section PassFacts.
Context `{Builtins} `{Faker} `{Persistence} `{AIProvider} `{Relations}.

Lemma initializeAllCollections_busy s :
  isInitializingAll s = true → initializeAllCollections s = (Ok tt, s).
Proof. intros Hflag. unfold initializeAllCollections. run. by rewrite Hflag. Qed.

Lemma initializeWithFKIntegrity_flag p pools s :
  isInitializingAll (initializeWithFKIntegrity p pools s).2 = isInitializingAll s.
Proof.
  destruct (initialized (stores s p)) eqn:Hi.
  - unfold initializeWithFKIntegrity. run. by rewrite Hi.
  - destruct (initializeWithFKIntegrity p pools s) as [r s'] eqn:Hrun.
    by destruct (initializeWithFKIntegrity_run _ _ _ _ _ Hi Hrun) as [(_ & Hf & _) _].
Qed.

(** C9.  A call that finds [isInitializingAll] set returns at once
    and changes nothing.  A pass that starts with the flag clear holds
    the flag at each of its awaits: the calls that arrive there while
    it is suspended, and whatever else leaves the state alone when it
    finds the flag set, make no difference to the pass.  The calls
    that the pass awaits do not assign the flag, so that it is held
    while they are suspended too.  The pass leaves the flag cleared,
    whether it returns or throws. *)
Theorem initializeAll_reentry_and_flag w :
  (isInitializingAll w = true → initializeAllCollections w = (Ok tt, w))
  ∧ (isInitializingAll w = false →
       (∀ others : World → World,
          (∀ s, isInitializingAll s = true → others s = s) →
          initializeAllCollectionsAmid others w = initializeAllCollections w)
       ∧ initializeAllCollectionsAmid (fun s => (initializeAllCollections s).2) w
         = initializeAllCollections w
       ∧ ∀ r w', initializeAllCollections w = (r, w') → isInitializingAll w' = false)
  ∧ (∀ p pools s,
       isInitializingAll (loadFromPersistence p s).2 = isInitializingAll s
       ∧ isInitializingAll (initializeWithFKIntegrity p pools s).2
         = isInitializingAll s).
Proof.
  split; [apply initializeAllCollections_busy|].
  split; [|intros p pools s; split;
             [by rewrite loadFromPersistence_result
             |apply initializeWithFKIntegrity_flag]].
  intros Hflag.
  split; [|split].
  - intros others Hwait. by apply initializeAllCollectionsAmid_held.
  - apply initializeAllCollectionsAmid_held; [|done].
    intros s Hs. by rewrite initializeAllCollections_busy.
  - intros r w'. unfold initializeAllCollections. run. rewrite Hflag.
    destruct (seedLoop _ _ _ _) as [r0 w0]. by intros [= <- <-].
Qed.

End PassFacts.

Section PassExamples.
Import Demo Samples.

Lemma initializeAll_reentry_and_flag_witness :
  isInitializingAll (with_flag true (marketplace "ai" 1 1)) = true
  ∧ initializeAllCollections (with_flag true (marketplace "ai" 1 1))
    = (Ok tt, with_flag true (marketplace "ai" 1 1))
  ∧ isInitializingAll (marketplace "ai" 1 1) = false
  ∧ (initializeAllCollections (marketplace "ai" 1 1)).1
    = Throw (Error "AI generation failed")
  ∧ isInitializingAll (initializeAllCollections (marketplace "ai" 1 1)).2 = false
  ∧ (initializeAllCollections (marketplace "faker" 1 1)).1 = Ok tt
  ∧ isInitializingAll (initializeAllCollections (marketplace "faker" 1 1)).2 = false
  ∧ initializeAllCollectionsAmid (fun s => (initializeAllCollections s).2)
      (marketplace "faker" 1 1)
    = initializeAllCollections (marketplace "faker" 1 1)
  ∧ length (data (stores (initializeAllCollections (marketplace "faker" 1 1)).2 1)) = 1%nat
  ∧ length (data (stores (initializeAllCollectionsAmid heedless
                            (marketplace "faker" 1 1)).2 1)) = 0%nat.
Proof.
  destruct (initializeAll_reentry_and_flag (with_flag true (marketplace "ai" 1 1)))
    as [Hbusy _].
  destruct (initializeAll_reentry_and_flag (marketplace "ai" 1 1)) as (_ & Hfail & _).
  destruct (initializeAll_reentry_and_flag (marketplace "faker" 1 1)) as (_ & Hdone & _).
  destruct (Hfail eq_refl) as (_ & _ & Hfail').
  destruct (Hdone eq_refl) as (_ & Hsecond & Hdone').
  split; [reflexivity|]. split; [by apply Hbusy|]. split; [reflexivity|].
  split; [vm_compute; reflexivity|].
  split; [by eapply Hfail', surjective_pairing|].
  split; [vm_compute; reflexivity|].
  split; [by eapply Hdone', surjective_pairing|].
  split; [exact Hsecond|].
  split; vm_compute; reflexivity.
Defined.

End PassExamples.

(** ** Further properties of the code *)

Import Notions.

(** *** Deleting from the built-in map *)

Section MapDeleteFacts.
Context {V : Type}.
Implicit Types (m : JS.map V) (k : value) (v : V).

Lemma map_has_false m k : map_has m k = false ↔ map_get m k = None.
Proof.
  unfold map_has. rewrite bool_decide_eq_false.
  destruct (map_get m k) eqn:E.
  - split; [intros Hx; exfalso; apply Hx; by eexists | done].
  - split; [done | intros _ [? ?]; done].
Qed.

Lemma map_has_true m k : map_has m k = true ↔ ∃ v, map_get m k = Some v.
Proof. unfold map_has. rewrite bool_decide_eq_true. done. Qed.

Lemma map_get_delete_eq m k : map_get (map_delete k m) k = None.
Proof.
  unfold map_get, map_delete. induction m as [|[k' v'] m IH]; simpl; [done|].
  destruct (strict_eq k' k) eqn:E; simpl; [done|]. by rewrite E.
Qed.

Lemma map_get_delete_ne m k k' :
  strict_eq k k' = false → map_get (map_delete k m) k' = map_get m k'.
Proof.
  intros Hne. unfold map_get, map_delete.
  induction m as [|[k1 v1] m IH]; simpl; [done|].
  destruct (strict_eq k1 k) eqn:E; simpl.
  - destruct (strict_eq k1 k') eqn:E'; [|done].
    exfalso. rewrite strict_eq_sym in E.
    pose proof (strict_eq_trans _ _ _ E E') as Ht. congruence.
  - destruct (strict_eq k1 k'); [done|]. apply IH.
Qed.

Lemma map_delete_absent m k : map_get m k = None → map_delete k m = m.
Proof.
  unfold map_get, map_delete. induction m as [|[k' v'] m IH]; simpl; [done|].
  destruct (strict_eq k' k) eqn:E; simpl; [done|].
  intros Hn. by rewrite IH.
Qed.

Lemma map_delete_set_fresh m k v :
  map_get m k = None → map_delete k (map_set k v m) = m.
Proof.
  unfold map_get, map_delete. induction m as [|[k' v'] m IH]; simpl.
  - by rewrite strict_eq_refl.
  - destruct (strict_eq k' k) eqn:E; simpl; [done|].
    intros Hn. rewrite E. simpl. by rewrite IH.
Qed.

Lemma map_set_fresh m k v : map_get m k = None → map_set k v m = (m ++ [(k, v)])%list.
Proof.
  unfold map_get. induction m as [|[k' v'] m IH]; simpl; [done|].
  destruct (strict_eq k' k) eqn:E; simpl; [done|].
  intros Hn. by rewrite IH.
Qed.

Lemma map_set_length_present m k v v0 :
  map_get m k = Some v0 → length (map_set k v m) = length m.
Proof.
  unfold map_get. induction m as [|[k' v'] m IH]; simpl; [done|].
  destruct (strict_eq k' k) eqn:E; simpl; [done|].
  intros Hn. by rewrite IH.
Qed.

Lemma map_set_keys_present m k v v0 :
  map_get m k = Some v0 → map_keys (map_set k v m) = map_keys m.
Proof.
  unfold map_get, map_keys. induction m as [|[k' v'] m IH]; simpl; [done|].
  destruct (strict_eq k' k) eqn:E; simpl; [done|].
  intros Hn. f_equal. by apply IH.
Qed.

Lemma map_delete_length m k :
  distinctKeys m = true →
  length (map_delete k m) = (length m - (if map_has m k then 1 else 0))%nat.
Proof.
  induction m as [|[k' v'] m IH]; simpl; [done|].
  intros [Hf Hd]%andb_true_iff. apply negb_true_iff in Hf.
  unfold map_delete in *. simpl.
  destruct (strict_eq k' k) eqn:E; simpl.
  - assert (map_has ((k', v') :: m) k = true) as ->.
    { apply map_has_true. exists v'. unfold map_get. simpl. by rewrite E. }
    assert (map_get m k = None) as Hn.
    { apply map_has_false in Hf. unfold map_get in *.
      destruct (List.find (λ kv, strict_eq kv.1 k) m) as [[k2 v2]|] eqn:Ef; [|done].
      apply find_some in Ef as [Hin Heq]. simpl in Heq.
      assert (strict_eq k2 k' = true) as Hk.
      { rewrite (strict_eq_sym k' k) in E. eapply strict_eq_trans; [exact Heq|done]. }
      assert (List.find (λ kv, strict_eq kv.1 k') m ≠ None) as Hne.
      { intros Hno. eapply find_none in Hno; [|exact Hin]. simpl in Hno. congruence. }
      destruct (List.find (λ kv, strict_eq kv.1 k') m); done. }
    pose proof (map_delete_absent m k Hn) as Hdel. unfold map_delete in Hdel.
    rewrite Hdel. lia.
  - rewrite IH by done.
    assert (map_has ((k', v') :: m) k = map_has m k) as ->.
    { unfold map_has, map_get. simpl. by rewrite E. }
    destruct (map_has m k) eqn:Eh; [|lia].
    apply map_has_true in Eh as [v Hv]. unfold map_get in Hv.
    destruct m; [done|]. simpl. lia.
Qed.

Lemma distinctKeys_set m k v : distinctKeys m = true → distinctKeys (map_set k v m) = true.
Proof.
  induction m as [|[k' v'] m IH]; simpl; [done|].
  intros [Hf Hd]%andb_true_iff.
  destruct (strict_eq k' k) eqn:E; simpl.
  - by rewrite Hf, Hd.
  - rewrite IH by done. rewrite andb_true_r.
    apply negb_true_iff, map_has_false. apply negb_true_iff, map_has_false in Hf.
    rewrite map_get_set_ne; [done|]. by rewrite strict_eq_sym.
Qed.

Lemma distinctKeys_delete m k : distinctKeys m = true → distinctKeys (map_delete k m) = true.
Proof.
  induction m as [|[k' v'] m IH]; simpl; [done|].
  intros [Hf Hd]%andb_true_iff. unfold map_delete in *. simpl.
  destruct (strict_eq k' k) eqn:E; simpl; [by apply IH|].
  rewrite IH by done. rewrite andb_true_r.
  apply negb_true_iff, map_has_false. apply negb_true_iff, map_has_false in Hf.
  pose proof (map_get_delete_ne m k k') as Hx. unfold map_delete in Hx.
  rewrite Hx; [done|]. by rewrite strict_eq_sym.
Qed.

End MapDeleteFacts.

(** *** Deleting, inserting, updating and replacing, on an initialized store *)

Section CrudLaws.
Context `{Builtins} `{Faker} `{Persistence} `{AIProvider} `{Relations}.

Lemma delete_spec this id w :
  initialized (stores w this) = true →
  ∃ w', delete this id w = (Ok (map_has (data (stores w this)) id), w')
    ∧ data (stores w' this) = map_delete id (data (stores w this))
    ∧ initialized (stores w' this) = true.
Proof.
  intros Hi. unfold delete.
  erewrite bind_ok by (by apply initialize_initialized).
  run. destruct (map_has _ _).
  - rewrite persistDelete_absorbs. eexists. split; [reflexivity|]. simpl.
    rewrite decide_True by done. done.
  - eexists. split; [reflexivity|]. simpl.
    rewrite decide_True by done. done.
Qed.

Lemma exists_spec this id w :
  initialized (stores w this) = true →
  exists_ this id w = (Ok (map_has (data (stores w this)) id), w).
Proof.
  intros Hi. unfold exists_.
  erewrite bind_ok by (by apply initialize_initialized). reflexivity.
Qed.

Lemma count_all_spec this w :
  initialized (stores w this) = true →
  count this None w = (Ok (Z.of_nat (length (data (stores w this)))), w).
Proof.
  intros Hi. unfold count.
  erewrite bind_ok by (by apply initialize_initialized). reflexivity.
Qed.

Lemma toArray_spec this w :
  initialized (stores w this) = true →
  toArray this w = (Ok (map_values (data (stores w this))), w).
Proof.
  intros Hi. unfold toArray.
  erewrite bind_ok by (by apply initialize_initialized). reflexivity.
Qed.

(** [delete] answers whether the id was there; afterwards the id is
    gone, every other id is found as before, and the number of records
    has gone down by one exactly when the answer was yes.  Deleting an
    id that is not there leaves the records as they were. *)
Theorem delete_forgets_that_id_only this id w :
  initialized (stores w this) = true →
  ∃ w', delete this id w = (Ok (map_has (data (stores w this)) id), w')
    ∧ findById this id w' = (Ok None, w')
    ∧ exists_ this id w' = (Ok false, w')
    ∧ (∀ id', strict_eq id id' = false →
         findById this id' w' = (Ok (map_get (data (stores w this)) id'), w'))
    ∧ (map_has (data (stores w this)) id = false →
         data (stores w' this) = data (stores w this))
    ∧ (distinctKeys (data (stores w this)) = true →
         count this None w'
         = (Ok (Z.of_nat (length (data (stores w this)))
                - (if map_has (data (stores w this)) id then 1 else 0))%Z, w')).
Proof.
  intros Hi. destruct (delete_spec this id w Hi) as (w' & Hdel & Hd & Hi').
  exists w'. split; [exact Hdel|].
  split; [by rewrite findById_spec, Hd, map_get_delete_eq|].
  split.
  { rewrite exists_spec, Hd by done. f_equal. f_equal.
    apply map_has_false, map_get_delete_eq. }
  split.
  { intros id' Hne. by rewrite findById_spec, Hd, map_get_delete_ne. }
  split.
  { intros Hno. rewrite Hd. by apply map_delete_absent, map_has_false. }
  intros Hk. rewrite count_all_spec, Hd, map_delete_length by done.
  f_equal. f_equal.
  destruct (map_has (data (stores w this)) id) eqn:Eh; [|lia].
  apply map_has_true in Eh as [v Hv]. unfold map_get in Hv.
  destruct (data (stores w this)); [done|]. simpl length. lia.
Qed.

(** Inserting an item under an id that the store does not hold and
    deleting that id again gives back the records one started from. *)
Theorem insert_then_delete_restores this item w :
  initialized (stores w this) = true →
  map_get (data (stores w this)) (get (inserted w item) "id") = None →
  ∃ r w1 w2,
    insert this item w = (Ok r, w1)
    ∧ delete this (get r "id") w1 = (Ok true, w2)
    ∧ data (stores w2 this) = data (stores w this).
Proof.
  intros Hi Hfresh.
  destruct (insert_spec this item w Hi) as (w1 & Hins & Hd1 & Hi1).
  destruct (delete_spec this (get (inserted w item) "id") w1 Hi1) as (w2 & Hdel & Hd2 & _).
  exists (inserted w item), w1, w2. split; [exact Hins|]. split.
  - rewrite Hdel. f_equal. f_equal. apply map_has_true.
    eexists. rewrite Hd1. apply map_get_set_eq.
  - rewrite Hd2, Hd1. by apply map_delete_set_fresh.
Qed.

(** [insert] never refuses an id: under an id the store does not hold
    the item becomes the last record; under an id the store holds it
    takes the place of the record that was there, and the ids of the
    store and their order stay what they were. *)
Theorem insert_appends_or_overwrites this item w :
  initialized (stores w this) = true →
  ∃ r w', insert this item w = (Ok r, w')
    ∧ (map_get (data (stores w this)) (get r "id") = None →
         toArray this w' = (Ok (map_values (data (stores w this)) ++ [r])%list, w'))
    ∧ (∀ old, map_get (data (stores w this)) (get r "id") = Some old →
         map_keys (data (stores w' this)) = map_keys (data (stores w this))
         ∧ count this None w' = (Ok (Z.of_nat (length (data (stores w this)))), w')
         ∧ findById this (get r "id") w' = (Ok (Some r), w')).
Proof.
  intros Hi. destruct (insert_spec this item w Hi) as (w' & Hins & Hd & Hi').
  exists (inserted w item), w'. split; [exact Hins|]. split.
  - intros Hfresh. rewrite toArray_spec, Hd, map_set_fresh by done.
    unfold map_values. by rewrite fmap_app.
  - intros old Hold. split; [|split].
    + rewrite Hd. by eapply map_set_keys_present.
    + rewrite count_all_spec, Hd by done. by erewrite map_set_length_present.
    + by rewrite findById_spec, Hd, map_get_set_eq.
Qed.

(** [update] merges and [replace] overwrites: of a field other than
    [id], [createdAt] and [updatedAt], the updated record has the
    payload's value if the payload has the field and the stored value
    otherwise, while the replaced record has the field only if the
    payload has it. *)
Theorem update_merges_replace_overwrites this id existing payload w k :
  initialized (stores w this) = true →
  map_get (data (stores w this)) id = Some existing →
  k ≠ "id" → k ≠ "createdAt" → k ≠ "updatedAt" →
  (∃ r w', update this id payload w = (Ok (Some r), w')
     ∧ findById this id w' = (Ok (Some r), w')
     ∧ r !! k = match payload !! k with
                | Some v => Some v
                | None => existing !! k
                end)
  ∧ (∃ r w', replace this id payload w = (Ok (Some r), w')
       ∧ findById this id w' = (Ok (Some r), w')
       ∧ r !! k = payload !! k).
Proof.
  intros Hi Hg Hn1 Hn2 Hn3. split.
  - destruct (update_spec this id existing payload w Hi Hg) as (w' & Hu & Hs & Hi').
    eexists _, w'. split; [exact Hu|].
    split; [by rewrite findById_spec, Hs, map_get_set_eq|].
    unfold JS.set, spread2. rewrite !lookup_insert_ne by done.
    rewrite lookup_union. by destruct (payload !! k), (existing !! k).
  - destruct (replace_spec this id existing payload w Hi Hg) as (w' & Hu & Hs & Hi').
    eexists _, w'. split; [exact Hu|].
    split; [by rewrite findById_spec, Hs, map_get_set_eq|].
    unfold JS.set. by rewrite !lookup_insert_ne.
Qed.

Lemma update_absent this id payload w :
  initialized (stores w this) = true →
  map_get (data (stores w this)) id = None →
  update this id payload w = (Ok None, w).
Proof.
  intros Hi Hg. unfold update.
  erewrite bind_ok by (by apply initialize_initialized). run. by rewrite Hg.
Qed.

Lemma replace_absent this id payload w :
  initialized (stores w this) = true →
  map_get (data (stores w this)) id = None →
  replace this id payload w = (Ok None, w).
Proof.
  intros Hi Hg. unfold replace.
  erewrite bind_ok by (by apply initialize_initialized). run. by rewrite Hg.
Qed.

(** [update] and [replace] never create a record: for an id that the
    store does not hold they return [null] and change nothing. *)
Theorem update_replace_absent_id this id payload w :
  initialized (stores w this) = true →
  map_get (data (stores w this)) id = None →
  update this id payload w = (Ok None, w)
  ∧ replace this id payload w = (Ok None, w).
Proof.
  intros Hi Hg. split; [by apply update_absent|by apply replace_absent].
Qed.

(** [clear] drops every record whatever the persistence layer does,
    and leaves the [initialized] mark as it was: a store that was
    initialized stays empty for the reads that follow. *)
Theorem clear_empties_and_keeps_the_mark this w :
  ∃ w', clear this w = (Ok tt, w')
    ∧ data (stores w' this) = []
    ∧ initialized (stores w' this) = initialized (stores w this)
    ∧ (∀ p, p ≠ this → stores w' p = stores w p)
    ∧ (initialized (stores w this) = true →
         toArray this w' = (Ok [], w')
         ∧ count this None w' = (Ok 0%Z, w')
         ∧ ∀ id, findById this id w' = (Ok None, w')).
Proof.
  unfold clear. run. rewrite persist_absorbs.
  eexists. split; [reflexivity|]. simpl. rewrite decide_True by done. simpl.
  split; [done|]. split; [done|]. split.
  { intros p Hp. by rewrite decide_False. }
  intros Hi. split; [|split].
  - rewrite toArray_spec; simpl; rewrite decide_True by done; done.
  - rewrite count_all_spec; simpl; rewrite decide_True by done; done.
  - intros id. rewrite findById_spec; simpl; rewrite decide_True by done; done.
Qed.

End CrudLaws.

(** *** The shape of the map of a store *)

Lemma distinctKeys_withItems items (m : JS.map record) :
  distinctKeys m = true → distinctKeys (withItems items m) = true.
Proof.
  unfold withItems. revert m. induction items as [|item items IH]; intros m Hm.
  - done.
  - simpl. by apply IH, distinctKeys_set.
Qed.

Section KeyingLaws.
Context `{Builtins} `{Faker} `{Persistence} `{AIProvider} `{Relations}.

(** A store whose records sit under their own ids, no id twice, is
    again such a store after [insert], [update], [replace] and
    [delete], whatever their arguments are, and after it has been
    seeded. *)
Theorem mutations_keep_the_store_keyed this w :
  keyedById (data (stores w this)) = true →
  distinctKeys (data (stores w this)) = true →
  (initialized (stores w this) = true →
     (∀ item,
        keyedById (data (stores (insert this item w).2 this)) = true
        ∧ distinctKeys (data (stores (insert this item w).2 this)) = true)
     ∧ (∀ id updates,
          keyedById (data (stores (update this id updates w).2 this)) = true
          ∧ distinctKeys (data (stores (update this id updates w).2 this)) = true)
     ∧ (∀ id item,
          keyedById (data (stores (replace this id item w).2 this)) = true
          ∧ distinctKeys (data (stores (replace this id item w).2 this)) = true)
     ∧ (∀ id,
          keyedById (data (stores (delete this id w).2 this)) = true
          ∧ distinctKeys (data (stores (delete this id w).2 this)) = true))
  ∧ (initialized (stores w this) = false →
       ∀ pools w', initializeWithFKIntegrity this pools w = (Ok tt, w') →
                   keyedById (data (stores w' this)) = true
                   ∧ distinctKeys (data (stores w' this)) = true).
Proof.
  intros Hk Hd. split.
  - intros Hi. split; [|split; [|split]].
    + intros item. split; [by apply insert_keeps_keyed|].
      destruct (insert_spec this item w Hi) as (w' & Hu & Hs & _).
      rewrite Hu. simpl. rewrite Hs. by apply distinctKeys_set.
    + intros id updates.
      destruct (map_get (data (stores w this)) id) as [existing|] eqn:Hg.
      * split; [by eapply update_keeps_keyed|].
        destruct (update_spec this id existing updates w Hi Hg) as (w' & Hu & Hs & _).
        rewrite Hu. simpl. rewrite Hs. by apply distinctKeys_set.
      * by rewrite update_absent.
    + intros id item.
      destruct (map_get (data (stores w this)) id) as [existing|] eqn:Hg.
      * split; [by eapply replace_keeps_keyed|].
        destruct (replace_spec this id existing item w Hi Hg) as (w' & Hu & Hs & _).
        rewrite Hu. simpl. rewrite Hs. by apply distinctKeys_set.
      * by rewrite replace_absent.
    + intros id. destruct (delete_spec this id w Hi) as (w' & Hu & Hs & _).
      rewrite Hu. simpl. rewrite Hs.
      split; [by apply keyedById_delete|by apply distinctKeys_delete].
  - intros Hi pools w' Hrun.
    destruct (initializeWithFKIntegrity_run _ _ _ _ _ Hi Hrun)
      as (_ & seedData & w1 & _ & Hdata & _).
    rewrite Hdata. split; [by apply keyedById_withItems|by apply distinctKeys_withItems].
Qed.

End KeyingLaws.

(** *** Filters *)

Section FilterLaws.
Context `{Builtins}.

Lemma every_app {A} (p : A → outcome bool) l1 l2 :
  every p (l1 ++ l2)
  = match every p l1 with
    | Ok true => every p l2
    | other => other
    end.
Proof.
  induction l1 as [|x l1 IH]; simpl; [by destruct (every p l2) as [[]|]|].
  destruct (p x) as [[]|]; [apply IH|done|done].
Qed.

Lemma filterItems_sublist {A} (p : A → outcome bool) l kept :
  filterItems p l = Ok kept → sublist kept l.
Proof.
  revert kept. induction l as [|x l IH]; simpl; intros kept.
  - by intros [= <-].
  - destruct (p x) as [b|]; [|done].
    destruct (filterItems p l) as [r|]; [|done]. intros [= <-].
    destruct b; [apply sublist_skip|apply sublist_cons]; by apply IH.
Qed.

(** The filter only thins the items out, in their order; the entries
    of a filter act one after the other, so that filtering by two
    filters joined is filtering by the first and then by the second;
    and a filter without entries keeps every item. *)
Theorem filters_thin_out_and_compose items :
  (∀ f kept, applyFilters items f = Ok kept → sublist kept items)
  ∧ (∀ f1 f2 kept,
       applyFilters items (f1 ++ f2) = Ok kept →
       ∃ first, applyFilters items f1 = Ok first
                ∧ applyFilters first f2 = Ok kept)
  ∧ applyFilters items [] = Ok items.
Proof.
  split; [|split].
  - intros f kept. apply filterItems_sublist.
  - unfold applyFilters. induction items as [|x items IH]; simpl; intros f1 f2 kept.
    + intros [= <-]. by exists [].
    + rewrite every_app.
      destruct (every (matchesEntry x) f1) as [[]|] eqn:E1; [| |done].
      * destruct (every (matchesEntry x) f2) as [b2|] eqn:E2; [|done].
        destruct (filterItems _ items) as [r|] eqn:Er; [|done]. intros [= <-].
        destruct (IH f1 f2 r Er) as (first & Hfirst & Hsecond).
        rewrite Hfirst. eexists. split; [done|]. simpl. rewrite E2, Hsecond. done.
      * destruct (filterItems _ items) as [r|] eqn:Er; [|done]. intros [= <-].
        destruct (IH f1 f2 r Er) as (first & Hfirst & Hsecond).
        rewrite Hfirst. eexists. split; [done|]. done.
  - unfold applyFilters. induction items as [|x items IH]; [done|].
    cbn [filterItems]. by rewrite IH.
Qed.

End FilterLaws.

(** *** Sorting *)

Section SortFacts.
Context {A : Type} (cmp : A → A → Z).

Lemma sort_insert_perm x l : sort_insert cmp x l ≡ₚ x :: l.
Proof.
  induction l as [|y l IH]; simpl; [done|].
  destruct (cmp x y <=? 0)%Z; [done|].
  rewrite IH. apply Permutation_swap.
Qed.

Lemma sort_perm l : JS.sort cmp l ≡ₚ l.
Proof.
  unfold JS.sort. induction l as [|x l IH]; simpl; [done|].
  by rewrite sort_insert_perm, IH.
Qed.

Lemma sort_length l : length (JS.sort cmp l) = length l.
Proof. by rewrite sort_perm. Qed.

End SortFacts.

Section SortingLaws.
Context `{Builtins}.

Lemma compareBy_numbers k order a b :
  hasNumberAt k a = true → hasNumberAt k b = true →
  (compareBy k order a b <=? 0)%Z
  = if String.eqb order "asc"
    then bool_decide (numberAt k a ≤ numberAt k b)%Qc
    else bool_decide (numberAt k b ≤ numberAt k a)%Qc.
Proof.
  unfold hasNumberAt, numberAt, compareBy.
  destruct (get a k) as [| | |x| | | |]; try done.
  destruct (get b k) as [| | |y| | | |]; try done. intros _ _.
  simpl. unfold JS.gt, abstract_lt. simpl.
  destruct (decide (x = y)) as [->|Hne].
  - rewrite bool_decide_eq_true_2 by done. simpl.
    rewrite !bool_decide_eq_true_2 by apply Qcle_refl. by destruct (String.eqb _ _).
  - rewrite bool_decide_eq_false_2 by done.
    destruct (decide (y < x)%Qc) as [Hlt|Hge].
    + rewrite (bool_decide_eq_true_2 (y < x)%Qc) by done.
      destruct (String.eqb order "asc"); simpl.
      * symmetry. apply bool_decide_eq_false_2. by apply Qclt_not_le.
      * symmetry. apply bool_decide_eq_true_2. by apply Qclt_le_weak.
    + rewrite (bool_decide_eq_false_2 (y < x)%Qc) by done.
      apply Qcnot_lt_le in Hge.
      destruct (String.eqb order "asc"); simpl.
      * symmetry. by apply bool_decide_eq_true_2.
      * symmetry. apply bool_decide_eq_false_2. intros Hyx.
        apply Hne. by apply Qcle_antisym.
Qed.

(** [applySorting] neither loses nor duplicates an item.  On items
    that all have a number under the sort key, the result is in
    ascending order of that number when the order is ['asc'], and in
    descending order for every other order. *)
Theorem sorting_permutes_and_orders items k order :
  applySorting items k order ≡ₚ items
  ∧ (forallb (hasNumberAt k) items = true →
       StronglySorted
         (fun a b => if String.eqb order "asc"
                     then (numberAt k a ≤ numberAt k b)%Qc
                     else (numberAt k b ≤ numberAt k a)%Qc)
         (applySorting items k order)).
Proof.
  split; [apply sort_perm|].
  unfold applySorting, JS.sort. induction items as [|x items IH]; simpl.
  - intros _. constructor.
  - intros [Hx Hall]%andb_true_iff.
    assert (∀ y, y ∈ foldr (sort_insert (compareBy k order)) [] items →
                 hasNumberAt k y = true) as Hnum.
    { intros y Hy. fold (JS.sort (compareBy k order) items) in Hy.
      rewrite sort_perm in Hy. rewrite forallb_forall in Hall.
      apply Hall. by apply list_elem_of_In. }
    specialize (IH Hall). revert IH Hnum.
    generalize (foldr (sort_insert (compareBy k order)) [] items). intros l Hs Hnum.
    induction l as [|y l IHl]; simpl.
    + constructor; [constructor|constructor].
    + apply StronglySorted_inv in Hs as [Hs Hally].
      assert (hasNumberAt k y = true) as Hy by (apply Hnum; left).
      rewrite compareBy_numbers by done.
      destruct (String.eqb order "asc") eqn:Eo.
      * destruct (decide (numberAt k x ≤ numberAt k y)%Qc) as [Hle|Hgt].
        -- rewrite bool_decide_eq_true_2 by done.
           constructor; [by constructor|]. constructor; [done|].
           eapply Forall_impl; [exact Hally|]. intros z Hz. simpl in *.
           by eapply Qcle_trans.
        -- rewrite bool_decide_eq_false_2 by done.
           constructor.
           ++ apply IHl; [done|]. intros z Hz. apply Hnum. by right.
           ++ rewrite sort_insert_perm. constructor; [|done].
              apply Qclt_le_weak. by apply Qcnot_le_lt.
      * destruct (decide (numberAt k y ≤ numberAt k x)%Qc) as [Hle|Hgt].
        -- rewrite bool_decide_eq_true_2 by done.
           constructor; [by constructor|]. constructor; [done|].
           eapply Forall_impl; [exact Hally|]. intros z Hz. simpl in *.
           by eapply Qcle_trans.
        -- rewrite bool_decide_eq_false_2 by done.
           constructor.
           ++ apply IHl; [done|]. intros z Hz. apply Hnum. by right.
           ++ rewrite sort_insert_perm. constructor; [|done].
              apply Qclt_le_weak. by apply Qcnot_le_lt.
Qed.

End SortingLaws.

(** *** Counting and paging *)

Lemma slice_length_le {A} (l : list A) (start stop : Z) :
  (length (slice l start stop) ≤ length l)%nat.
Proof. unfold slice. rewrite length_take, length_drop. lia. Qed.

Lemma pages_concat {A} (l : list A) (size n : nat) :
  concat ((fun i => take size (drop (i * size) l)) <$> seq 0 n) = take (n * size) l.
Proof.
  induction n as [|n IH]; [done|].
  rewrite seq_S, fmap_app, concat_app, IH. simpl. rewrite app_nil_r.
  rewrite take_take_drop. f_equal. lia.
Qed.

Section QueryLaws.
Context `{Builtins} `{Faker} `{Persistence} `{AIProvider} `{Relations}
        `{CollectionMeta}.

Lemma query_run this options w :
  initialized (stores w this) = true →
  query this options None w
  = match filterStep options (map_values (data (stores w this))) with
    | Ok filtered =>
        let sorted := sortStep options filtered in
        let page := number_or (page options) 1 in
        let limit := number_or (limit options) 20 in
        (Ok (Paginated
               (slice sorted ((page - 1) * limit) ((page - 1) * limit + limit))
               {| pg_page := page; pg_limit := limit;
                  pg_total := Z.of_nat (length sorted);
                  pg_totalPages := ceil_div (Z.of_nat (length sorted)) limit |}), w)
    | Throw e => (Throw e, w)
    end.
Proof.
  intros Hi. unfold query. erewrite bind_ok by (by apply initialize_initialized).
  unfold filterStep. run.
  destruct (filter options) as [f|]; [|reflexivity].
  destruct (applyFilters _ f); reflexivity.
Qed.

Lemma sortStep_length options items : length (sortStep options items) = length items.
Proof.
  unfold sortStep. destruct (sortBy options) as [s|]; [|done].
  destruct (String.eqb s EmptyString); [done|]. apply sort_length.
Qed.

Lemma count_run this f w :
  initialized (stores w this) = true →
  count this f w
  = match f with
    | None => (Ok (Z.of_nat (length (data (stores w this)))), w)
    | Some f =>
        match applyFilters (map_values (data (stores w this))) f with
        | Ok filtered => (Ok (Z.of_nat (length filtered)), w)
        | Throw e => (Throw e, w)
        end
    end.
Proof.
  intros Hi. unfold count. erewrite bind_ok by (by apply initialize_initialized).
  run. destruct f as [f|]; [|reflexivity].
  destruct (applyFilters _ f); reflexivity.
Qed.

(** [count(filter)] is the [total] that [query] reports for the same
    filter, whatever the sorting, the page and the limit are; a page
    never holds more items than that; and the two fail together. *)
Theorem count_is_the_total_of_query this options w :
  initialized (stores w this) = true →
  (∀ items pagination w',
     query this options None w = (Ok (Paginated items pagination), w') →
     count this (filter options) w = (Ok (pg_total pagination), w)
     ∧ (Z.of_nat (length items) ≤ pg_total pagination)%Z)
  ∧ (∀ e w', query this options None w = (Throw e, w') →
       count this (filter options) w = (Throw e, w)).
Proof.
  intros Hi. rewrite query_run, count_run by done. unfold filterStep.
  destruct (filter options) as [f|].
  - destruct (applyFilters _ f) as [filtered|e]; split; try done.
    + intros items pg w' [= <- <- <-]. simpl. rewrite sortStep_length.
      split; [done|]. pose proof (slice_length_le (sortStep options filtered)
        ((number_or (page options) 1 - 1) * number_or (limit options) 20)
        ((number_or (page options) 1 - 1) * number_or (limit options) 20
         + number_or (limit options) 20)) as Hle.
      rewrite sortStep_length in Hle. lia.
    + by intros e' w' [= <- <-].
  - split; [|done].
    intros items pg w' [= <- <- <-]. simpl. rewrite sortStep_length.
    unfold map_values. rewrite length_fmap. split; [done|].
    pose proof (slice_length_le (sortStep options (snd <$> data (stores w this)))
        ((number_or (page options) 1 - 1) * number_or (limit options) 20)
        ((number_or (page options) 1 - 1) * number_or (limit options) 20
         + number_or (limit options) 20)) as Hle.
    rewrite sortStep_length, length_fmap in Hle. lia.
Qed.

(** The pages of a query, read one after the other from page 1 to
    page [totalPages], make up the filtered and sorted items: nothing
    is skipped and nothing comes twice. *)
Theorem pages_make_up_the_result this options w filtered :
  initialized (stores w this) = true →
  filterStep options (map_values (data (stores w this))) = Ok filtered →
  (1 ≤ number_or (limit options) 20)%Z →
  concat ((fun p => itemsOf (query this (onPage p options) None w).1)
            <$> seqZ 1 (ceil_div (Z.of_nat (length filtered))
                                 (number_or (limit options) 20)))
  = sortStep options filtered.
Proof.
  intros Hi Hf Hl.
  set (size := number_or (limit options) 20) in *.
  set (sorted := sortStep options filtered).
  pose proof (ceil_div_bounds (Z.of_nat (length filtered)) size ltac:(lia)) as Hc.
  set (n := ceil_div (Z.of_nat (length filtered)) size) in *.
  assert (0 ≤ n)%Z as Hn by nia.
  assert (∀ p, (1 ≤ p)%Z →
            itemsOf (query this (onPage p options) None w).1
            = take (Z.to_nat size) (drop (Z.to_nat (p - 1) * Z.to_nat size) sorted))
    as Hpage.
  { intros p Hp. rewrite query_run by done.
    change (filterStep (onPage p options)) with (filterStep options).
    rewrite Hf. cbv zeta. cbn [fst itemsOf].
    change (sortStep (onPage p options) filtered) with sorted.
    change (page (onPage p options)) with (Some p).
    change (limit (onPage p options)) with (limit options).
    assert (number_or (Some p) 1 = p) as ->.
    { simpl. destruct (Z.eqb_spec p 0); [lia|done]. }
    fold size. rewrite slice_page by done. do 2 f_equal. nia. }
  unfold seqZ. rewrite <- list_fmap_compose.
  erewrite (list_fmap_ext _ (fun i => take (Z.to_nat size) (drop (i * Z.to_nat size) sorted))).
  - rewrite pages_concat. apply take_ge. subst sorted.
    rewrite sortStep_length. nia.
  - intros i x Hix. simpl. rewrite Hpage by lia. do 3 f_equal. lia.
Qed.

End QueryLaws.

(** *** What initialization leaves behind *)

Section InitializationLaws.
Context `{Builtins} `{Faker} `{Persistence} `{AIProvider} `{Relations}.

(** Whenever [initialize] returns, the store is marked as
    initialized, so that the next call does nothing. *)
Theorem initialize_marks_the_store this w w' :
  initialize this w = (Ok tt, w') →
  initialized (stores w' this) = true ∧ initialize this w' = (Ok tt, w').
Proof.
  intros Hrun.
  assert (initialized (stores w' this) = true) as Hi;
    [|split; [done|by apply initialize_initialized]].
  revert Hrun. unfold initialize. unfold bind at 1. unfold self at 1, gets.
  destruct (initialized (stores w this)) eqn:Hi0.
  { by intros [= <-]. }
  unfold bind at 1.
  destruct (initializeAllCollections w) as [[[]|e] w1]; [|done].
  unfold bind at 1. unfold self, gets.
  destruct (initialized (stores w1 this)) eqn:Hi1; simpl.
  { by intros [= <-]. }
  intros Hfk.
  destruct (initializeWithFKIntegrity_run this ∅ w1 (Ok tt) w' Hi1 Hfk)
    as (_ & seedData & w2 & _ & _ & Hdone).
  exact Hdone.
Qed.

Lemma seedLoop_initializes reg names :
  ∀ avail w w',
    seedLoop reg names avail w = (Ok tt, w') →
    (∀ p, initialized (stores w p) = true → stores w' p = stores w p)
    ∧ (∀ n m p, n ∈ names → reg !! n = Some m → store m = Some p →
                initialized (stores w' p) = true).
Proof.
  induction names as [|n names IH]; intros avail w w'.
  - simpl. intros [= <-]. split; [done|]. intros n m p Hn. by apply not_elem_of_nil in Hn.
  - rewrite seedLoop_cons.
    destruct (seedCollection reg avail n w) as [[avail1|e] w1] eqn:Hstep; [|done].
    intros Hrest. destruct (IH avail1 w1 w' Hrest) as [Hkeep Hall].
    assert (∀ p, initialized (stores w p) = true → stores w1 p = stores w p) as Hkeep1.
    { intros p Hp.
      destruct (seedCollection_dichotomy reg avail n w) as [Hskip|(m & p0 & Hm & Hp0 & Hi0)].
      - rewrite Hskip in Hstep. by injection Hstep as _ <-.
      - destruct (seedCollection_seeds reg avail n w m p0 _ _ Hm Hp0 Hi0 Hstep)
          as [(_ & _ & Hothers) _].
        apply Hothers. intros ->. congruence. }
    split.
    + intros p Hp. rewrite Hkeep; [by apply Hkeep1|]. by rewrite Hkeep1.
    + intros n' m p Hn' Hm Hp. apply elem_of_cons in Hn' as [->|Hn'];
        [|by eapply Hall].
      destruct (initialized (stores w p)) eqn:Hi0.
      * rewrite Hkeep; [by rewrite Hkeep1|]. by rewrite Hkeep1.
      * destruct (seedCollection_seeds reg avail n w m p _ _ Hm Hp Hi0 Hstep)
          as [_ (_ & Hi1 & _)].
        by rewrite Hkeep.
Qed.

(** A pass of [initializeAllCollections] that returns leaves every
    store of the seed order initialized, and leaves the stores that
    were initialized before it as they were. *)
Theorem initializeAll_initializes_the_seed_order w w' :
  isInitializingAll w = false →
  initializeAllCollections w = (Ok tt, w') →
  (∀ n m p, n ∈ getCollectionSeedOrder (registry w) →
            registry w !! n = Some m → store m = Some p →
            initialized (stores w' p) = true)
  ∧ (∀ p, initialized (stores w p) = true → stores w' p = stores w p).
Proof.
  intros Hflag. unfold initializeAllCollections. run. rewrite Hflag.
  destruct (seedLoop _ _ _ _) as [r wf] eqn:Hloop. intros [= -> <-].
  change (registry (with_flag true w)) with (registry w) in Hloop.
  destruct (seedLoop_initializes _ _ _ _ _ Hloop) as [Hkeep Hall].
  split.
  - intros n m p Hn Hm Hp. simpl. by eapply Hall.
  - intros p Hp. simpl. by apply Hkeep.
Qed.

End InitializationLaws.

(** *** A pass that fails *)

Section FailedPass.
Context `{Builtins} `{Faker} `{Persistence} `{AIProvider} `{Relations}.

Lemma seedCollection_throws reg avail n w e w' :
  seedCollection reg avail n w = (Throw e, w') →
  ∃ m p, reg !! n = Some m ∧ store m = Some p
         ∧ initialized (stores w p) = false
         ∧ ∀ q, stores w' q = stores w q.
Proof.
  unfold seedCollection.
  destruct (reg !! n) as [m|] eqn:Hm; [|done].
  destruct (store m) as [p|] eqn:Hp; [|done].
  unfold bind at 1. unfold self at 1, gets.
  destruct (initialized (stores w p)) eqn:Hi; [done|].
  unfold bind at 1. rewrite loadFromPersistence_result.
  destruct (loadFromPersistence_absorbs p w) as [r Hr]. rewrite Hr. cbn [fst].
  assert (∀ items : list record,
            (let* _ := store_items p items in
             let* _ := set_initialized p true in
             let* st' := self p in
             ret (<[n := map_keys (data st')]> avail)) w ≠ (Throw e, w')) as Hload.
  { intros items. unfold store_items. run. done. }
  assert ((let* _ := initializeWithFKIntegrity p (buildPools (relations m) avail) in
           let* st' := self p in
           ret (<[n := map_keys (data st')]> avail)) w = (Throw e, w') →
          ∀ q, stores w' q = stores w q) as Hgen.
  { unfold bind at 1.
    destruct (initializeWithFKIntegrity p _ w) as [[[]|e1] w1] eqn:Hrun;
      [run; done|].
    intros [= <- <-].
    destruct (initializeWithFKIntegrity_run _ _ _ _ _ Hi Hrun) as [(_ & _ & Ho) Hsame].
    intros q. destruct (decide (q = p)) as [->|Hq]; [done|by apply Ho]. }
  intros Hrun. exists m, p. split; [done|]. split; [done|]. split; [done|].
  destruct r as [[|item items]|]; [by apply Hgen| |by apply Hgen].
  by apply Hload in Hrun.
Qed.

Lemma seedLoop_throws reg names :
  ∀ avail w e w',
    seedLoop reg names avail w = (Throw e, w') →
    (∀ q, initialized (stores w q) = true → stores w' q = stores w q)
    ∧ ∃ n m p, n ∈ names ∧ reg !! n = Some m ∧ store m = Some p
               ∧ initialized (stores w' p) = false.
Proof.
  induction names as [|n names IH]; intros avail w e w'; [done|].
  rewrite seedLoop_cons.
  destruct (seedCollection reg avail n w) as [[avail1|e1] w1] eqn:Hstep.
  - intros Hrest. destruct (IH _ _ _ _ Hrest) as [Hkeep (n' & m & p & Hn & Hm & Hp & Hi)].
    assert (∀ q, initialized (stores w q) = true → stores w1 q = stores w q) as Hkeep1.
    { intros q Hq.
      destruct (seedCollection_dichotomy reg avail n w) as [Hskip|(m0 & p0 & Hm0 & Hp0 & Hi0)].
      - rewrite Hskip in Hstep. by injection Hstep as _ <-.
      - destruct (seedCollection_seeds reg avail n w m0 p0 _ _ Hm0 Hp0 Hi0 Hstep)
          as [(_ & _ & Hothers) _].
        apply Hothers. intros ->. congruence. }
    split.
    + intros q Hq. rewrite Hkeep; [by apply Hkeep1|]. by rewrite Hkeep1.
    + exists n', m, p. split; [by right|done].
  - intros [= <- <-].
    destruct (seedCollection_throws _ _ _ _ _ _ Hstep) as (m & p & Hm & Hp & Hi & Hsame).
    split; [intros q _; apply Hsame|].
    exists n, m, p. split; [by left|]. split; [done|]. split; [done|].
    by rewrite Hsame.
Qed.

(** A pass of [initializeAllCollections] that throws has stopped at a
    registered store of the seed order, which is left uninitialized
    (so that a later pass seeds it again); the stores that were
    initialized before the pass are as they were, and the flag is
    cleared. *)
Theorem failed_pass_stops_at_a_store w e w' :
  isInitializingAll w = false →
  initializeAllCollections w = (Throw e, w') →
  (∃ n m p, n ∈ getCollectionSeedOrder (registry w)
            ∧ registry w !! n = Some m ∧ store m = Some p
            ∧ initialized (stores w' p) = false)
  ∧ (∀ q, initialized (stores w q) = true → stores w' q = stores w q)
  ∧ isInitializingAll w' = false.
Proof.
  intros Hflag. unfold initializeAllCollections. run. rewrite Hflag.
  destruct (seedLoop _ _ _ _) as [r wf] eqn:Hloop. intros [= -> <-].
  change (registry (with_flag true w)) with (registry w) in Hloop.
  destruct (seedLoop_throws _ _ _ _ _ _ Hloop) as [Hkeep (n & m & p & Hn & Hm & Hp & Hi)].
  split; [by exists n, m, p|]. split; [|done].
  intros q Hq. simpl. by apply Hkeep.
Qed.

End FailedPass.

(** *** Seeding with Faker *)

Lemma replicateM_length {S A} n (f : M S A) s l s' :
  replicateM n f s = (Ok l, s') → length l = n.
Proof.
  revert s l s'. induction n as [|n IH]; intros s l s'; simpl.
  - by intros [= <- _].
  - run. destruct (f s) as [[a|e] s1]; [|done].
    destruct (replicateM n f s1) as [[l1|e] s2] eqn:Hrest; [|done].
    intros [= <- _]. simpl. f_equal. by eapply IH.
Qed.

Lemma replicateM_invariant {S A} (I : S → Prop) (Q : A → Prop) n (f : M S A) :
  (∀ s a s', I s → f s = (Ok a, s') → Q a ∧ I s') →
  ∀ s l s', I s → replicateM n f s = (Ok l, s') → Forall Q l ∧ I s'.
Proof.
  intros Hf. induction n as [|n IH]; intros s l s' Hs; simpl.
  - intros [= <- <-]. by split.
  - run. destruct (f s) as [[a|e] s1] eqn:Hfs; [|done].
    destruct (Hf _ _ _ Hs Hfs) as [Ha Hs1].
    destruct (replicateM n f s1) as [[l1|e] s2] eqn:Hrest; [|done].
    intros [= <- <-]. destruct (IH _ _ _ Hs1 Hrest) as [Hl Hs2].
    split; [by constructor|done].
Qed.

Lemma withItems_same_id items i :
  Forall (fun r => get r "id" = i) items →
  ∀ d : JS.map record, (d = [] ∨ ∃ r, d = [(i, r)]) →
  withItems items d = [] ∨ ∃ r, withItems items d = [(i, r)].
Proof.
  unfold withItems. induction 1 as [|x items Hx _ IH]; intros d Hd; simpl; [done|].
  apply IH. right. rewrite Hx. destruct Hd as [->|[r ->]]; simpl.
  - by eexists.
  - rewrite strict_eq_refl. by eexists.
Qed.

Section FakerSeeding.
Context `{Builtins} `{Faker} `{Persistence} `{AIProvider} `{Relations}.

Lemma generateFields_keys generate shape :
  returns (generateFields generate shape)
          (fun props => ∀ k v, (k, v) ∈ props → k ∈ shape.*1).
Proof.
  induction shape as [|[key s] shape IH]; simpl.
  - apply returns_ret. intros k v Hin. by apply not_elem_of_nil in Hin.
  - eapply returns_bind; [apply returns_any|]. intros v _.
    eapply returns_bind; [apply IH|]. intros rest Hrest.
    apply returns_ret. intros k v' Hin.
    assert ((k, v') ∈ rest ∨ k = key) as [?| ->].
    { destruct v; try (by left);
        apply elem_of_cons in Hin as [[= -> ->]|?]; auto. }
    + right. by eapply Hrest.
    + by left.
Qed.

Lemma withDefaults_stamps item t :
  returns (withDefaults item t)
          (fun r => is_Some (r !! "id")
                    ∧ r !! "updatedAt" = Some (VStr t)
                    ∧ (r !! "createdAt" = Some (VStr t)
                       ∨ ∃ c, r !! "createdAt" = Some c ∧ truthy c = true)).
Proof.
  unfold withDefaults.
  eapply returns_bind; [apply returns_any|]. intros id0 _.
  eapply returns_bind; [apply returns_any|]. intros id _.
  eapply returns_bind; [apply returns_any|]. intros c _.
  apply returns_ret. unfold JS.set.
  split; [|split].
  - rewrite !lookup_insert_ne by done. rewrite lookup_insert_eq. by eexists.
  - by rewrite lookup_insert_eq.
  - rewrite lookup_insert_ne by done. rewrite lookup_insert_eq.
    unfold or_else. destruct (truthy c) eqn:Ec; [right; by eexists|by left].
Qed.

(** Seeding with Faker makes exactly [seedCount] records, each with
    an [id], with an [updatedAt] stamp, and with a [createdAt] that is
    either that stamp or a truthy value that the generator produced. *)
Theorem faker_seeding_makes_seedCount_records this pools w items w' :
  generate_mode (config w) = "faker" →
  generateSeedData this pools w = (Ok items, w') →
  length items = seedCount (stores w this)
  ∧ Forall (fun r => is_Some (r !! "id")
                     ∧ ∃ t, r !! "updatedAt" = Some (VStr t)
                            ∧ (r !! "createdAt" = Some (VStr t)
                               ∨ ∃ c, r !! "createdAt" = Some c ∧ truthy c = true))
           items.
Proof.
  intros Hmode. rewrite generateSeedData_faker by done.
  unfold fakerSeedData. unfold bind at 1. unfold self, gets.
  intros Hrun. split; [by eapply replicateM_length|].
  revert Hrun. apply returns_replicateM.
  eapply returns_bind; [apply returns_any|]. intros item _.
  eapply returns_bind; [apply returns_any|]. intros t _.
  apply returns_lift. eapply returns_weaken; [apply withDefaults_stamps|].
  intros r (Hid & Hu & Hc). split; [done|]. by exists t.
Qed.

(** [generateWithFaker] wraps its values in an array only for a count
    above one: the array then has exactly [count] elements, while a
    count of zero gives what a count of one gives. *)
Theorem generateWithFaker_counts schema count pools w :
  ((1 < count)%nat →
     ∀ v w', generateWithFaker schema count pools w = (Ok v, w') →
             ∃ a elems, v = VArr a elems ∧ length elems = count)
  ∧ generateWithFaker schema 0 pools w = generateWithFaker schema 1 pools w.
Proof.
  split; [|reflexivity].
  intros Hc.
  assert (returns (generateWithFaker schema count pools)
            (fun v => ∃ a elems, v = VArr a elems ∧ length elems = count)) as Hret;
    [|intros v w'; apply Hret].
  apply Nat.ltb_lt in Hc. unfold generateWithFaker.
  eapply returns_bind; [apply returns_any|]. intros config _.
  apply returns_lift.
  eapply returns_bind; [apply returns_any|]. intros _ _. rewrite Hc.
  eapply returns_bind; [apply returns_any|]. intros a _.
  eapply returns_bind with (P := fun l => length l = count).
  { intros e l e'. apply replicateM_length. }
  intros elems Hlen. apply returns_ret. by exists a, elems.
Qed.

Lemma seeded_item_id k rest pools e v e' :
  "id" ∉ rest.*1 → fk_pool (Some "id") (Some pools) = None →
  (let* _ := faker_seed k in
   generateSingleValue (SObject false (("id", SPrim "uuid" false) :: rest))
                       (Some pools) None) e = (Ok v, e') →
  ∃ a props, v = VObj a props
    ∧ get (props_record props) "id" = VStr (uuid_of (seeded k 0)).
Proof.
  intros Hfresh Hpool.
  cbn [generateSingleValue optional generateFields String.eqb Ascii.eqb Bool.eqb].
  rewrite Hpool. unfold faker_seed, faker_string_uuid, faker_draw, fresh_addr. run.
  cbn [fakerDraws fakerPos].
  match goal with |- context [generateFields ?g rest ?e0] =>
    destruct (generateFields g rest e0) as [[props|err] e4] eqn:Hfields
  end; [|done].
  pose proof (generateFields_keys _ _ _ _ _ Hfields) as Hkeys.
  intros [= <- _]. eexists _, _. split; [reflexivity|].
  unfold get.
  pose proof (props_record_lookup
                (("id", VStr (uuid_of (seeded k 0))) :: props) "id") as Hl.
  destruct (props_record _ !! "id") as [v|].
  - apply elem_of_cons in Hl as [[= ->]|Hin]; [done|].
    exfalso. apply Hfresh. by eapply Hkeys.
  - exfalso. eapply Hl. by left.
Qed.

Lemma withDefaults_id a props t i :
  get (props_record props) "id" = i → truthy i = true →
  returns (withDefaults (VObj a props) t) (fun r => get r "id" = i).
Proof.
  intros Hid Ht e r e'. unfold withDefaults. cbn [get_prop]. run.
  rewrite Hid, Ht. run. intros [= <- _].
  rewrite !get_set_ne by done. by rewrite get_set_eq.
Qed.

(** With a [fakerSeed] configured, every seeded item is generated from
    the same restarted generator: when the schema starts with a
    required [uuid] field [id], all the seeded items have one and the
    same [id], and a store seeded from empty ends up with one record
    at most, whatever its [seedCount]. *)
Theorem fakerSeed_repeats_the_id this pools w w' k rest :
  fakerSeed (config w) = Some k →
  schema (stores w this) = SObject false (("id", SPrim "uuid" false) :: rest) →
  "id" ∉ rest.*1 →
  fk_pool (Some "id") (Some pools) = None →
  uuid_of (seeded k 0) ≠ EmptyString →
  generate_mode (config w) = "faker" →
  initialized (stores w this) = false →
  data (stores w this) = [] →
  initializeWithFKIntegrity this pools w = (Ok tt, w') →
  (∀ r, r ∈ map_values (data (stores w' this)) →
        get r "id" = VStr (uuid_of (seeded k 0)))
  ∧ (length (data (stores w' this)) ≤ 1)%nat.
Proof.
  intros Hseed Hschema Hfresh Hpool Huuid Hmode Hi Hd Hrun.
  destruct (initializeWithFKIntegrity_run _ _ _ _ _ Hi Hrun)
    as (_ & items & w1 & Hgen & Hdata & _).
  rewrite generateSeedData_faker in Hgen by done.
  assert (Forall (fun r => get r "id" = VStr (uuid_of (seeded k 0))) items) as Hall.
  { revert Hgen. unfold fakerSeedData. unfold bind at 1. unfold self, gets.
    rewrite Hschema. intros Hrep.
    eapply (replicateM_invariant (fun w0 => config w0 = config w)) in Hrep;
      [by destruct Hrep| |done].
    clear Hrep. intros s r s' Hs Hstep. split.
    - revert Hstep. unfold bind at 1.
      destruct (generateWithFaker _ _ _ s) as [[item|err] s1] eqn:Hg; [|done].
      unfold generateWithFaker in Hg. unfold bind at 1 in Hg.
      unfold getConfig, gets in Hg. rewrite Hs, Hseed in Hg.
      cbn [Nat.ltb Nat.leb] in Hg. unfold lift in Hg.
      match type of Hg with
        (let '(_, _) := ?g (entropy s) in _) = _ =>
          destruct (g (entropy s)) as [r0 e0] eqn:Hitem
      end.
      injection Hg as -> <-.
      apply seeded_item_id in Hitem as (a & props & -> & Hid); [|done..].
      revert r s'. eapply returns_bind; [apply returns_any|]. intros t _.
      apply returns_lift. apply withDefaults_id; [done|]. simpl.
      by destruct (String.eqb_spec (uuid_of (seeded k 0)) EmptyString).
    - assert (Entropic
                (let* item := generateWithFaker
                    (SObject false (("id", SPrim "uuid" false) :: rest)) 1
                    (Some pools) in
                 let* now := now in lift (withDefaults item now))) as Hent.
      { apply Entropic_bind.
        - unfold generateWithFaker. apply Entropic_bind; [apply Entropic_gets|].
          intros; apply Entropic_lift.
        - intros item. apply Entropic_bind; [apply Entropic_lift|].
          intros; apply Entropic_lift. }
      destruct (Hent s) as [e He]. rewrite Hstep in He. simpl in He. by subst. }
  rewrite Hdata, Hd.
  destruct (withItems_same_id items _ Hall [] ltac:(by left)) as [->|[r Hr]].
  - split; [|simpl; lia]. intros r Hr. by apply not_elem_of_nil in Hr.
  - rewrite Hr. split; [|simpl; lia].
    intros r' Hr'. simpl in Hr'. apply list_elem_of_singleton in Hr' as ->.
    pose proof (withItems_values items [] r) as Hin.
    rewrite Hr in Hin. simpl in Hin.
    destruct Hin as [Hin|Hin]; [by left| |by apply not_elem_of_nil in Hin].
    rewrite Forall_forall in Hall. by apply Hall.
Qed.

End FakerSeeding.

(** *** The shape of generated values *)

Section GeneratedShape.
Context `{Builtins} `{Faker}.

Lemma generateFields_sublist generate shape :
  returns (generateFields generate shape)
          (fun props => sublist props.*1 shape.*1).
Proof.
  induction shape as [|[key s] shape IH]; simpl.
  - by apply returns_ret.
  - eapply returns_bind; [apply returns_any|]. intros v _.
    eapply returns_bind; [apply IH|]. intros rest Hsub.
    apply returns_ret.
    destruct v; simpl; first [by apply sublist_cons | by apply sublist_skip].
Qed.

(** What [generateSingleValue] makes has the shape of the schema: for
    an array schema an array of three to five elements, for an object
    schema an object whose keys are keys of the shape, in the order of
    the shape, and for a join field [null]; only an optional schema
    can give [undefined] instead. *)
Theorem generated_values_follow_the_schema pools name :
  (∀ element,
     returns (generateSingleValue (SArray false element) pools name)
             (fun v => ∃ a elems, v = VArr a elems
                                  ∧ (3 ≤ length elems ≤ 5)%nat))
  ∧ (∀ shape,
       returns (generateSingleValue (SObject false shape) pools name)
               (fun v => ∃ a props, v = VObj a props
                                    ∧ sublist props.*1 shape.*1))
  ∧ returns (generateSingleValue (SPrim "join" false) pools name)
            (fun v => v = VNull)
  ∧ (∀ element,
       returns (generateSingleValue (SArray true element) pools name)
               (fun v => v = VUndef
                         ∨ ∃ a elems, v = VArr a elems
                                      ∧ (3 ≤ length elems ≤ 5)%nat)).
Proof.
  assert (∀ element,
            returns (let* arrayLength := faker_number_int 3 5 in
                     let* a := fresh_addr in
                     let* elems :=
                       replicateM (Z.to_nat arrayLength)
                                  (generateSingleValue element pools None) in
                     ret (VArr a elems))
                    (fun v => ∃ a elems, v = VArr a elems
                                         ∧ (3 ≤ length elems ≤ 5)%nat)) as Harr.
  { intros element.
    eapply returns_bind; [apply (faker_number_int_range 3 5); lia|].
    intros n Hn. cbv beta in Hn.
    eapply returns_bind; [apply returns_any|]. intros a _.
    eapply returns_bind with (P := fun l => length l = Z.to_nat n).
    { intros e l e'. apply replicateM_length. }
    intros elems Hlen. apply returns_ret. exists a, elems. split; [done|]. lia. }
  split; [|split; [|split]].
  - intros element. cbn [generateSingleValue optional].
    eapply returns_bind; [apply (returns_ret false (fun b => b = false)); done|].
    intros ? ->. apply Harr.
  - intros shape. cbn [generateSingleValue optional].
    eapply returns_bind; [apply (returns_ret false (fun b => b = false)); done|].
    intros ? ->.
    eapply returns_bind; [apply returns_any|]. intros a _.
    eapply returns_bind; [apply generateFields_sublist|]. intros props Hsub.
    apply returns_ret. by exists a, props.
  - cbn [generateSingleValue optional].
    eapply returns_bind; [apply (returns_ret false (fun b => b = false)); done|].
    intros ? ->. simpl. by apply returns_ret.
  - intros element. cbn [generateSingleValue optional].
    eapply returns_bind; [apply returns_any|]. intros [] _.
    + apply returns_ret. by left.
    + eapply returns_weaken; [apply Harr|]. intros v Hv. by right.
Qed.

End GeneratedShape.

(** *** Seeding with the AI provider *)

Lemma mapM_Forall2 {S A B} (f : A → M S B) (Q : A → B → Prop) l :
  (∀ a, returns (f a) (Q a)) →
  ∀ s rs s', mapM f l s = (Ok rs, s') → Forall2 Q l rs.
Proof.
  intros Hf. induction l as [|x l IH]; intros s rs s'; simpl.
  - intros [= <- _]. constructor.
  - run. destruct (f x s) as [[y|e] s1] eqn:Hx; [|done].
    destruct (mapM f l s1) as [[ys|e] s2] eqn:Hrest; [|done].
    intros [= <- _]. constructor; [by eapply Hf|by eapply IH].
Qed.

Section AISeeding.
Context `{Builtins} `{Faker} `{Persistence} `{AIProvider} `{Relations}.

Lemma withDefaults_completes item t :
  returns (withDefaults item t)
          (fun r => r !! "updatedAt" = Some (VStr t)
                    ∧ (∀ id, get_prop item "id" = Ok id → truthy id = true →
                             r !! "id" = Some id)
                    ∧ (∀ c, get_prop item "createdAt" = Ok c → truthy c = true →
                            r !! "createdAt" = Some c)
                    ∧ ∀ k, k ≠ "id" → k ≠ "createdAt" → k ≠ "updatedAt" →
                           r !! k = spread item !! k).
Proof.
  intros e r e'. unfold withDefaults. run.
  destruct (get_prop item "id") as [id0|err] eqn:Hid; [|done].
  destruct (truthy id0) eqn:Ht.
  - run. destruct (get_prop item "createdAt") as [c0|err] eqn:Hc; [|done].
    intros [= <- _]. unfold JS.set. split; [by rewrite lookup_insert_eq|].
    split; [|split].
    + intros id [= <-] _. rewrite !lookup_insert_ne by done.
      by rewrite lookup_insert_eq.
    + intros c [= <-] Hct. rewrite lookup_insert_ne by done.
      rewrite lookup_insert_eq. unfold or_else. by rewrite Hct.
    + intros k ? ? ?. by rewrite !lookup_insert_ne.
  - unfold newId. run. destruct (get_prop item "createdAt") as [c0|err] eqn:Hc; [|done].
    intros [= <- _]. unfold JS.set. split; [by rewrite lookup_insert_eq|].
    split; [|split].
    + intros id [= <-] Hid'. congruence.
    + intros c [= <-] Hct. rewrite lookup_insert_ne by done.
      rewrite lookup_insert_eq. unfold or_else. by rewrite Hct.
    + intros k ? ? ?. by rewrite !lookup_insert_ne.
Qed.

(** When the AI provider answers with an array, the seed items are
    its elements, one for one and however many the store asked for:
    each keeps its fields, its [id] and its [createdAt] when they are
    truthy, and all of them get the one clock reading of the call as
    [updatedAt]. *)
Theorem ai_items_are_completed this w a elems items w' :
  generateWithAI (stores w this) = Ok (VArr a elems) →
  generateSeedDataWithAI this w = (Ok items, w') →
  Forall2
    (fun elem r =>
       r !! "updatedAt" = Some (VStr (reading w))
       ∧ (∀ id, get_prop elem "id" = Ok id → truthy id = true → r !! "id" = Some id)
       ∧ (∀ c, get_prop elem "createdAt" = Ok c → truthy c = true →
               r !! "createdAt" = Some c)
       ∧ ∀ k, k ≠ "id" → k ≠ "createdAt" → k ≠ "updatedAt" →
              r !! k = spread elem !! k)
    elems items.
Proof.
  intros Hai. unfold generateSeedDataWithAI. unfold bind at 1. unfold self, gets.
  unfold bind at 1. unfold call at 1. rewrite Hai.
  unfold bind at 1. unfold now, lift, clockReading.
  apply mapM_Forall2. intros elem.
  apply returns_lift. apply withDefaults_completes.
Qed.

End AISeeding.

(** *** Projection on a response schema *)

Lemma inherited_not_proto k : is_Some (inherited k) → k ≠ "__proto__".
Proof. intros [v Hv] ->. by vm_compute in Hv. Qed.

Lemma projectItem_lookup fields item k :
  projectItem fields item !! k
  = if bool_decide (k ∈ fields) && negb (String.eqb k "__proto__") then
      match item !! k with
      | Some v => Some v
      | None => inherited k
      end
    else None.
Proof.
  unfold projectItem.
  set (step := fun (projected : record) field =>
                 if has_property item field then
                   if String.eqb field "__proto__" then projected
                   else <[field := read_property item field]> projected
                 else projected).
  assert (∀ acc : record,
            foldl step acc fields !! k
            = if bool_decide (k ∈ fields) && negb (String.eqb k "__proto__")
                 && has_property item k
              then Some (read_property item k)
              else acc !! k) as Hgen.
  { induction fields as [|f fields IH]; intros acc; simpl; [done|].
    rewrite IH. destruct (decide (k = f)) as [->|Hne].
    - rewrite (bool_decide_eq_true_2 (f ∈ f :: fields)) by left.
      unfold step.
      destruct (has_property item f) eqn:Ehas;
        [|by rewrite !andb_false_r].
      destruct (String.eqb f "__proto__") eqn:Eproto;
        [by rewrite !andb_false_r|].
      rewrite lookup_insert_eq. by destruct (bool_decide _).
    - assert (bool_decide (k ∈ f :: fields) = bool_decide (k ∈ fields)) as ->.
      { apply bool_decide_ext. rewrite elem_of_cons. split; [by intros [?|?]|by right]. }
      destruct (_ && _ && _); [done|]. unfold step.
      destruct (has_property item f); [|done].
      destruct (String.eqb f "__proto__"); [done|].
      by rewrite lookup_insert_ne. }
  rewrite Hgen, lookup_empty. destruct (bool_decide (k ∈ fields)); [|done].
  destruct (String.eqb_spec k "__proto__") as [->|Hk]; [done|]. simpl.
  unfold has_property, read_property.
  rewrite (proj2 (String.eqb_neq _ _) Hk), orb_false_r.
  by destruct (item !! k) as [v|], (inherited k) as [v'|].
Qed.

(** [projectResponse] projects every item on the fields that the
    response schema names, keeping the number and the order of the
    items.  Under such a field the projected item has what the item
    has there, and where the item has nothing of its own, the function
    that it inherits from [Object.prototype] under that name, if any;
    it has nothing under other names, nor under [__proto__].  For a
    schema without a field [__proto__] projecting twice changes
    nothing more.  An object schema without fields and a schema that
    is no object leave the items as they are. *)
Theorem projection_keeps_the_schema_fields items opt shape :
  (shape ≠ [] →
     projectResponse items (SObject opt shape)
     = projectItem (shape_keys shape) <$> items
     ∧ ∀ item k,
         projectItem (shape_keys shape) item !! k
         = if bool_decide (k ∈ shape_keys shape) && negb (String.eqb k "__proto__")
           then match item !! k with
                | Some v => Some v
                | None => inherited k
                end
           else None)
  ∧ ("__proto__" ∉ shape_keys shape →
     projectResponse (projectResponse items (SObject opt shape)) (SObject opt shape)
     = projectResponse items (SObject opt shape))
  ∧ projectResponse items (SObject opt []) = items
  ∧ (∀ ty o, projectResponse items (SPrim ty o) = items)
  ∧ (∀ o element, projectResponse items (SArray o element) = items).
Proof.
  split; [|split; [|done]].
  - intros Hne. split; [|intros; apply projectItem_lookup].
    unfold projectResponse. destruct shape as [|[k s] shape]; [done|]. done.
  - intros _. unfold projectResponse.
    destruct (shape_keys shape) as [|f fields] eqn:Ek; [done|].
    rewrite <- list_fmap_compose. apply list_fmap_ext. intros i item _. simpl.
    apply map_eq. intros k. rewrite !projectItem_lookup.
    destruct (_ && _); [|done].
    destruct (item !! k) as [v|]; [done|]. by destruct (inherited k).
Qed.

Section ListLaws.
Context `{Builtins} `{Faker} `{Persistence} `{AIProvider} `{Relations}
        `{CollectionMeta} `{Backend}.

(** In development, with records kept in memory or on the local
    disk, [list] under an item schema (an object schema without
    aggregate and array fields) of a collection without configured
    errors answers with the page that [query] cuts out, its items
    joined with their relations and then projected on the fields of
    the schema, and with the pagination of [query]. *)
Theorem list_projects_the_page cfg store options w items pagination opt shape
    joined w' :
  environment (config w) = "development" →
  (let mode := string_or (persistenceMode (config w))
                         (getDefaultPersistenceMode (config w)) in
   mode = "memory" ∨ mode = "local") →
  listOperation cfg = None →
  responseSchema cfg = Some (SObject opt shape) →
  isResponseEnvelope shape = false →
  initialized (stores w store) = true →
  query store (default emptyOptions options) None w
  = (Ok (Paginated items pagination), w) →
  match collectionRelations cfg with
  | Some rels => resolveJoins items (SObject opt shape) rels (name cfg) w
  | None => (Ok items, w)
  end = (Ok joined, w') →
  list_ cfg store options w
  = (Ok (Paginated (projectResponse joined (SObject opt shape)) pagination), w').
Proof.
  intros Henv Hmode Hop Hschema Henvelope Hi Hq Hjoin.
  unfold list_. unfold bind at 1. unfold isDevelopment. run.
  rewrite Henv. simpl String.eqb. cbn [negb].
  rewrite Hop. simpl. unfold listResponseSchema. rewrite Hop, Hschema.
  assert ((String.eqb (string_or (persistenceMode (config w))
                                 (getDefaultPersistenceMode (config w))) "memory"
           || String.eqb (string_or (persistenceMode (config w))
                                    (getDefaultPersistenceMode (config w))) "local")
          = true) as ->.
  { destruct Hmode as [-> | ->]; done. }
  rewrite Hq. rewrite Henvelope.
  destruct (collectionRelations cfg) as [rels|].
  - cbn [fst snd]. rewrite Hjoin. reflexivity.
  - injection Hjoin as <- <-. reflexivity.
Qed.

End ListLaws.

(** *** Picking fields of a schema *)

Section PickFacts.
Import Builder.
Implicit Types (shape picked : list (string * Schema.schema)) (k f : string).

Lemma field_assign_eq k s shape : field (assign k s shape) k = Some s.
Proof.
  unfold field. induction shape as [|[k' s'] shape IH]; simpl.
  - by rewrite String.eqb_refl.
  - destruct (String.eqb k' k) eqn:E; simpl; rewrite E; auto.
Qed.

Lemma field_assign_ne k k' s shape :
  k ≠ k' → field (assign k s shape) k' = field shape k'.
Proof.
  intros Hne. unfold field. induction shape as [|[k1 s1] shape IH]; simpl.
  - destruct (String.eqb_spec k k'); done.
  - destruct (String.eqb_spec k1 k) as [->|Hk]; simpl.
    + destruct (String.eqb_spec k k'); done.
    + destruct (String.eqb_spec k1 k'); [done|]. apply IH.
Qed.

Lemma field_is_Some shape k : is_Some (field shape k) ↔ k ∈ shape.*1.
Proof.
  unfold field. induction shape as [|[k' s'] shape IH]; simpl.
  - split; [by intros [? ?]|by intros ?%not_elem_of_nil].
  - rewrite elem_of_cons. destruct (String.eqb_spec k' k) as [->|Hne]; simpl.
    + split; [by left|by eexists].
    + rewrite IH. split; [by right|]. by intros [?|?].
Qed.

Lemma assign_keys_old k s shape : k ∈ shape.*1 → (assign k s shape).*1 = shape.*1.
Proof.
  induction shape as [|[k' s'] shape IH]; simpl.
  - by intros ?%not_elem_of_nil.
  - destruct (String.eqb_spec k' k) as [->|Hne]; simpl; [done|].
    intros [?|Hin]%elem_of_cons; [done|]. f_equal. by apply IH.
Qed.

Lemma assign_keys_new k s shape :
  k ∉ shape.*1 → (assign k s shape).*1 = (shape.*1 ++ [k])%list.
Proof.
  induction shape as [|[k' s'] shape IH]; simpl; [done|].
  intros [Hne Hout]%not_elem_of_cons.
  destruct (String.eqb_spec k' k) as [->|_]; simpl; [done|].
  f_equal. by apply IH.
Qed.

Lemma assign_keys k s shape :
  (assign k s shape).*1 = if bool_decide (k ∈ shape.*1) then shape.*1
                          else (shape.*1 ++ [k])%list.
Proof.
  case_bool_decide; [by apply assign_keys_old|by apply assign_keys_new].
Qed.

Lemma has_spec shape k :
  has shape k = true ↔ k ∈ shape.*1 ∨ is_Some (inherited k) ∨ k = "__proto__".
Proof.
  unfold has. rewrite !orb_true_iff, !bool_decide_eq_true, String.eqb_eq, field_is_Some.
  tauto.
Qed.

Lemma pickFields_spec shape fields :
  ∀ acc picked,
    pickFields shape fields (Some acc) = Ok (Some picked) →
    NoDup acc.*1 →
    NoDup picked.*1
    ∧ (∀ k, k ∈ picked.*1 ↔ k ∈ acc.*1 ∨ (k ∈ fields ∧ k ≠ "__proto__"))
    ∧ (∀ k, k ∈ fields → k ≠ "__proto__" → field picked k = field shape k)
    ∧ (∀ k, k ∉ fields → field picked k = field acc k)
    ∧ (∀ k, k ∈ fields → k ≠ "__proto__" → k ∈ shape.*1).
Proof.
  induction fields as [|f fields IH]; intros acc picked; simpl.
  - intros [= <-] Hnd. split; [done|]. split.
    { intros k. split; [by left|]. by intros [?|[?%not_elem_of_nil ?]]. }
    split; [by intros k ?%not_elem_of_nil|]. split; [done|].
    by intros k ?%not_elem_of_nil.
  - destruct (has shape f); [|done]. simpl.
    destruct (String.eqb_spec f "__proto__") as [->|Hf].
    { intros Hrun Hnd.
      destruct (IH _ _ Hrun Hnd) as (Hnd2 & Hkeys & Hin & Hout & Hown).
      split; [done|]. split; [|split; [|split]].
      - intros k. rewrite Hkeys, elem_of_cons.
        split; [intros [?|[? ?]]; auto|]. intros [?|[[-> | ?] ?]]; auto. done.
      - intros k [->|Hk]%elem_of_cons Hne; [done|]. by apply Hin.
      - intros k [_ Hk]%not_elem_of_cons. by apply Hout.
      - intros k [->|Hk]%elem_of_cons Hne; [done|]. by apply Hown. }
    destruct (field shape f) as [s|] eqn:Ef; simpl.
    2: { intros Hrun. exfalso. clear -Hrun.
         revert Hrun. generalize fields. clear. intros fields.
         induction fields as [|f fields IH]; simpl; [done|].
         destruct (has shape f); [|done]. simpl.
         destruct (String.eqb f "__proto__"); [done|].
         by destruct (field shape f). }
    intros Hrun Hnd.
    assert (NoDup (assign f s acc).*1) as Hnd'.
    { rewrite assign_keys. case_bool_decide; [done|].
      apply NoDup_app. split; [done|]. split; [|apply NoDup_singleton].
      intros x Hx ->%list_elem_of_singleton. done. }
    destruct (IH _ _ Hrun Hnd') as (Hnd2 & Hkeys & Hin & Hout & Hown).
    split; [done|]. split; [|split; [|split]].
    + intros k. rewrite Hkeys, assign_keys, elem_of_cons.
      case_bool_decide as Hfacc.
      * split; [intros [?|[? ?]]; auto|]. intros [?|[[-> | ?] ?]]; auto.
      * rewrite elem_of_app, list_elem_of_singleton.
        split; [intros [[?| ->]|[? ?]]; auto|]. intros [?|[[-> | ?] ?]]; auto.
    + intros k [->|Hk]%elem_of_cons Hne.
      * destruct (decide (f ∈ fields)); [by apply Hin|].
        rewrite Hout by done. by rewrite field_assign_eq.
      * by apply Hin.
    + intros k Hk. apply not_elem_of_cons in Hk as [Hne Hk].
      rewrite Hout by done. by apply field_assign_ne.
    + intros k [->|Hk]%elem_of_cons Hne; [|by apply Hown].
      apply field_is_Some. by eexists.
Qed.

Lemma pickFields_runs shape fields :
  ∀ acc, (∀ f, f ∈ fields → f ∈ shape.*1 ∨ f = "__proto__") →
         ∃ picked, pickFields shape fields (Some acc) = Ok (Some picked).
Proof.
  induction fields as [|f fields IH]; intros acc Hall; simpl; [by eexists|].
  assert (∀ f', f' ∈ fields → f' ∈ shape.*1 ∨ f' = "__proto__") as Hrest
    by (intros f' Hf'; apply Hall; by right).
  rewrite (proj2 (has_spec shape f)) by (destruct (Hall f ltac:(left)); auto).
  simpl. destruct (String.eqb_spec f "__proto__") as [->|Hf]; [by apply IH|].
  destruct (Hall f ltac:(left)) as [Hown|?]; [|done].
  apply field_is_Some in Hown as [s ->]. simpl. by apply IH.
Qed.

Lemma pickFields_throws shape fields :
  ∀ acc f, f ∈ fields → has shape f = false → ∃ e, pickFields shape fields acc = Throw e.
Proof.
  induction fields as [|f0 fields IH]; intros acc f Hin Hout; simpl.
  - by apply not_elem_of_nil in Hin.
  - destruct (has shape f0) eqn:E0; [|by eexists]. simpl.
    apply elem_of_cons in Hin as [->|Hin]; [congruence|].
    destruct (String.eqb f0 "__proto__"); [by eapply IH|].
    destruct (field shape f0); by eapply IH.
Qed.

Lemma pickFields_spoiled shape fields :
  (∀ f, f ∈ fields → has shape f = true) → pickFields shape fields None = Ok None.
Proof.
  induction fields as [|f fields IH]; intros Hall; simpl; [done|].
  rewrite (Hall f) by left. simpl.
  assert (pickFields shape fields None = Ok None) as Hrest
    by (apply IH; intros f' Hf'; apply Hall; by right).
  destruct (String.eqb f "__proto__"); [done|]. by destruct (field shape f).
Qed.

Lemma pickFields_spoils shape fields :
  ∀ acc f,
    (∀ f', f' ∈ fields → has shape f' = true) →
    f ∈ fields → f ∉ shape.*1 → f ≠ "__proto__" →
    pickFields shape fields acc = Ok None.
Proof.
  induction fields as [|f0 fields IH]; intros acc f Hall Hin Hout Hne; simpl.
  - by apply not_elem_of_nil in Hin.
  - rewrite (Hall f0) by left. simpl.
    assert (∀ f', f' ∈ fields → has shape f' = true) as Hrest
      by (intros f' Hf'; apply Hall; by right).
    apply elem_of_cons in Hin as [->|Hin].
    + rewrite (proj2 (String.eqb_neq _ _) Hne).
      destruct (field shape f0) as [s|] eqn:Ef.
      * exfalso. apply Hout, field_is_Some. by eexists.
      * by apply pickFields_spoiled.
    + destruct (String.eqb f0 "__proto__"); [by eapply IH|].
      destruct (field shape f0); by eapply IH.
Qed.

(** [m.pick] on an object schema.  It throws when a chosen field is
    neither a field of the schema nor a property of
    [Object.prototype].  It returns a schema when every chosen field
    is a field of the schema (or is [__proto__]): the picked schema
    has the chosen fields except [__proto__] and no other, each with
    the schema it had, and is never optional.  In the remaining case
    a chosen name such as [toString] is no field of the schema but is
    inherited: nothing is thrown, and the shape that is returned holds
    a function in the place of a schema.  On a schema that is no
    object [m.pick] throws. *)
Theorem pick_keeps_the_chosen_fields opt shape fields :
  (∀ f, f ∈ fields → f ∉ shape.*1 → inherited f = None → f ≠ "__proto__" →
     ∃ e, pick (SObject opt shape) fields = Throw e)
  ∧ ((∀ f, f ∈ fields → f ∈ shape.*1 ∨ f = "__proto__") →
     ∃ picked,
       pick (SObject opt shape) fields = Ok (Some (SObject false picked))
       ∧ NoDup picked.*1
       ∧ (∀ k, k ∈ picked.*1 ↔ k ∈ fields ∧ k ≠ "__proto__")
       ∧ (∀ k, k ∈ fields → k ≠ "__proto__" → field picked k = field shape k))
  ∧ ((∀ f, f ∈ fields → f ∈ shape.*1 ∨ is_Some (inherited f) ∨ f = "__proto__") →
     ∀ f, f ∈ fields → f ∉ shape.*1 → is_Some (inherited f) →
          pick (SObject opt shape) fields = Ok None)
  ∧ (∀ ty o, ty ≠ "object" →
       pick (SPrim ty o) fields
       = Throw (Error "m.pick() can only be used with object schemas"))
  ∧ (∀ o element,
       pick (SArray o element) fields
       = Throw (Error "m.pick() can only be used with object schemas")).
Proof.
  split; [|split; [|split; [|split]]].
  - intros f Hin Hout Hinh Hne. unfold pick. simpl.
    destruct (pickFields_throws shape fields (Some []) f Hin) as [e ->]; [|by eexists].
    destruct (has shape f) eqn:E; [|done].
    apply has_spec in E as [?|[[v Hv]|?]]; [done| |done]. congruence.
  - intros Hall. destruct (pickFields_runs shape fields [] Hall) as [picked Hrun].
    exists picked. unfold pick. simpl. rewrite Hrun. split; [done|].
    destruct (pickFields_spec _ _ _ _ Hrun (NoDup_nil_2)) as (Hnd & Hkeys & Hin & _).
    split; [done|]. split; [|done].
    intros k. rewrite Hkeys. simpl. split; [by intros [?%not_elem_of_nil|?]|by right].
  - intros Hall f Hin Hout Hinh. unfold pick. simpl.
    rewrite (pickFields_spoils shape fields (Some []) f); try done.
    + intros f' Hf'. by apply has_spec, Hall.
    + by apply inherited_not_proto.
  - intros ty o Hty. unfold pick. simpl.
    by destruct (String.eqb_spec ty "object").
  - done.
Qed.

(** Projecting on a picked schema is projecting on the chosen fields.
    Picking no field at all (or [__proto__] alone) is the exception:
    the picked schema has no field, and the projection leaves the
    items as they are. *)
Theorem picked_schema_projects_on_the_chosen_fields opt shape fields picked items :
  pick (SObject opt shape) fields = Ok (Some (SObject false picked)) →
  (picked ≠ [] →
     projectResponse items (SObject false picked) = projectItem fields <$> items
     ∧ ∀ item k, k ∈ fields → k ≠ "__proto__" →
                 k ∈ shape.*1 ∧ projectItem fields item !! k
                                = match item !! k with
                                  | Some v => Some v
                                  | None => inherited k
                                  end)
  ∧ (picked = [] →
     projectResponse items (SObject false picked) = items
     ∧ ∀ k, k ∈ fields → k = "__proto__").
Proof.
  unfold pick. simpl.
  destruct (pickFields shape fields (Some [])) as [[picked'|]|e] eqn:Hrun; [|done..].
  intros [= <-].
  destruct (pickFields_spec _ _ _ _ Hrun (NoDup_nil_2)) as (_ & Hkeys & _ & _ & Hown).
  split.
  - intros Hne. split.
    + unfold projectResponse, shape_keys.
      destruct (picked'.*1) as [|k0 ks] eqn:Ek; [by destruct picked'|].
      apply list_fmap_ext. intros i item _. apply map_eq. intros k.
      rewrite !projectItem_lookup.
      destruct (String.eqb_spec k "__proto__") as [->|Hk];
        [by rewrite !andb_false_r|].
      rewrite !andb_true_r.
      apply (f_equal (fun b : bool => if b then _ else None)).
      apply bool_decide_ext. rewrite Hkeys. simpl.
      split; [by intros [?%not_elem_of_nil|[? ?]]|by right].
    + intros item k Hk Hne'. split; [by apply Hown|].
      rewrite projectItem_lookup, bool_decide_eq_true_2 by done.
      by rewrite (proj2 (String.eqb_neq _ _) Hne').
  - intros ->. split; [done|]. intros k Hk.
    destruct (decide (k = "__proto__")) as [|Hne]; [done|].
    assert (k ∈ @nil string) as Hnil by (apply Hkeys; right; done).
    by apply not_elem_of_nil in Hnil.
Qed.

End PickFacts.

(** *** Optional fields *)

Section OptionalLaws.
Context `{Builtins} `{Faker}.

(** What [m.optional] adds to a schema is one draw of
    [Math.random()] before anything else is generated: below 0.25 the
    value is [undefined] and Faker is not consulted, otherwise the
    value is generated as for the schema itself; an optional field of
    an object is left out of the object in the first case. *)
Theorem optional_value_follows_the_coin s pools name e :
  optional s = false →
  generateSingleValue (Builder.optional s) pools name e
  = (if coins e (coinsDrawn e) then (Ok VUndef, tossed e)
     else generateSingleValue s pools name (tossed e))
  ∧ (coins e (coinsDrawn e) = true →
       ∀ key,
         generateFields (fun s key => generateSingleValue s pools key)
                        [(key, Builder.optional s)] e
         = (Ok [], tossed e)
         ∧ fakerPos (tossed e) = fakerPos e).
Proof.
  intros Hreq.
  assert (∀ name,
            generateSingleValue (Builder.optional s) pools name e
            = (if coins e (coinsDrawn e) then (Ok VUndef, tossed e)
               else generateSingleValue s pools name (tossed e))) as Hcoin.
  { intros name'. destruct s as [ty o|o shape|o element]; simpl in Hreq; subst o;
      cbn [Builder.optional generateSingleValue optional];
      unfold tossed, random_below_quarter; run;
      destruct (coins e (coinsDrawn e)); reflexivity. }
  split; [apply Hcoin|].
  intros Hc key. split; [|done].
  cbn [generateFields]. run. rewrite Hcoin, Hc. reflexivity.
Qed.

End OptionalLaws.

(** *** Aggregates *)

Lemma split_colon_cons c s :
  split_colon (String c s)
  = if Ascii.eqb c ":"%char then EmptyString :: split_colon s
    else match split_colon s with
         | h :: t => String c h :: t
         | [] => [String c EmptyString]
         end.
Proof. reflexivity. Qed.

Lemma split_colon_noColon f : noColon f = true → split_colon f = [f].
Proof.
  induction f as [|c f IH]; [done|]. rewrite split_colon_cons. simpl noColon.
  intros [Hc Hf]%andb_true_iff. apply negb_true_iff in Hc. rewrite Hc.
  by rewrite IH.
Qed.

Lemma split_colon_two p f :
  noColon p = true → noColon f = true → split_colon (p +:+ ":" +:+ f) = [p; f].
Proof.
  intros Hp Hf. induction p as [|c p IH].
  - change (EmptyString +:+ ":" +:+ f) with (String ":"%char f).
    rewrite split_colon_cons. simpl Ascii.eqb. cbv iota.
    by rewrite split_colon_noColon.
  - change (String c p +:+ ":" +:+ f) with (String c (p +:+ ":" +:+ f)).
    rewrite split_colon_cons. simpl in Hp.
    apply andb_true_iff in Hp as [Hc Hp]. apply negb_true_iff in Hc. rewrite Hc.
    by rewrite IH.
Qed.

Lemma list_min_spec v vs :
  list_min v vs ∈ v :: vs ∧ ∀ x, x ∈ v :: vs → (list_min v vs ≤ x)%Qc.
Proof.
  unfold list_min. revert v. induction vs as [|y vs IH]; intros v; simpl.
  - split; [by left|]. intros x ->%list_elem_of_singleton. apply Qcle_refl.
  - case_bool_decide as Hlt.
    + destruct (IH y) as [Hin Hle]. split; [by right|].
      intros x [->|Hx]%elem_of_cons; [|by apply Hle].
      eapply Qcle_trans; [apply Hle; by left|]. by apply Qclt_le_weak.
    + destruct (IH v) as [Hin Hle]. split.
      * apply elem_of_cons in Hin as [->|Hin]; [by left|]. right. by right.
      * intros x [->|[->|Hx]%elem_of_cons]%elem_of_cons.
        -- apply Hle. by left.
        -- eapply Qcle_trans; [apply Hle; by left|]. by apply Qcnot_lt_le.
        -- apply Hle. by right.
Qed.

Lemma list_max_spec v vs :
  list_max v vs ∈ v :: vs ∧ ∀ x, x ∈ v :: vs → (x ≤ list_max v vs)%Qc.
Proof.
  unfold list_max. revert v. induction vs as [|y vs IH]; intros v; simpl.
  - split; [by left|]. intros x ->%list_elem_of_singleton. apply Qcle_refl.
  - case_bool_decide as Hlt.
    + destruct (IH y) as [Hin Hle]. split; [by right|].
      intros x [->|Hx]%elem_of_cons; [|by apply Hle].
      eapply Qcle_trans; [by apply Qclt_le_weak|]. apply Hle. by left.
    + destruct (IH v) as [Hin Hle]. split.
      * apply elem_of_cons in Hin as [->|Hin]; [by left|]. right. by right.
      * intros x [->|[->|Hx]%elem_of_cons]%elem_of_cons.
        -- apply Hle. by left.
        -- eapply Qcle_trans; [by apply Qcnot_lt_le|]. apply Hle. by left.
        -- apply Hle. by right.
Qed.

Lemma prefix_app p f : String.prefix p (p +:+ f) = true.
Proof.
  induction p as [|c p IH]; simpl; [by destruct f|].
  by destruct (ascii_dec c c).
Qed.

Ltac decide_tests ty :=
  repeat match goal with
  | |- context [String.eqb ty ?c] =>
      first [replace (String.eqb ty c) with false by reflexivity
            |replace (String.eqb ty c) with true by reflexivity]
  | |- context [String.prefix ?c ty] =>
      first [replace (String.prefix c ty) with false by reflexivity
            |replace (String.prefix c ty) with true by (symmetry; apply prefix_app)]
  end; cbv iota.

Section AggregateLaws.
Context `{Builtins}.

(** An aggregate that [m.collectionsMeta] declares for a field whose
    name has no colon is computed from that field of the given items:
    the sum and the average count a value that is no number as 0 and
    are 0 for no item; the minimum and the maximum are taken among
    the values that are numbers, bound all of them, and are 0 when
    there is none. *)
Theorem aggregates_read_the_declared_field f data pagination :
  noColon f = true →
  calculateMetaField (schemaType (Builder.sum f)) data pagination
  = Ok (BNum (sum_field f data))
  ∧ calculateMetaField (schemaType (Builder.avg f)) data pagination
    = Ok (BNum (if (0 <? length data)%nat
                then (sum_field f data / of_Z (Z.of_nat (length data)))%Qc
                else 0%Qc))
  ∧ (∃ lo hi,
       calculateMetaField (schemaType (Builder.min f)) data pagination = Ok (BNum lo)
       ∧ calculateMetaField (schemaType (Builder.max f)) data pagination = Ok (BNum hi)
       ∧ (numeric_values f data = [] → lo = 0%Qc ∧ hi = 0%Qc)
       ∧ (numeric_values f data ≠ [] →
            lo ∈ numeric_values f data ∧ hi ∈ numeric_values f data)
       ∧ ∀ x, x ∈ numeric_values f data → (lo ≤ x ≤ hi)%Qc)
  ∧ (data = [] → sum_field f data = 0%Qc).
Proof.
  intros Hf. pose proof (split_colon_noColon f Hf) as Hsplit.
  assert (∀ op, noColon op = true →
            part (split_colon (("collectionsMeta." +:+ op) +:+ ":" +:+ f)) 1 = f)
    as Hpart.
  { intros op Hop. rewrite split_colon_two; [done| |done].
    simpl. exact Hop. }
  split; [|split; [|split]].
  - pose proof (Hpart "sum" eq_refl) as Hp. unfold calculateMetaField.
    cbn [schemaType Builder.sum].
    change (("collectionsMeta." +:+ "sum") +:+ ":" +:+ f)
      with ("collectionsMeta.sum:" +:+ f) in Hp.
    set (ty := "collectionsMeta.sum:" +:+ f) in *. decide_tests ty. by rewrite Hp.
  - pose proof (Hpart "avg" eq_refl) as Hp. unfold calculateMetaField.
    cbn [schemaType Builder.avg].
    change (("collectionsMeta." +:+ "avg") +:+ ":" +:+ f)
      with ("collectionsMeta.avg:" +:+ f) in Hp.
    set (ty := "collectionsMeta.avg:" +:+ f) in *. decide_tests ty. by rewrite Hp.
  - pose proof (Hpart "min" eq_refl) as Hmin.
    pose proof (Hpart "max" eq_refl) as Hmax.
    unfold calculateMetaField.
    cbn [schemaType Builder.min Builder.max].
    change (("collectionsMeta." +:+ "min") +:+ ":" +:+ f)
      with ("collectionsMeta.min:" +:+ f) in Hmin.
    change (("collectionsMeta." +:+ "max") +:+ ":" +:+ f)
      with ("collectionsMeta.max:" +:+ f) in Hmax.
    set (tmin := "collectionsMeta.min:" +:+ f) in *.
    set (tmax := "collectionsMeta.max:" +:+ f) in *.
    decide_tests tmin. decide_tests tmax. rewrite Hmin, Hmax.
    destruct (numeric_values f data) as [|v vs] eqn:Ev.
    + exists 0%Qc, 0%Qc. split; [done|]. split; [done|]. split; [done|].
      split; [done|]. by intros x ?%not_elem_of_nil.
    + exists (list_min v vs), (list_max v vs).
      destruct (list_min_spec v vs) as [Hlo Hlo'].
      destruct (list_max_spec v vs) as [Hhi Hhi'].
      split; [done|]. split; [done|]. split; [done|]. split; [done|].
      intros x Hx. split; [by apply Hlo'|by apply Hhi'].
  - by intros ->.
Qed.

End AggregateLaws.

(** *** The operations of a collection *)

Lemma strict_eq_bool v b : strict_eq v (VBool b) = true ↔ v = VBool b.
Proof.
  destruct v; simpl; split; try discriminate; try congruence.
  - intros Hb. f_equal. by apply Bool.eqb_prop.
  - intros [= ->]. apply Bool.eqb_reflx.
Qed.

Section OperationLaws.
Import Operations.

(** Every operation is enabled unless switched off: after
    [normalizeOperations], an operation is disabled exactly when the
    collection configures it as [false] or as an object whose own
    [enabled] is [false].  A configuration object is handed on with
    [enabled] filled in, a boolean is not. *)
Theorem operations_are_enabled_unless_switched_off ops key :
  key ∈ operationNames →
  (isOperationEnabled (operation (normalizeOperations ops) key) = false
   ↔ ∃ o, ops = Some o
          ∧ (get o key = VBool false
             ∨ spread (get o key) !! "enabled" = Some (VBool false)))
  ∧ (getOperationConfig (normalizeOperations ops) key
     = match ops with
       | None => None
       | Some o =>
           match get o key with
           | VUndef | VBool _ => None
           | value =>
               Some (spread2 (props_record [("enabled", VBool true)]) (spread value))
           end
       end).
Proof.
  intros Hkey.
  assert (∀ normalize : string → Setting,
            operation ((fun key => (key, normalize key)) <$> operationNames) key
            = Some (normalize key)) as Hop.
  { intros normalize. unfold operationNames in *.
    repeat (apply elem_of_cons in Hkey as [->|Hkey]; [reflexivity|]).
    by apply not_elem_of_nil in Hkey. }
  destruct ops as [o|]; unfold getOperationConfig, normalizeOperations; rewrite Hop.
  2: { split; [|done]. simpl. split; [done|]. by intros (o & ? & _). }
  assert (∀ v, (∀ b, v ≠ VBool b) → v ≠ VUndef →
            negb (strict_eq
                    (get (spread2 (props_record [("enabled", VBool true)]) (spread v))
                         "enabled") (VBool false)) = false
            ↔ spread v !! "enabled" = Some (VBool false)) as Hobj.
  { intros v _ _. rewrite negb_false_iff, strict_eq_bool.
    assert (props_record [("enabled", VBool true)] !! "enabled"
            = Some (VBool true)) as Hen.
    { unfold props_record. simpl. apply lookup_insert_eq. }
    unfold get, spread2. rewrite lookup_union, Hen.
    destruct (spread v !! "enabled") as [x|]; cbn.
    - split; [by intros ->|by intros [= ->]].
    - split; [done|done]. }
  assert (∀ v, (∀ b, v ≠ VBool b) → v ≠ VUndef → get o key = v →
            (negb (strict_eq
                     (get (spread2 (props_record [("enabled", VBool true)]) (spread v))
                          "enabled") (VBool false)) = false
             ↔ ∃ o', Some o = Some o'
                     ∧ (get o' key = VBool false
                        ∨ spread (get o' key) !! "enabled" = Some (VBool false))))
    as Hcase.
  { intros v Hb Hu Eg. rewrite Hobj by done. split.
    - intros Hs. exists o. split; [done|]. right. by rewrite Eg.
    - intros (o' & [= <-] & [Hf|Hs]); [|by rewrite Eg in Hs].
      rewrite Eg in Hf. by destruct (Hb false). }
  destruct (get o key) as [| |b|q|s|a elems|a props|a] eqn:Eg;
    cbn [isOperationEnabled]; (split; [|done]);
    try (apply Hcase; done).
  - split; [done|]. intros (o' & [= <-] & [?|Hs]); [congruence|].
    by rewrite Eg in Hs.
  - split.
    + intros ->. exists o. split; [done|]. by left.
    + intros (o' & [= <-] & [Hb|Hs]); [congruence|]. by rewrite Eg in Hs.
Qed.

End OperationLaws.

(** *** The quota bookkeeping *)

Section QuotaLaws.
Import Quota.

(** A key that was marked as over quota counts as over quota for the
    60 seconds that follow the mark, and no longer; the marks of the
    other keys are not touched, and a key that was never marked is
    not over quota. *)
Theorem quota_mark_lasts_a_minute now apiKey limit quotaState later :
  isQuotaExceeded later apiKey (markQuotaExceeded now apiKey limit quotaState)
  = bool_decide (later - now < 60000)%Z
  ∧ (∀ other, other ≠ apiKey →
       isQuotaExceeded later other (markQuotaExceeded now apiKey limit quotaState)
       = isQuotaExceeded later other quotaState)
  ∧ isQuotaExceeded later apiKey ∅ = false.
Proof.
  unfold isQuotaExceeded, markQuotaExceeded. split; [|split].
  - rewrite lookup_insert_eq. simpl. unfold QUOTA_CHECK_INTERVAL.
    destruct (Z.ltb_spec (later - now) 60000).
    + by rewrite bool_decide_eq_true_2.
    + rewrite bool_decide_eq_false_2; [done|lia].
  - intros other Hne. by rewrite lookup_insert_ne.
  - by rewrite lookup_empty.
Qed.

(** A successful response lifts the mark of its key, and so does
    clearing the key; clearing without a key, and clearing with the
    empty key, lift every mark, while clearing one key leaves the
    other keys as they were. *)
Theorem quota_mark_is_lifted now apiKey remaining limit quotaState later :
  isQuotaExceeded later apiKey
    (updateQuotaStatus now apiKey remaining limit quotaState) = false
  ∧ isQuotaExceeded later apiKey (clearQuotaState (Some apiKey) quotaState) = false
  ∧ (∀ k, isQuotaExceeded later k (clearQuotaState None quotaState) = false)
  ∧ (∀ k, isQuotaExceeded later k (clearQuotaState (Some EmptyString) quotaState)
          = false)
  ∧ (∀ other, apiKey ≠ EmptyString → other ≠ apiKey →
       isQuotaExceeded later other (clearQuotaState (Some apiKey) quotaState)
       = isQuotaExceeded later other quotaState)
  ∧ (∀ other, other ≠ apiKey →
       isQuotaExceeded later other
         (updateQuotaStatus now apiKey remaining limit quotaState)
       = isQuotaExceeded later other quotaState).
Proof.
  unfold isQuotaExceeded, updateQuotaStatus, clearQuotaState.
  split; [by rewrite lookup_insert_eq|]. split.
  { destruct (String.eqb apiKey EmptyString).
    - by rewrite lookup_empty.
    - by rewrite lookup_delete_eq. }
  split; [intros k; by rewrite lookup_empty|].
  split; [intros k; simpl; by rewrite lookup_empty|].
  split.
  - intros other Hne Ho. destruct (String.eqb_spec apiKey EmptyString); [done|].
    by rewrite lookup_delete_ne.
  - intros other Ho. by rewrite lookup_insert_ne.
Qed.

End QuotaLaws.

(** *** Endpoints *)

Section EndpointLaws.
Import Endpoint.

Lemma forwardSlashes_clean s : backslash ∉ list_ascii_of_string (forwardSlashes s).
Proof.
  induction s as [|c s IH]; simpl; [by intros ?%not_elem_of_nil|].
  intros [Hc|Hin]%elem_of_cons; [|done].
  destruct (Ascii.eqb_spec c backslash) as [->|Hne]; [done|]. by subst.
Qed.

Lemma forwardSlashes_fixed s :
  backslash ∉ list_ascii_of_string s → forwardSlashes s = s.
Proof.
  induction s as [|c s IH]; simpl; [done|].
  intros [Hc Hs]%not_elem_of_cons.
  destruct (Ascii.eqb_spec c backslash) as [->|_]; [done|]. by rewrite IH.
Qed.

Lemma forwardSlashes_empty s : forwardSlashes s = EmptyString ↔ s = EmptyString.
Proof. destruct s; simpl; split; done. Qed.

(** The name of the current file is kept with forward slashes only
    and as long as it was given; normalizing twice changes nothing
    more; and without a file, or with the empty name, the current
    file reads as ['unknown']. *)
Theorem current_file_has_forward_slashes filename :
  (∀ s, setCurrentFile filename = Some s →
        (backslash ∉ list_ascii_of_string s)
        ∧ ∃ given, filename = Some given
                   ∧ String.length s = String.length given
                   ∧ (backslash ∉ list_ascii_of_string given → s = given))
  ∧ normalizePath (normalizePath filename) = normalizePath filename
  ∧ getCurrentFile (setCurrentFile filename)
    = match filename with
      | Some (String c s) => forwardSlashes (String c s)
      | _ => "unknown"
      end.
Proof.
  unfold setCurrentFile, normalizePath, getCurrentFile.
  destruct filename as [[|c given]|]; simpl.
  - split; [|done]. intros s [= <-]. split; [by intros ?%not_elem_of_nil|].
    by exists EmptyString.
  - split; [|split].
    + intros s [= <-]. split.
      { apply (forwardSlashes_clean (String c given)). }
      exists (String c given). split; [done|]. split.
      * simpl. f_equal. clear. induction given as [|c given IH]; simpl; [done|].
        by rewrite IH.
      * apply (forwardSlashes_fixed (String c given)).
    + f_equal. apply (forwardSlashes_fixed (forwardSlashes (String c given))).
      apply forwardSlashes_clean.
    + done.
  - split; [|done]. by intros s.
Qed.

Lemma filter_nil_iff {A} (p : A → bool) l :
  List.filter p l = [] ↔ ∀ x, x ∈ l → p x = false.
Proof.
  induction l as [|y l IH]; simpl.
  - split; [by intros _ x ?%not_elem_of_nil|done].
  - destruct (p y) eqn:Ey.
    + split; [done|]. intros Hall. specialize (Hall y ltac:(left)). congruence.
    + rewrite IH. split.
      * intros Hall x [->|?]%elem_of_cons; auto.
      * intros Hall x Hx. apply Hall. by right.
Qed.

Lemma has_property_spec (r : record) k :
  has_property r k = true ↔ is_Some (r !! k) ∨ is_Some (inherited k) ∨ k = "__proto__".
Proof.
  unfold has_property. rewrite !orb_true_iff, !bool_decide_eq_true, String.eqb_eq. tauto.
Qed.

(** [validateParameters] accepts exactly when every declared
    parameter that is not a path parameter and is not marked as not
    required is given, or bears the name of a property that every
    object inherits from [Object.prototype]: a required parameter
    called [toString] is never reported as missing.  Since the
    endpoint validates its parameters without [metadata], a required
    parameter of that name is reported as missing whatever is given. *)
Theorem validateParameters_accepts_iff params method path provided :
  (validateParameters params method path provided = Ok tt
   ↔ ∀ p, p ∈ default [] params →
          location p ≠ "path" → required p ≠ Some false →
          is_Some (default ∅ provided !! paramName p)
          ∨ is_Some (inherited (paramName p)) ∨ paramName p = "__proto__")
  ∧ (∀ p, p ∈ default [] params →
          paramName p = "metadata" →
          location p ≠ "path" → required p ≠ Some false →
          ∃ e, validateParameters params method path (cleanParams provided)
               = Throw e).
Proof.
  assert (∀ provided',
            validateParameters params method path provided' = Ok tt
            ↔ ∀ p, p ∈ default [] params →
                   location p ≠ "path" → required p ≠ Some false →
                   has_property (default ∅ provided') (paramName p) = true) as Hiff.
  { intros provided'. unfold validateParameters.
    destruct params as [[|p0 ps]|]; simpl.
    - split; [by intros _ p ?%not_elem_of_nil|done].
    - set (l := p0 :: ps).
      change (if isMissing (default ∅ provided') p0
              then p0 :: List.filter (isMissing (default ∅ provided')) ps
              else List.filter (isMissing (default ∅ provided')) ps)
        with (List.filter (isMissing (default ∅ provided')) l).
      destruct (List.filter (isMissing (default ∅ provided')) l) as [|m ms] eqn:Ef.
      + simpl. split; [|done]. intros _ p Hp Hloc Hreq.
        pose proof (proj1 (filter_nil_iff _ _) Ef p Hp) as Hm.
        unfold isMissing in Hm.
        destruct (String.eqb_spec (location p) "path"); [done|].
        rewrite (bool_decide_eq_false_2 _ Hreq) in Hm. simpl in Hm.
        by apply negb_false_iff in Hm.
      + simpl. split; [done|]. intros Hall. exfalso.
        assert (m ∈ List.filter (isMissing (default ∅ provided')) l) as Hm
          by (rewrite Ef; left).
        apply list_elem_of_In, filter_In in Hm as [Hin Hmiss].
        apply list_elem_of_In in Hin. unfold isMissing in Hmiss.
        apply andb_true_iff in Hmiss as [[Hloc Hreq]%andb_true_iff Hgiven].
        apply negb_true_iff in Hgiven.
        apply negb_true_iff, bool_decide_eq_false in Hreq.
        apply negb_true_iff in Hloc.
        rewrite Hall in Hgiven; [done|done| |done].
        intros Hl. by rewrite Hl in Hloc.
    - split; [by intros _ p ?%not_elem_of_nil|done]. }
  split.
  { rewrite Hiff. split; intros Hall p Hp Hloc Hreq.
    - by apply has_property_spec, Hall.
    - by apply has_property_spec, Hall. }
  intros p Hp Hname Hloc Hreq.
  destruct (validateParameters params method path (cleanParams provided))
    as [[]|e] eqn:Hrun; [|by eexists].
  exfalso. pose proof (proj1 (Hiff _) Hrun) as Hall. clear Hrun.
  pose proof (Hall p Hp Hloc Hreq) as Hrun.
  rewrite Hname in Hrun. apply has_property_spec in Hrun as [Hrun|[[v Hv]|?]];
    [|by vm_compute in Hv|done].
  unfold cleanParams in Hrun.
  destruct provided as [given|]; simpl in Hrun.
  - rewrite lookup_delete_eq in Hrun. by destruct Hrun.
  - rewrite lookup_empty in Hrun. by destruct Hrun.
Qed.

End EndpointLaws.

(** *** The laws above, on the sample data *)

Import Demo Samples Cases.

Lemma delete_forgets_that_id_only_witness :
  initialized (stores (shop t1) 1%positive) = true
  ∧ ∃ w', delete 1%positive (VStr "p2") (shop t1) = (Ok true, w')
      ∧ findById 1%positive (VStr "p2") w' = (Ok None, w')
      ∧ findById 1%positive (VStr "p1") w' = (Ok (Some (product "p1" "lamp" 10)), w')
      ∧ count 1%positive None w' = (Ok 2%Z, w').
Proof.
  split; [reflexivity|].
  destruct (delete_forgets_that_id_only 1%positive (VStr "p2") (shop t1) eq_refl)
    as (w' & Hd & Hf & _ & Ho & _ & Hc).
  exists w'. split; [exact Hd|]. split; [exact Hf|].
  split; [exact (Ho (VStr "p1") eq_refl)|]. exact (Hc eq_refl).
Defined.

Lemma insert_then_delete_restores_witness :
  initialized (stores (shop t1) 1%positive) = true
  ∧ map_get (data (stores (shop t1) 1%positive)) (get (inserted (shop t1) dated) "id")
    = None
  ∧ ∃ r w1 w2,
      insert 1%positive dated (shop t1) = (Ok r, w1)
      ∧ delete 1%positive (get r "id") w1 = (Ok true, w2)
      ∧ data (stores w2 1%positive) = data (stores (shop t1) 1%positive).
Proof.
  split; [reflexivity|]. split; [vm_compute; reflexivity|].
  apply insert_then_delete_restores; [reflexivity|vm_compute; reflexivity].
Defined.

Lemma insert_appends_or_overwrites_witness :
  initialized (stores (shop t1) 1%positive) = true
  ∧ ∃ r w', insert 1%positive dated (shop t1) = (Ok r, w')
      ∧ get r "id" = VStr "p9"
      ∧ toArray 1%positive w' = (Ok (products ++ [r])%list, w').
Proof.
  split; [reflexivity|].
  destruct (insert_appends_or_overwrites 1%positive dated (shop t1) eq_refl)
    as (r & w' & Hins & Hnew & _).
  assert (r = inserted (shop t1) dated) as Hr.
  { destruct (insert_spec 1%positive dated (shop t1) eq_refl) as (w2 & Hins2 & _).
    rewrite Hins2 in Hins. by injection Hins as <- _. }
  exists r, w'. split; [exact Hins|].
  assert (get r "id" = VStr "p9") as Hid by (rewrite Hr; vm_compute; reflexivity).
  split; [exact Hid|]. apply Hnew. rewrite Hid. vm_compute. reflexivity.
Defined.

Lemma update_merges_replace_overwrites_witness :
  initialized (stores (shop t1) 1%positive) = true
  ∧ map_get (data (stores (shop t1) 1%positive)) (VStr "p1")
    = Some (product "p1" "lamp" 10)
  ∧ repriced !! "name" = None
  ∧ (∃ r w', update 1%positive (VStr "p1") repriced (shop t1) = (Ok (Some r), w')
       ∧ r !! "name" = Some (VStr "lamp"))
  ∧ (∃ r w', replace 1%positive (VStr "p1") repriced (shop t1) = (Ok (Some r), w')
       ∧ r !! "name" = None).
Proof.
  split; [reflexivity|]. split; [vm_compute; reflexivity|].
  split; [vm_compute; reflexivity|].
  destruct (update_merges_replace_overwrites 1%positive (VStr "p1")
              (product "p1" "lamp" 10) repriced (shop t1) "name")
    as [(r & w' & Hu & _ & Hk) (r2 & w2 & Hr & _ & Hk2)];
    [reflexivity|vm_compute; reflexivity|done..|].
  split.
  - exists r, w'. split; [exact Hu|]. rewrite Hk. vm_compute. reflexivity.
  - exists r2, w2. split; [exact Hr|]. rewrite Hk2. vm_compute. reflexivity.
Defined.

Lemma update_replace_absent_id_witness :
  initialized (stores (shop t1) 1%positive) = true
  ∧ map_get (data (stores (shop t1) 1%positive)) (VStr "p7") = None
  ∧ update 1%positive (VStr "p7") repriced (shop t1) = (Ok None, shop t1)
  ∧ replace 1%positive (VStr "p7") repriced (shop t1) = (Ok None, shop t1).
Proof.
  split; [reflexivity|]. split; [vm_compute; reflexivity|].
  apply update_replace_absent_id; [reflexivity|vm_compute; reflexivity].
Defined.

Lemma count_is_the_total_of_query_witness :
  initialized (stores (shop t1) 1%positive) = true
  ∧ (query 1%positive thirdPage None (shop t1)).1
    = Ok (Paginated [] {| pg_page := 3; pg_limit := 2;
                          pg_total := 3; pg_totalPages := 2 |})
  ∧ count 1%positive (filter thirdPage) (shop t1) = (Ok 3%Z, shop t1).
Proof.
  split; [reflexivity|].
  assert ((query 1%positive thirdPage None (shop t1)).1
          = Ok (Paginated [] {| pg_page := 3; pg_limit := 2;
                                pg_total := 3; pg_totalPages := 2 |})) as Hq
    by (vm_compute; reflexivity).
  split; [exact Hq|].
  destruct (count_is_the_total_of_query 1%positive thirdPage (shop t1) eq_refl)
    as [Hok _].
  apply (Hok [] {| pg_page := 3; pg_limit := 2; pg_total := 3; pg_totalPages := 2 |}
             (query 1%positive thirdPage None (shop t1)).2).
  rewrite <- Hq. apply surjective_pairing.
Defined.

Lemma pages_make_up_the_result_witness :
  initialized (stores (shop t1) 1%positive) = true
  ∧ filterStep byPrice (map_values (data (stores (shop t1) 1%positive))) = Ok products
  ∧ (1 ≤ number_or (limit byPrice) 20)%Z
  ∧ ceil_div (Z.of_nat (length products)) (number_or (limit byPrice) 20) = 2%Z
  ∧ concat ((fun p => itemsOf (query 1%positive (onPage p byPrice) None (shop t1)).1)
              <$> seqZ 1 (ceil_div (Z.of_nat (length products))
                                   (number_or (limit byPrice) 20)))
    = sortStep byPrice products.
Proof.
  split; [reflexivity|]. split; [vm_compute; reflexivity|].
  split; [vm_compute; discriminate|]. split; [vm_compute; reflexivity|].
  apply pages_make_up_the_result;
    [reflexivity|vm_compute; reflexivity|vm_compute; discriminate].
Defined.

Lemma initialize_marks_the_store_witness :
  (initialize 2%positive (marketplace "faker" 1 1)).1 = Ok tt
  ∧ initialized (stores (marketplace "faker" 1 1) 2%positive) = false
  ∧ initialized (stores (initialize 2%positive (marketplace "faker" 1 1)).2 2%positive)
    = true
  ∧ initialize 2%positive (initialize 2%positive (marketplace "faker" 1 1)).2
    = (Ok tt, (initialize 2%positive (marketplace "faker" 1 1)).2).
Proof.
  assert ((initialize 2%positive (marketplace "faker" 1 1)).1 = Ok tt) as Hok
    by (vm_compute; reflexivity).
  split; [exact Hok|]. split; [reflexivity|].
  apply (initialize_marks_the_store 2%positive (marketplace "faker" 1 1)).
  rewrite <- Hok. apply surjective_pairing.
Defined.

Lemma initializeAll_initializes_the_seed_order_witness :
  isInitializingAll (marketplace "faker" 3 4) = false
  ∧ (initializeAllCollections (marketplace "faker" 3 4)).1 = Ok tt
  ∧ initialized (stores (initializeAllCollections (marketplace "faker" 3 4)).2
                        1%positive) = true
  ∧ initialized (stores (initializeAllCollections (marketplace "faker" 3 4)).2
                        2%positive) = true.
Proof.
  assert ((initializeAllCollections (marketplace "faker" 3 4)).1 = Ok tt) as Hok
    by (vm_compute; reflexivity).
  split; [reflexivity|]. split; [exact Hok|].
  destruct (initializeAll_initializes_the_seed_order
              (marketplace "faker" 3 4)
              (initializeAllCollections (marketplace "faker" 3 4)).2 eq_refl)
    as [Hall _].
  { rewrite <- Hok. apply surjective_pairing. }
  split.
  - apply (Hall "users" {| relations := Some []; store := Some 1%positive |});
      [vm_compute; by left|vm_compute; reflexivity|reflexivity].
  - apply (Hall "orders" {| relations := Some ordersRelations;
                            store := Some 2%positive |});
      [vm_compute; right; by left|vm_compute; reflexivity|reflexivity].
Defined.

Lemma faker_seeding_makes_seedCount_records_witness :
  generate_mode (config (marketplace "faker" 3 4)) = "faker"
  ∧ seedCount (stores (marketplace "faker" 3 4) 1%positive) = 3%nat
  ∧ ∃ items, (generateSeedData 1%positive None (marketplace "faker" 3 4)).1 = Ok items
      ∧ length items = 3%nat
      ∧ Forall (fun r => is_Some (r !! "id")
                         ∧ ∃ t, r !! "updatedAt" = Some (VStr t)
                                ∧ (r !! "createdAt" = Some (VStr t)
                                   ∨ ∃ c, r !! "createdAt" = Some c
                                          ∧ truthy c = true))
               items.
Proof.
  split; [vm_compute; reflexivity|]. split; [reflexivity|].
  assert (∃ items, (generateSeedData 1%positive None (marketplace "faker" 3 4)).1
                   = Ok items) as [items Hitems]
    by (vm_compute; eexists; reflexivity).
  exists items. split; [exact Hitems|].
  apply (faker_seeding_makes_seedCount_records 1%positive None
           (marketplace "faker" 3 4) items
           (generateSeedData 1%positive None (marketplace "faker" 3 4)).2);
    [vm_compute; reflexivity|].
  rewrite <- Hitems. apply surjective_pairing.
Defined.

Lemma fakerSeed_repeats_the_id_witness :
  fakerSeed (config seededUsers) = Some 7%Z
  ∧ seedCount (stores seededUsers 1%positive) = 5%nat
  ∧ (initializeWithFKIntegrity 1%positive ∅ seededUsers).1 = Ok tt
  ∧ (∀ r, r ∈ map_values
                (data (stores (initializeWithFKIntegrity 1%positive ∅ seededUsers).2
                              1%positive)) →
          get r "id" = VStr (uuid_of (seeded 7 0)))
  ∧ (length (data (stores (initializeWithFKIntegrity 1%positive ∅ seededUsers).2
                          1%positive)) ≤ 1)%nat.
Proof.
  split; [reflexivity|]. split; [reflexivity|].
  assert ((initializeWithFKIntegrity 1%positive ∅ seededUsers).1 = Ok tt) as Hok
    by (vm_compute; reflexivity).
  split; [exact Hok|].
  apply (fakerSeed_repeats_the_id 1%positive ∅ seededUsers
           (initializeWithFKIntegrity 1%positive ∅ seededUsers).2 7%Z
           [("name", SPrim "string" false)]).
  - reflexivity.
  - reflexivity.
  - intros Hin. apply list_elem_of_singleton in Hin. discriminate.
  - reflexivity.
  - vm_compute. discriminate.
  - vm_compute. reflexivity.
  - reflexivity.
  - reflexivity.
  - rewrite <- Hok. apply surjective_pairing.
Defined.

Lemma list_projects_the_page_witness :
  environment (config (shop t1)) = "development"
  ∧ responseSchema pricesConfig = Some priceOnly
  ∧ (query 1%positive byPrice None (shop t1)).1
    = Ok (Paginated [product "p1" "lamp" 10; product "p2" "desk" 20]
                    {| pg_page := 1; pg_limit := 2; pg_total := 3; pg_totalPages := 2 |})
  ∧ list_ pricesConfig 1%positive (Some byPrice) (shop t1)
    = (Ok (Paginated
             (projectResponse [product "p1" "lamp" 10; product "p2" "desk" 20] priceOnly)
             {| pg_page := 1; pg_limit := 2; pg_total := 3; pg_totalPages := 2 |}),
       shop t1)
  ∧ projectResponse [product "p1" "lamp" 10; product "p2" "desk" 20] priceOnly
    = [obj [("id", VStr "p1"); ("price", num 10)];
       obj [("id", VStr "p2"); ("price", num 20)]].
Proof.
  split; [reflexivity|]. split; [reflexivity|].
  assert ((query 1%positive byPrice None (shop t1)).1
          = Ok (Paginated [product "p1" "lamp" 10; product "p2" "desk" 20]
                  {| pg_page := 1; pg_limit := 2; pg_total := 3; pg_totalPages := 2 |}))
    as Hq by (vm_compute; reflexivity).
  split; [exact Hq|]. split; [|vm_compute; reflexivity].
  apply (list_projects_the_page pricesConfig 1%positive (Some byPrice) (shop t1)
           [product "p1" "lamp" 10; product "p2" "desk" 20]
           {| pg_page := 1; pg_limit := 2; pg_total := 3; pg_totalPages := 2 |}
           false
           [("id", SPrim "uuid" false); ("price", SPrim "number" false)]).
  - reflexivity.
  - left. vm_compute. reflexivity.
  - reflexivity.
  - reflexivity.
  - vm_compute. reflexivity.
  - reflexivity.
  - simpl default. rewrite query_run by reflexivity.
    rewrite query_run in Hq by reflexivity.
    destruct (filterStep byPrice _) as [filtered|e]; [|done].
    cbv zeta in *. cbn [fst] in Hq. by rewrite Hq.
  - reflexivity.
Defined.

Lemma picked_schema_projects_on_the_chosen_fields_witness :
  Builder.pick (SObject true [("id", SPrim "uuid" false);
                              ("name", SPrim "string" false);
                              ("price", SPrim "number" false)])
               ["price"; "id"]
  = Ok (Some (SObject false [("price", SPrim "number" false);
                             ("id", SPrim "uuid" false)]))
  ∧ projectResponse products
      (SObject false [("price", SPrim "number" false); ("id", SPrim "uuid" false)])
    = projectItem ["price"; "id"] <$> products
  ∧ projectItem ["price"; "id"] (product "p1" "lamp" 10) !! "price" = Some (num 10)
  ∧ projectItem ["price"; "id"] (product "p1" "lamp" 10) !! "name" = None.
Proof.
  split; [reflexivity|].
  destruct (picked_schema_projects_on_the_chosen_fields true
              [("id", SPrim "uuid" false); ("name", SPrim "string" false);
               ("price", SPrim "number" false)]
              ["price"; "id"]
              [("price", SPrim "number" false); ("id", SPrim "uuid" false)]
              products eq_refl) as [Hsome _].
  destruct (Hsome ltac:(done)) as [Hall Hk].
  split; [exact Hall|]. split.
  - destruct (Hk (product "p1" "lamp" 10) "price") as [_ ->]; [by left|done|].
    vm_compute. reflexivity.
  - vm_compute. reflexivity.
Defined.

Lemma optional_value_follows_the_coin_witness :
  optional (SPrim "string" false) = false
  ∧ coins (entropy0 t1) (coinsDrawn (entropy0 t1)) = false
  ∧ generateSingleValue (Builder.optional (SPrim "string" false)) None None
                        (entropy0 t1)
    = generateSingleValue (SPrim "string" false) None None (tossed (entropy0 t1)).
Proof.
  split; [reflexivity|]. split; [reflexivity|].
  destruct (optional_value_follows_the_coin (SPrim "string" false) None None
              (entropy0 t1) eq_refl) as [Heq _].
  exact Heq.
Defined.

Lemma aggregates_read_the_declared_field_witness :
  noColon "price" = true
  ∧ calculateMetaField (schemaType (Builder.sum "price")) products None
    = Ok (BNum (sum_field "price" products))
  ∧ sum_field "price" products = of_Z 60.
Proof.
  split; [reflexivity|].
  destruct (aggregates_read_the_declared_field "price" products None eq_refl)
    as [Hsum _].
  split; [exact Hsum|]. vm_compute. reflexivity.
Defined.

Lemma operations_are_enabled_unless_switched_off_witness :
  ("delete" ∈ Operations.operationNames)
  ∧ get readOnly "delete" = VBool false
  ∧ Operations.isOperationEnabled
      (Operations.operation (Operations.normalizeOperations (Some readOnly)) "delete")
    = false
  ∧ Operations.isOperationEnabled
      (Operations.operation (Operations.normalizeOperations (Some readOnly)) "list")
    = false
  ∧ Operations.isOperationEnabled
      (Operations.operation (Operations.normalizeOperations (Some readOnly)) "get")
    = true.
Proof.
  assert ("delete" ∈ Operations.operationNames) as Hin by (by repeat constructor).
  split; [exact Hin|].
  assert (get readOnly "delete" = VBool false) as Hget by (vm_compute; reflexivity).
  split; [exact Hget|].
  destruct (operations_are_enabled_unless_switched_off (Some readOnly) "delete" Hin)
    as [Hiff _].
  split; [|split; vm_compute; reflexivity].
  apply Hiff. exists readOnly. split; [done|]. by left.
Defined.

Lemma mutations_keep_the_store_keyed_witness :
  keyedById (data (stores (shop t1) 1%positive)) = true
  ∧ distinctKeys (data (stores (shop t1) 1%positive)) = true
  ∧ keyedById (data (stores (insert 1%positive dated (shop t1)).2 1%positive)) = true
  ∧ distinctKeys (data (stores (delete 1%positive (VStr "p2") (shop t1)).2 1%positive))
    = true.
Proof.
  split; [vm_compute; reflexivity|]. split; [vm_compute; reflexivity|].
  destruct (mutations_keep_the_store_keyed 1%positive (shop t1))
    as [Hmut _]; [vm_compute; reflexivity..|].
  destruct (Hmut eq_refl) as (Hins & _ & _ & Hdel).
  split; [apply Hins|apply Hdel].
Defined.

Lemma ai_items_are_completed_witness :
  @generateWithAI twoUsersFromAI (stores (marketplace "auto" 5 1) 1%positive)
  = Ok (VArr 50%positive aiUsers)
  ∧ seedCount (stores (marketplace "auto" 5 1) 1%positive) = 5%nat
  ∧ ∃ items,
      (@generateSeedDataWithAI twoUsersFromAI 1%positive (marketplace "auto" 5 1)).1
      = Ok items
      ∧ length items = 2%nat
      ∧ Forall2
          (fun elem r =>
             r !! "updatedAt" = Some (VStr (reading (marketplace "auto" 5 1)))
             ∧ (∀ id, get_prop elem "id" = Ok id → truthy id = true →
                      r !! "id" = Some id)
             ∧ (∀ c, get_prop elem "createdAt" = Ok c → truthy c = true →
                     r !! "createdAt" = Some c)
             ∧ ∀ k, k ≠ "id" → k ≠ "createdAt" → k ≠ "updatedAt" →
                    r !! k = spread elem !! k)
          aiUsers items.
Proof.
  split; [reflexivity|]. split; [reflexivity|].
  assert (∃ items,
            (@generateSeedDataWithAI twoUsersFromAI 1%positive
               (marketplace "auto" 5 1)).1 = Ok items
            ∧ length items = 2%nat) as (items & Hitems & Hlen)
    by (vm_compute; eexists; split; reflexivity).
  exists items. split; [exact Hitems|]. split; [exact Hlen|].
  apply (@ai_items_are_completed twoUsersFromAI 1%positive (marketplace "auto" 5 1)
           50%positive aiUsers items
           (@generateSeedDataWithAI twoUsersFromAI 1%positive
              (marketplace "auto" 5 1)).2);
    [reflexivity|].
  rewrite <- Hitems. apply surjective_pairing.
Defined.

Lemma failed_pass_stops_at_a_store_witness :
  isInitializingAll (marketplace "ai" 1 1) = false
  ∧ (initializeAllCollections (marketplace "ai" 1 1)).1
    = Throw (Error "AI generation failed")
  ∧ (∃ n m p, n ∈ getCollectionSeedOrder (registry (marketplace "ai" 1 1))
              ∧ registry (marketplace "ai" 1 1) !! n = Some m ∧ store m = Some p
              ∧ initialized (stores (initializeAllCollections (marketplace "ai" 1 1)).2 p)
                = false)
  ∧ isInitializingAll (initializeAllCollections (marketplace "ai" 1 1)).2 = false.
Proof.
  split; [reflexivity|].
  assert ((initializeAllCollections (marketplace "ai" 1 1)).1
          = Throw (Error "AI generation failed")) as Hthrow
    by (vm_compute; reflexivity).
  split; [exact Hthrow|].
  destruct (failed_pass_stops_at_a_store (marketplace "ai" 1 1)
              (Error "AI generation failed")
              (initializeAllCollections (marketplace "ai" 1 1)).2 eq_refl)
    as (Hstop & _ & Hflag).
  { rewrite <- Hthrow. apply surjective_pairing. }
  split; [exact Hstop|exact Hflag].
Defined.
